(** * RooProduct: factorisation of a product into partial integrals

    A shallow embedding of [roofitcore/src/RooProduct.cxx]: the term grouper
    ([groupProductTerms], [findOverlap2nd]), the partial-integral builder and
    its cache ([getPartIntList], [analyticalIntegral]) and the evaluator
    ([evaluate], [calculate], [makeFPName]). *)

From Stdlib Require Import List Ascii String ZArith Bool Lia Permutation
  Relations Sorted Floats.
From Stdlib Require OrderedTypeEx.
Import ListNotations.

Local Open Scope string_scope.
Local Open Scope list_scope.
Local Open Scope Z_scope.

(** ** Results of code that may abort

    An [assert] that fails (or a null pointer that is dereferenced) aborts the
    process: [Aborted].  [OutOfFuel] is only produced by the bounded unfolding of
    the recursion in [analyticalIntegral]. *)

Inductive Outcome (A : Type) : Type :=
| Done (a : A)
| Aborted
| OutOfFuel.

Arguments Done {A} a.
Arguments Aborted {A}.
Arguments OutOfFuel {A}.

Definition bind {A B : Type} (m : Outcome A) (k : A -> Outcome B) : Outcome B :=
  match m with
  | Done a => k a
  | Aborted => Aborted
  | OutOfFuel => OutOfFuel
  end.

Definition c_assert (b : bool) : Outcome unit :=
  if b then Done tt else Aborted.

Notation "x <- m ;; k" := (bind m (fun x => k))
  (at level 61, m at next level, right associativity).
Notation "m ;;; k" := (bind m (fun _ => k))
  (at level 61, right associativity).

(** ** RooArgSet

    A [RooArgSet] is an ordered collection that finds, adds and compares its
    members by name and refuses a second member of the same name.  A member is
    represented by its name; iteration order is insertion order. *)

Definition RooArgSet := list string.

Definition contains (s : RooArgSet) (n : string) : bool :=
  existsb (String.eqb n) s.

(** [RooArgSet::add(const RooAbsArg&)] *)
Definition add (s : RooArgSet) (n : string) : RooArgSet :=
  if contains s n then s else s ++ [n].

(** [RooArgSet::add(const RooAbsCollection&)]: every member of [other] in turn *)
Definition addAll (s other : RooArgSet) : RooArgSet :=
  fold_left add other s.

Definition getSize (s : RooArgSet) : Z := Z.of_nat (List.length s).

(** [RooAbsCollection::overlaps]: some member of [other] is found in [s] *)
Definition overlaps (s other : RooArgSet) : bool :=
  existsb (contains s) other.

(** A list is a legal [RooArgSet] value when no name occurs twice. *)
Definition wfSet (s : RooArgSet) : Prop := NoDup s.

(** ** The product and its environment *)

Definition Double_t := float.
Definition Int_t := Z.

Record RooProduct : Type := mkRooProduct {
  _compRSet : RooArgSet;            (* real product components *)
  _compCSet : RooArgSet;            (* category product components *)
  _nset : option RooArgSet          (* _compRSet.nset() *)
}.

(** ** Term grouper *)

Definition Group : Type := (RooArgSet * RooArgSet)%type.
Definition ProdMap : Type := list Group.

Section Grouper.

(** [rcomp->dependsOn(var)] for a term and a variable, by name. *)
Variable dependsOn : string -> string -> bool.

(** Modelled from the spec: [RooAbsArg::dependsOn(const RooAbsCollection&)]
    is not part of the sources at hand.  A term depends on a set of
    variables when it depends on any member of the set. *)
Definition dependsOnSet (t : string) (vars : RooArgSet) : bool :=
  existsb (dependsOn t) vars.

(** Lines 131-135: the terms that depend on none of [allVars]. *)
Fixpoint indepLoop (comps : RooArgSet) (allVars indep : RooArgSet) : RooArgSet :=
  match comps with
  | [] => indep
  | rcomp :: rest =>
      indepLoop rest allVars
        (if negb (dependsOnSet rcomp allVars) then add indep rcomp else indep)
  end.

(** Lines 148-151: the terms that depend on [var]. *)
Fixpoint compsLoop (comps : RooArgSet) (var : string) (acc : RooArgSet) : RooArgSet :=
  match comps with
  | [] => acc
  | rcomp :: rest =>
      compsLoop rest var (if dependsOn rcomp var then add acc rcomp else acc)
  end.

(** Lines 141-153: one group per integration variable, appended to [map]. *)
Fixpoint varsLoop (comps : RooArgSet) (allVars : RooArgSet) (map : ProdMap) : ProdMap :=
  match allVars with
  | [] => map
  | var :: rest =>
      let vars := add [] var in
      let comps' := compsLoop comps var [] in
      varsLoop comps rest (map ++ [(vars, comps')])
  end.

(** [findOverlap2nd]: iterators are positions in the vector; [end] is its
    length.  [findInner] is the loop over [j], [findOuter] the loop over [i]. *)
Fixpoint findInner (ti : RooArgSet) (j : nat) (rest : ProdMap) : option nat :=
  match rest with
  | [] => None
  | gj :: rest' =>
      if overlaps ti (snd gj) then Some j else findInner ti (S j) rest'
  end.

Fixpoint findOuter (i : nat) (m : ProdMap) : option (nat * nat) :=
  match m with
  | [] => None
  | gi :: rest =>
      match findInner (snd gi) (S i) rest with
      | Some j => Some (i, j)
      | None => findOuter (S i) rest
      end
  end.

Definition findOverlap2nd (m : ProdMap) : nat * nat :=
  match findOuter 0 m with
  | Some p => p
  | None => (List.length m, List.length m)
  end.

(** Lines 161-165: add group [j] into group [i], then erase position [j]. *)
Definition erase (j : nat) (m : ProdMap) : ProdMap :=
  firstn j m ++ skipn (S j) m.

Fixpoint setAt (i : nat) (g : Group) (m : ProdMap) : ProdMap :=
  match m, i with
  | [], _ => []
  | _ :: rest, O => g :: rest
  | h :: rest, S i' => h :: setAt i' g rest
  end.

Definition mergeAt (i j : nat) (m : ProdMap) : ProdMap :=
  match nth_error m i, nth_error m j with
  | Some gi, Some gj =>
      erase j (setAt i (addAll (fst gi) (fst gj), addAll (snd gi) (snd gj)) m)
  | _, _ => m
  end.

(** Lines 156-167: the do-while loop.  Every round that merges removes one
    group, so [length map] rounds are enough ([mergeLoop_exits] below). *)
Fixpoint mergeLoop (fuel : nat) (m : ProdMap) : ProdMap :=
  match fuel with
  | O => m
  | S fuel' =>
      let i := findOverlap2nd m in
      let overlaps := negb (Nat.eqb (fst i) (snd i)) in
      if overlaps then mergeLoop fuel' (mergeAt (fst i) (snd i) m) else m
  end.

(** Lines 127-153: the map before merging. *)
Definition initialMap (P : RooProduct) (allVars : RooArgSet) : ProdMap :=
  let indep := indepLoop (_compRSet P) allVars [] in
  let map := if negb (getSize indep =? 0) then [([], indep)] else [] in
  varsLoop (_compRSet P) allVars map.

Definition mergedMap (P : RooProduct) (allVars : RooArgSet) : ProdMap :=
  let map := initialMap P allVars in
  mergeLoop (List.length map) map.

(** Lines 171-175 *)
Fixpoint countLoop (m : ProdMap) (nVar nFunc : Z) : Z * Z :=
  match m with
  | [] => (nVar, nFunc)
  | i :: rest => countLoop rest (nVar + getSize (fst i)) (nFunc + getSize (snd i))
  end.

Definition groupProductTerms (P : RooProduct) (allVars : RooArgSet)
  : Outcome ProdMap :=
  let map := mergedMap P allVars in
  let '(nVar, nFunc) := countLoop map 0 0 in
  c_assert (nVar =? getSize allVars) ;;;
  c_assert (nFunc =? getSize (_compRSet P)) ;;;
  Done map.

End Grouper.

(** ** Objects held by a partial-integral list *)

Inductive RooAbsReal : Type :=
| Term (name : string)                                   (* a term of the product *)
| SubProduct (name : string) (terms : RooArgSet)         (* new RooProduct(name,name,terms) *)
| Integral (integrand : RooAbsReal) (vars : RooArgSet)
           (rangeName : option string).                  (* term->createIntegral(vars,range) *)

Record CacheElem : Type := mkCacheElem {
  _prodList : list RooAbsReal;
  _ownedList : list RooAbsReal
}.

(** What the terms answer: dependencies, current values, category indices,
    the value of an integral object, and the parameters of the product
    ([getParameters(RooArgSet())]). *)
Record Env : Type := mkEnv {
  dependsOn : string -> string -> bool;
  getVal : string -> option RooArgSet -> Double_t;
  getIndex : string -> Int_t;
  integralVal : RooAbsReal -> RooArgSet -> option string -> Double_t;
  getParameters : RooArgSet
}.

(** ** Evaluator *)

(** Conversion of an [Int_t] to [Double_t] (exact on 32-bit integers). *)
Definition double_of_Int_t (z : Int_t) : Double_t :=
  match z with
  | Z0 => 0%float
  | Zpos _ => PrimFloat.of_uint63 (Uint63.of_Z z)
  | Zneg p => PrimFloat.opp (PrimFloat.of_uint63 (Uint63.of_Z (Zpos p)))
  end.

Fixpoint evaluateRLoop (E : Env) (comps : RooArgSet) (nset : option RooArgSet)
  (prod : Double_t) : Double_t :=
  match comps with
  | [] => prod
  | rcomp :: rest => evaluateRLoop E rest nset (prod * getVal E rcomp nset)%float
  end.

Fixpoint evaluateCLoop (E : Env) (comps : RooArgSet) (prod : Double_t) : Double_t :=
  match comps with
  | [] => prod
  | ccomp :: rest =>
      evaluateCLoop E rest (prod * double_of_Int_t (getIndex E ccomp))%float
  end.

Definition evaluate (E : Env) (P : RooProduct) : Double_t :=
  let prod := 1%float in
  let nset := _nset P in
  let prod := evaluateRLoop E (_compRSet P) nset prod in
  evaluateCLoop E (_compCSet P) prod.

(** [term->getVal()] of an object of the list: no normalisation set.  A
    sub-product is built from terms of [_compRSet], so all of them are real
    components of the new product. *)
Definition objVal (E : Env) (a : RooAbsReal) : Double_t :=
  match a with
  | Term n => getVal E n None
  | SubProduct _ terms => evaluate E (mkRooProduct terms [] None)
  | Integral f vars r => integralVal E f vars r
  end.

Fixpoint calculateLoop (E : Env) (l : list RooAbsReal) (val : Double_t) : Double_t :=
  match l with
  | [] => val
  | term :: rest => let x := objVal E term in calculateLoop E rest (val * x)%float
  end.

Definition calculate (E : Env) (partIntList : list RooAbsReal) : Double_t :=
  calculateLoop E partIntList 1%float.

(** ** Names of sub-products *)

Fixpoint makeFPNameLoop (terms : RooArgSet) (first : bool) (pname : string) : string :=
  match terms with
  | [] => pname
  | arg :: rest =>
      let pname := if first then pname else String.append pname "_X_" in
      makeFPNameLoop rest false (String.append pname arg)
  end.

Definition makeFPName (pfx : string) (terms : RooArgSet) : string :=
  makeFPNameLoop terms true pfx.

(** ** Partial-integral builder (lines 204-228) *)

Definition addProd (c : CacheElem) (a : RooAbsReal) : CacheElem :=
  mkCacheElem (_prodList c ++ [a]) (_ownedList c).

Definition addOwned (c : CacheElem) (a : RooAbsReal) : CacheElem :=
  mkCacheElem (_prodList c) (_ownedList c ++ [a]).

Definition buildTerm (terms : RooArgSet) (cache : CacheElem)
  : Outcome (RooAbsReal * CacheElem) :=
  if 1 <? getSize terms then
    let name := makeFPName "SUBPROD_" terms in
    let term := SubProduct name terms in
    Done (term, addOwned cache term)
  else
    c_assert (getSize terms =? 1) ;;;
    match terms with
    | j :: _ => Done (Term j, cache)
    | [] => Aborted
    end.

Fixpoint buildLoop (m : ProdMap) (isetRange : option string) (cache : CacheElem)
  : Outcome CacheElem :=
  match m with
  | [] => Done cache
  | i :: rest =>
      tc <- buildTerm (snd i) cache ;;
      let '(term, cache) := tc in
      let cache :=
        if getSize (fst i) =? 0 then addProd cache term
        else
          let integral := Integral term (fst i) isetRange in
          addOwned (addProd cache integral) integral in
      buildLoop rest isetRange cache
  end.

(** ** Integral cache

    The cache manager behind [_cacheMgr] and the name registry are used by
    [RooProduct.cxx] but are not part of the sources at hand. *)

(** Modelled from the spec: the slots of the cache manager.  A slot is keyed
    by the normalised sets of names of the two sets of the request and by the
    range token; the second set of names is also the descriptor from which the
    integration set is derived again after a sterilisation.  A code is the
    position of a slot and is never reused. *)
Record CacheSlot : Type := mkSlot {
  slotNset : RooArgSet;              (* nameSet1, normalised *)
  slotIset : RooArgSet;              (* nameSet2, normalised: the persisted descriptor *)
  slotRange : option string;         (* interned range token *)
  slotObj : option CacheElem         (* None once sterilised *)
}.

(** Modelled from the spec: the cache manager, its slots in the order of
    their codes. *)
Definition RooCacheManager : Type := list CacheSlot.

(** Modelled from the spec: [RooNameReg::ptr].  Textually equal names give
    the same token, a null name gives the null token; a token is represented
    by the text it stands for. *)
Definition RooNameReg_ptr (rangeName : option string) : option string := rangeName.

(** Modelled from the spec: the normalised form of a set, under which the
    cache manager compares and persists it: the names of the members, each
    once, in ascending order.  Sets that are equal by value have the same
    normalised form, in whatever order their members were added. *)
Fixpoint insertName (n : string) (names : list string) : list string :=
  match names with
  | [] => [n]
  | m :: rest =>
      match String.compare n m with
      | Lt => n :: names
      | Eq => names
      | Gt => m :: insertName n rest
      end
  end.

Definition normalized (s : RooArgSet) : RooArgSet := fold_right insertName [] s.

(** Modelled from the spec: comparison of sets by value, that is, of their
    normalised forms. *)
Definition sameNames (a b : RooArgSet) : bool :=
  if list_eq_dec string_dec (normalized a) (normalized b) then true else false.

(** Modelled from the spec: comparison of range tokens by identity. *)
Definition sameToken (a b : option string) : bool :=
  match a, b with
  | None, None => true
  | Some x, Some y => String.eqb x y
  | _, _ => false
  end.

(** Modelled from the spec: comparison of a request with the key of a slot. *)
Definition slotMatches (nset iset : RooArgSet) (tok : option string)
  (s : CacheSlot) : bool :=
  sameNames nset (slotNset s) && sameNames iset (slotIset s)
  && sameToken tok (slotRange s).

(** Modelled from the spec: the search for the key of a request, from the
    first slot on; [i] is the position of the head of [slots]. *)
Fixpoint findSlot (slots : list CacheSlot) (nset iset : RooArgSet)
  (tok : option string) (i : nat) : option (nat * CacheSlot) :=
  match slots with
  | [] => None
  | s :: rest =>
      if slotMatches nset iset tok s then Some (i, s)
      else findSlot rest nset iset tok (S i)
  end.

(** Modelled from the spec: what [getObj] hands back, the payload and the
    positions it reports through [lastIndex()] and [sterileIndex] (-1 when it
    reports none). *)
Record Lookup : Type := mkLookup {
  lookupObj : option CacheElem;
  lastIndex : Int_t;
  sterileIdx : Int_t
}.

(** Modelled from the spec: [RooCacheManager::getObj], the lookup.  The first
    slot with the key of the request answers; its payload is missing when the
    slot was sterilised. *)
Definition getObj (mgr : RooCacheManager) (nset iset : RooArgSet)
  (tok : option string) : Lookup :=
  match findSlot mgr nset iset tok 0 with
  | Some (i, s) =>
      match slotObj s with
      | Some obj => mkLookup (Some obj) (Z.of_nat i) (-1)
      | None => mkLookup None (Z.of_nat i) (Z.of_nat i)
      end
  | None => mkLookup None (-1) (-1)
  end.

(** Modelled from the spec: the payload of slot [i] is replaced, its key and
    its position are kept. *)
Fixpoint setSlotObj (i : nat) (obj : option CacheElem) (slots : list CacheSlot)
  : list CacheSlot :=
  match slots, i with
  | [], _ => []
  | s :: rest, O => mkSlot (slotNset s) (slotIset s) (slotRange s) obj :: rest
  | s :: rest, S i' => s :: setSlotObj i' obj rest
  end.

(** Modelled from the spec: [RooCacheManager::setObj], the store.  A
    sterilised slot with the key of the request is revived in place;
    otherwise a new slot is appended, keyed by the normalised sets of the
    request, and its position is the new code. *)
Definition setObj (mgr : RooCacheManager) (nset iset : RooArgSet)
  (obj : CacheElem) (tok : option string) : Int_t * RooCacheManager :=
  let r := getObj mgr nset iset tok in
  match lookupObj r with
  | Some _ => (lastIndex r, mgr)
  | None =>
      if 0 <=? sterileIdx r
      then (sterileIdx r, setSlotObj (Z.to_nat (sterileIdx r)) (Some obj) mgr)
      else (Z.of_nat (List.length mgr),
            mgr ++ [mkSlot (normalized nset) (normalized iset) tok (Some obj)])
  end.

(** Modelled from the spec: the slot behind a code, if there is one. *)
Definition slotByIndex (mgr : RooCacheManager) (index : Int_t) : option CacheSlot :=
  if index <? 0 then None else nth_error mgr (Z.to_nat index).

(** Modelled from the spec: [RooCacheManager::getObjByIndex], the payload of
    the slot behind a code; none when the slot is sterilised or missing. *)
Definition getObjByIndex (mgr : RooCacheManager) (index : Int_t) : option CacheElem :=
  match slotByIndex mgr index with
  | Some s => slotObj s
  | None => None
  end.

(** Modelled from the spec: [RooCacheManager::nameSet2ByIndex], the names
    persisted in the slot behind a code; a null pointer when it is missing. *)
Definition nameSet2ByIndex (mgr : RooCacheManager) (index : Int_t) : option RooArgSet :=
  match slotByIndex mgr index with
  | Some s => Some (slotIset s)
  | None => None
  end.

(** Modelled from the spec: [RooNameSet::select], which derives a set again
    from the persisted names: the members of [vars] named by the descriptor,
    in the descriptor's order. *)
Fixpoint selectLoop (names : RooArgSet) (vars out : RooArgSet) : RooArgSet :=
  match names with
  | [] => out
  | n :: rest => selectLoop rest vars (if contains vars n then add out n else out)
  end.

(** Modelled from the spec: [RooNameSet::select], from the empty set. *)
Definition select (names vars : RooArgSet) : RooArgSet := selectLoop names vars [].

(** Modelled from the spec: sterilisation of one slot.  The payload is
    discarded, key and position are kept. *)
Definition sterilizeSlot (i : nat) (mgr : RooCacheManager) : RooCacheManager :=
  setSlotObj i None mgr.

(** Modelled from the spec: sterilisation of the whole cache. *)
Definition sterilize (mgr : RooCacheManager) : RooCacheManager :=
  List.map (fun s => mkSlot (slotNset s) (slotIset s) (slotRange s) None) mgr.

(** ** getPartIntList, getAnalyticalIntegralWN, analyticalIntegral *)

Definition getPartIntList (E : Env) (P : RooProduct) (mgr : RooCacheManager)
  (iset : RooArgSet) (isetRange : option string)
  : Outcome (Int_t * RooCacheManager) :=
  let r := getObj mgr iset iset (RooNameReg_ptr isetRange) in
  match lookupObj r with
  | Some _ =>
      let code := lastIndex r in
      Done (code, mgr)
  | None =>
      map <- groupProductTerms (dependsOn E) P iset ;;
      if (List.length map <? 2)%nat then Done (-1, mgr)
      else
        cache <- buildLoop map isetRange (mkCacheElem [] []) ;;
        let '(code, mgr') := setObj mgr iset iset cache (RooNameReg_ptr isetRange) in
        Done (code, mgr')
  end.

Definition getAnalyticalIntegralWN (E : Env) (P : RooProduct) (forceNumInt : bool)
  (mgr : RooCacheManager) (allVars analVars : RooArgSet)
  (normSet : option RooArgSet) (rangeName : option string)
  : Outcome (Int_t * RooArgSet * RooCacheManager) :=
  if forceNumInt then Done (0, analVars, mgr)
  else
    c_assert (match normSet with None => true | Some _ => false end) ;;;
    c_assert (getSize analVars =? 0) ;;;
    let analVars := addAll analVars allVars in
    r <- getPartIntList E P mgr analVars rangeName ;;
    let '(c, mgr') := r in
    let code := c + 1 in
    Done (code, analVars, mgr').

(** The recursive call of line 266 is unfolded at most [fuel] times. *)
Fixpoint analyticalIntegralRec (fuel : nat) (E : Env) (P : RooProduct)
  (mgr : RooCacheManager) (code : Int_t) (rangeName : option string)
  : Outcome (Double_t * RooCacheManager) :=
  match fuel with
  | O => OutOfFuel
  | S fuel' =>
      match getObjByIndex mgr (code - 1) with
      | Some cache => Done (calculate E (_prodList cache), mgr)
      | None =>
          let vars := getParameters E in
          match nameSet2ByIndex mgr (code - 1) with
          | None => Aborted
          | Some names =>
              let iset := select names vars in
              r <- getPartIntList E P mgr iset rangeName ;;
              let '(c, mgr') := r in
              let code2 := c + 1 in
              c_assert (code =? code2) ;;;
              analyticalIntegralRec fuel' E P mgr' code2 rangeName
          end
      end
  end.

(** Two levels are always enough ([analyticalIntegral_no_timeout] below). *)
Definition analyticalIntegral (E : Env) (P : RooProduct) (mgr : RooCacheManager)
  (code : Int_t) (rangeName : option string)
  : Outcome (Double_t * RooCacheManager) :=
  analyticalIntegralRec 2 E P mgr code rangeName.

(** Cache states that a product can be in: empty at construction, then
    changed by integration requests, integral evaluations and sterilisation. *)
Inductive reachable (E : Env) (P : RooProduct) : RooCacheManager -> Prop :=
| reach_init : reachable E P []
| reach_getPartIntList mgr iset rangeName code mgr' :
    reachable E P mgr -> wfSet iset ->
    getPartIntList E P mgr iset rangeName = Done (code, mgr') ->
    reachable E P mgr'
| reach_sterilizeSlot mgr i :
    reachable E P mgr -> reachable E P (sterilizeSlot i mgr)
| reach_sterilize mgr :
    reachable E P mgr -> reachable E P (sterilize mgr).

(** * Further functions of RooProduct.cxx *)

(** The dynamic type of a component, as the [dynamic_cast]s see it. *)
Inductive ArgKind : Type :=
| KReal          (* a RooAbsReal *)
| KCategory      (* a RooAbsCategory *)
| KOther.

(** Lines 81-93: the loop of the constructor.  A component that is neither
    real nor a category is reported and [RooErrorHandler::softAbort] is
    called. *)
Fixpoint ctorLoop (classOf : string -> ArgKind) (prodSet : RooArgSet)
  (compRSet compCSet : RooArgSet) : Outcome (RooArgSet * RooArgSet) :=
  match prodSet with
  | [] => Done (compRSet, compCSet)
  | comp :: rest =>
      match classOf comp with
      | KReal => ctorLoop classOf rest (add compRSet comp) compCSet
      | KCategory => ctorLoop classOf rest compRSet (add compCSet comp)
      | KOther => Aborted
      end
  end.

(** [RooProduct::RooProduct(name, title, prodSet)] *)
Definition RooProduct_ctor (classOf : string -> ArgKind) (prodSet : RooArgSet)
  : Outcome RooProduct :=
  sets <- ctorLoop classOf prodSet [] [] ;;
  Done (mkRooProduct (fst sets) (snd sets) None).

(** Lines 115-121: [forceAnalyticalInt].  The iterator is advanced before
    [depends] is tested. *)
Fixpoint forceLoop (E : Env) (comps : RooArgSet) (dep : string) (depends : bool)
  : bool :=
  match comps with
  | [] => depends
  | rcomp :: rest =>
      if negb depends then forceLoop E rest dep (dependsOn E rcomp dep)
      else depends
  end.

Definition forceAnalyticalInt (E : Env) (P : RooProduct) (dep : string) : bool :=
  forceLoop E (_compRSet P) dep false.

(** [RooProduct::CacheElem::containedArgs] *)
Definition containedArgs (c : CacheElem) : list RooAbsReal := _ownedList c.

(** * RooClassFactory.cxx *)

(** ** strtok

    [strtok] of the C library: the saved position is the text that is left.
    Leading delimiters are skipped; the token runs up to the next delimiter,
    which is consumed, or to the end. *)

Definition isDelim (c : Ascii.ascii) (delims : string) : bool :=
  existsb (Ascii.eqb c) (list_ascii_of_string delims).

Fixpoint skipDelims (delims : string) (s : string) : string :=
  match s with
  | EmptyString => EmptyString
  | String c s' => if isDelim c delims then skipDelims delims s' else s
  end.

Fixpoint scanToken (delims : string) (s : string) : string * string :=
  match s with
  | EmptyString => (EmptyString, EmptyString)
  | String c s' =>
      if isDelim c delims then (EmptyString, s')
      else let (t, r) := scanToken delims s' in (String c t, r)
  end.

Definition strtok (delims : string) (saved : string) : option string * string :=
  match skipDelims delims saved with
  | EmptyString => (None, EmptyString)
  | s => let (t, r) := scanToken delims s in (Some t, r)
  end.

(** ** Argument names

    Lines 54-69 and 88-103: the names of the real and of the category
    arguments, each list separated by commas; other arguments are reported
    and ignored. *)
Fixpoint joinArgNames (classOf : string -> ArgKind) (vars : list string)
  (realArgNames catArgNames : string) : string * string :=
  match vars with
  | [] => (realArgNames, catArgNames)
  | arg :: rest =>
      match classOf arg with
      | KReal =>
          let realArgNames :=
            if (0 <? String.length realArgNames)%nat
            then String.append realArgNames ","
            else realArgNames in
          joinArgNames classOf rest (String.append realArgNames arg) catArgNames
      | KCategory =>
          let catArgNames :=
            if (0 <? String.length catArgNames)%nat
            then String.append catArgNames ","
            else catArgNames in
          joinArgNames classOf rest realArgNames (String.append catArgNames arg)
      | KOther => joinArgNames classOf rest realArgNames catArgNames
      end
  end.

(** ** makeClass *)

Definition nullOrEmpty (s : option string) : bool :=
  match s with
  | None => true
  | Some EmptyString => true
  | Some _ => false
  end.

(** Lines 233-252: the checks of the arguments; [true] is the error return. *)
Definition makeClass_checkArgs (baseName className realArgNames catArgNames
  : option string) (hasAnaInt : bool) (intExpression : option string) : bool :=
  match baseName with
  | None => true
  | Some _ =>
      match className with
      | None => true
      | Some _ =>
          if nullOrEmpty realArgNames && nullOrEmpty catArgNames then true
          else
            match intExpression with
            | Some _ => if negb hasAnaInt then true else false
            | None => false
            end
      end
  end.

(** Lines 261-266 and 272-277: [while(token) { push_back ; strtok(0,",") }],
    at most [fuel] rounds. *)
Fixpoint tokenLoop (fuel : nat) (token : option string) (saved : string)
  (cat : bool) (alist : list string) (isCat : list bool)
  : Outcome (list string * list bool) :=
  match token with
  | None => Done (alist, isCat)
  | Some tok =>
      match fuel with
      | O => OutOfFuel
      | S fuel' =>
          let alist := alist ++ [tok] in
          let isCat := isCat ++ [cat] in
          let (token', saved') := strtok "," saved in
          tokenLoop fuel' token' saved' cat alist isCat
      end
  end.

Definition tokenizeNames (names : option string) (cat : bool)
  (alist : list string) (isCat : list bool)
  : Outcome (list string * list bool) :=
  match names with
  | None => Done (alist, isCat)
  | Some EmptyString => Done (alist, isCat)
  | Some buf =>
      let (token, saved) := strtok "," buf in
      tokenLoop (String.length buf) token saved cat alist isCat
  end.

(** Lines 254-279: the list of argument names and the flags that tell the
    categories. *)
Definition parseArgNames (realArgNames catArgNames : option string)
  : Outcome (list string * list bool) :=
  r <- tokenizeNames realArgNames false [] [] ;;
  tokenizeNames catArgNames true (fst r) (snd r).

(** Lines 469-474: observables and integral expressions.  A missing
    expression makes [strtok] return a null pointer, from which no string can
    be built. *)
Fixpoint intExprLoop (fuel : nat) (ptr : option string) (saved : string)
  (intObs intExpr : list string) : Outcome (list string * list string) :=
  match ptr with
  | None => Done (intObs, intExpr)
  | Some obs =>
      match fuel with
      | O => OutOfFuel
      | S fuel' =>
          let intObs := intObs ++ [obs] in
          let (expr, saved1) := strtok ";" saved in
          match expr with
          | None => Aborted
          | Some e =>
              let intExpr := intExpr ++ [e] in
              let (ptr', saved2) := strtok ":" saved1 in
              intExprLoop fuel' ptr' saved2 intObs intExpr
          end
      end
  end.

(** Lines 462-476 *)
Definition parseIntExpression (intExpression : option string)
  : Outcome (list string * list string) :=
  match intExpression with
  | None => Done ([], [])
  | Some EmptyString => Done ([], [])
  | Some buf =>
      let (ptr, saved) := strtok ":" buf in
      intExprLoop (String.length buf) ptr saved [] []
  end.

(** What [makeClass] returns.  The text it writes to the header and to the
    implementation file between the checks and the final [return kFALSE] is
    generated from the lists below and does not change the result. *)
Definition makeClass (baseName className realArgNames catArgNames
  expression : option string) (hasAnaInt hasIntGen : bool)
  (intExpression : option string) : Outcome bool :=
  if makeClass_checkArgs baseName className realArgNames catArgNames
       hasAnaInt intExpression
  then Done true
  else
    parseArgNames realArgNames catArgNames ;;;
    (if hasAnaInt then parseIntExpression intExpression ;;; Done tt else Done tt) ;;;
    Done false.

Definition makePdf (name argNames catArgNames expression : option string)
  (hasAnaInt hasIntGen : bool) (intExpression : option string) : Outcome bool :=
  makeClass (Some "RooAbsPdf") name argNames catArgNames expression
    hasAnaInt hasIntGen intExpression.

Definition makeFunction (name argNames catArgNames expression : option string)
  (hasAnaInt : bool) (intExpression : option string) : Outcome bool :=
  makeClass (Some "RooAbsReal") name argNames catArgNames expression
    hasAnaInt false intExpression.

Definition isSome {A : Type} (o : option A) : bool :=
  match o with Some _ => true | None => false end.

(** [makeAndCompilePdf] and [makeAndCompileFunction]; [interp] is the error
    verdict of the interpreter on the line it is given. *)
Definition makeAndCompilePdf (classOf : string -> ArgKind) (interp : string -> bool)
  (name : string) (expression : option string) (vars : list string)
  (intExpression : option string) : Outcome bool :=
  let (realArgNames, catArgNames) := joinArgNames classOf vars "" "" in
  ret <- makePdf (Some name) (Some realArgNames) (Some catArgNames) expression
           (isSome intExpression) false intExpression ;;
  if ret then Done ret
  else Done (interp (String.append ".L " (String.append name ".cxx+"))).

Definition makeAndCompileFunction (classOf : string -> ArgKind)
  (interp : string -> bool) (name : string) (expression : option string)
  (vars : list string) (intExpression : option string) : Outcome bool :=
  let (realArgNames, catArgNames) := joinArgNames classOf vars "" "" in
  ret <- makeFunction (Some name) (Some realArgNames) (Some catArgNames) expression
           (isSome intExpression) intExpression ;;
  if ret then Done ret
  else Done (interp (String.append ".L " (String.append name ".cxx+"))).

(** Lines 144-160 and 194-210: the arguments passed at instantiation, first
    the reals in list order, then the categories in list order; [ptrOf] is the
    text [%p] prints for an argument. *)
Fixpoint argListLoop (classOf : string -> ArgKind) (ptrOf : string -> string)
  (wanted : ArgKind) (cast : string) (vars : list string) (argList : string)
  : string :=
  match vars with
  | [] => argList
  | var :: rest =>
      let argList :=
        match classOf var, wanted with
        | KReal, KReal | KCategory, KCategory =>
            String.append argList
              (String.append cast (String.append (ptrOf var) ")"))
        | _, _ => argList
        end in
      argListLoop classOf ptrOf wanted cast rest argList
  end.

Definition instanceArgList (classOf : string -> ArgKind) (ptrOf : string -> string)
  (vars : list string) : string :=
  let argList := "" in
  let argList := argListLoop classOf ptrOf KReal ",*((RooAbsReal*)" vars argList in
  argListLoop classOf ptrOf KCategory ",*((RooAbsCategory*)" vars argList.

(** * Vocabulary of the properties *)

(** ** Groups *)

(** One round of the merge loop as a step: a later group whose terms overlap
    those of an earlier one is added into it and removed. *)
Definition merged (gi gj : Group) : Group :=
  (addAll (fst gi) (fst gj), addAll (snd gi) (snd gj)).

Inductive mergeStep : ProdMap -> ProdMap -> Prop :=
| merge_step (l1 : ProdMap) (gi : Group) (l2 : ProdMap) (gj : Group) (l3 : ProdMap) :
    overlaps (snd gi) (snd gj) = true ->
    mergeStep (l1 ++ gi :: l2 ++ gj :: l3) (l1 ++ merged gi gj :: l2 ++ l3).

Definition mergeSteps : ProdMap -> ProdMap -> Prop :=
  clos_refl_trans_1n ProdMap mergeStep.

(** No group overlaps a later one in its terms. *)
Definition noOverlap (m : ProdMap) : Prop :=
  ForallOrdPairs (fun a b => overlaps (snd a) (snd b) = false) m.

(** All variables, and all terms, of a map, group after group. *)
Definition allVarsOf (m : ProdMap) : RooArgSet := List.concat (List.map fst m).
Definition allTermsOf (m : ProdMap) : RooArgSet := List.concat (List.map snd m).

(** The sum over the groups of the size of one of their two sets. *)
Definition sumSizes (sel : Group -> RooArgSet) (m : ProdMap) : Z :=
  fold_right Z.add 0 (List.map (fun g => getSize (sel g)) m).

(** The variable sets stay a partition of the integration variables. *)
Definition varsInv (allVars : RooArgSet) (m : ProdMap) : Prop :=
  Permutation (allVarsOf m) allVars.

(** Every term set is duplicate-free and together they hold exactly the
    real terms. *)
Definition termsInv (comps : RooArgSet) (m : ProdMap) : Prop :=
  Forall (fun g => NoDup (snd g)) m
  /\ (forall t, In t (allTermsOf m) <-> In t comps).

(** The real terms that depend on none of the integration variables, and the
    group a variable starts with. *)
Definition indepTerms (dep : string -> string -> bool) (P : RooProduct)
  (allVars : RooArgSet) : RooArgSet :=
  filter (fun t => negb (dependsOnSet dep t allVars)) (_compRSet P).

Definition varGroup (dep : string -> string -> bool) (P : RooProduct)
  (v : string) : Group :=
  ([v], filter (fun t => dep t v) (_compRSet P)).

(** The map starts with the group of independent terms; every other group has
    a variable and shares no term with it. *)
Definition headInv (indep : RooArgSet) (m : ProdMap) : Prop :=
  exists rest,
    m = ([], indep) :: rest
    /\ Forall (fun g => fst g <> [] /\ overlaps indep (snd g) = false) rest.

Definition hasTerms (g : Group) : Prop := snd g <> [].

(** ** Values *)

(** The running product of the code: [start] multiplied from the left by
    every factor in turn, in double precision. *)
Definition productFrom (start : Double_t) (factors : list Double_t) : Double_t :=
  fold_left PrimFloat.mul factors start.

(** ** Order of the requests *)

(** Two sets that are equal by value: they hold the same names. *)
Definition sameMembers (a b : RooArgSet) : Prop := forall x, In x a <-> In x b.

(** Two integration variables are linked when some real term depends on both,
    and connected when a chain of links leads from one to the other. *)
Definition linked (dep : string -> string -> bool) (comps allVars : RooArgSet)
  (v w : string) : Prop :=
  In v allVars /\ In w allVars
  /\ exists t, In t comps /\ dep t v = true /\ dep t w = true.

Definition connected (dep : string -> string -> bool) (comps allVars : RooArgSet)
  : string -> string -> Prop :=
  clos_refl_trans string (linked dep comps allVars).

(** The integral over [allVars] splits into at least two factors: a real
    term depends on none of the variables, or two of the variables are not
    connected.  This says nothing about the order of [allVars]. *)
Definition factorises (dep : string -> string -> bool) (comps allVars : RooArgSet)
  : Prop :=
  ((exists v, In v allVars)
   /\ exists t, In t comps /\ forall v, In v allVars -> dep t v = false)
  \/ exists v w, In v allVars /\ In w allVars /\ ~ connected dep comps allVars v w.

(** Every group's variables are connected with each other. *)
Definition connInv (dep : string -> string -> bool) (comps allVars : RooArgSet)
  (m : ProdMap) : Prop :=
  Forall (fun g => forall a b, In a (fst g) -> In b (fst g) ->
                     connected dep comps allVars a b) m.

(** The term sets are duplicate-free and hold real terms only; a group
    without variables has a term. *)
Definition termSetsInv (comps : RooArgSet) (m : ProdMap) : Prop :=
  Forall (fun g => NoDup (snd g) /\ incl (snd g) comps
                   /\ (fst g = [] -> snd g <> [])) m.

(** ** Cache *)

Definition slotKey (s : CacheSlot) : RooArgSet * RooArgSet * option string :=
  (slotNset s, slotIset s, slotRange s).

(** A key with its two sets in normalised form: what the lookup compares. *)
Definition normalKey (k : RooArgSet * RooArgSet * option string)
  : RooArgSet * RooArgSet * option string :=
  (normalized (fst (fst k)), normalized (snd (fst k)), snd k).

(** No two slots carry the same key. *)
Definition keysDistinct (mgr : RooCacheManager) : Prop :=
  forall i j si sj,
    nth_error mgr i = Some si -> nth_error mgr j = Some sj ->
    normalKey (slotKey si) = normalKey (slotKey sj) -> i = j.

(** [obj] is a list that the builder loop made for the variables [names] and
    the range [r]: from the groups of a duplicate-free request that holds
    exactly these variables, in some order, and factorises. *)
Definition builtFor (E : Env) (P : RooProduct) (names : RooArgSet)
  (r : option string) (obj : CacheElem) : Prop :=
  exists iset m,
    NoDup iset /\ sameMembers iset names
    /\ groupProductTerms (dependsOn E) P iset = Done m
    /\ (2 <= List.length m)%nat
    /\ buildLoop m r (mkCacheElem [] []) = Done obj.

(** A slot was stored for a request that factorises: its key is in normalised
    form, the grouping of the persisted names has at least two groups and the
    builder loop succeeds on it, and its payload, unless sterilised, is a list
    built for these names and the range of the slot. *)
Definition slotInv (E : Env) (P : RooProduct) (s : CacheSlot) : Prop :=
  slotNset s = slotIset s
  /\ normalized (slotIset s) = slotIset s
  /\ (exists m cache,
        groupProductTerms (dependsOn E) P (slotIset s) = Done m
        /\ (2 <= List.length m)%nat
        /\ buildLoop m (slotRange s) (mkCacheElem [] []) = Done cache)
  /\ (forall obj, slotObj s = Some obj ->
        builtFor E P (slotIset s) (slotRange s) obj).

Definition cacheInv (E : Env) (P : RooProduct) (mgr : RooCacheManager) : Prop :=
  Forall (slotInv E P) mgr /\ keysDistinct mgr.

(** [mgr'] has the slots of [mgr], each with its key and with a payload that
    is either kept or replaced by [o]. *)
Definition sameKeys (o : option CacheElem) (mgr mgr' : RooCacheManager) : Prop :=
  forall j s', nth_error mgr' j = Some s' ->
    exists s, nth_error mgr j = Some s /\ slotKey s' = slotKey s
      /\ (slotObj s' = slotObj s \/ slotObj s' = o).

(** The four ways in which [getPartIntList] returns. *)
Inductive getPartIntList_case (E : Env) (P : RooProduct) (mgr : RooCacheManager)
  (iset : RooArgSet) (isetRange : option string)
  : Int_t -> RooCacheManager -> Prop :=
| case_hit i s obj :
    findSlot mgr iset iset (RooNameReg_ptr isetRange) 0 = Some (i, s) ->
    slotObj s = Some obj ->
    getPartIntList_case E P mgr iset isetRange (Z.of_nat i) mgr
| case_degenerate m :
    lookupObj (getObj mgr iset iset (RooNameReg_ptr isetRange)) = None ->
    groupProductTerms (dependsOn E) P iset = Done m ->
    (List.length m < 2)%nat ->
    getPartIntList_case E P mgr iset isetRange (-1) mgr
| case_revive i s m cache :
    findSlot mgr iset iset (RooNameReg_ptr isetRange) 0 = Some (i, s) ->
    slotObj s = None ->
    groupProductTerms (dependsOn E) P iset = Done m ->
    (2 <= List.length m)%nat ->
    buildLoop m isetRange (mkCacheElem [] []) = Done cache ->
    getPartIntList_case E P mgr iset isetRange (Z.of_nat i)
      (setSlotObj i (Some cache) mgr)
| case_append m cache :
    findSlot mgr iset iset (RooNameReg_ptr isetRange) 0 = None ->
    groupProductTerms (dependsOn E) P iset = Done m ->
    (2 <= List.length m)%nat ->
    buildLoop m isetRange (mkCacheElem [] []) = Done cache ->
    getPartIntList_case E P mgr iset isetRange (Z.of_nat (List.length mgr))
      (mgr ++ [mkSlot (normalized iset) (normalized iset)
                 (RooNameReg_ptr isetRange) (Some cache)]).

(** The names persisted in a slot are all parameters of the product, so that
    [select] derives the whole set from them. *)
Definition namesAreParameters (E : Env) (s : CacheSlot) : Prop :=
  forall n, In n (slotIset s) -> In n (getParameters E).

(** ** Examples *)

(** Terms [f(x)], [g(y)] and [h(x,y)]. *)
Definition depXY (t v : string) : bool :=
  (String.eqb t "f" && String.eqb v "x")
  || (String.eqb t "g" && String.eqb v "y")
  || (String.eqb t "h" && (String.eqb v "x" || String.eqb v "y")).

Definition envXY (realVal : string -> option RooArgSet -> Double_t)
  (index : string -> Int_t)
  (integ : RooAbsReal -> RooArgSet -> option string -> Double_t) : Env :=
  mkEnv depXY realVal index integ ["x"; "y"].

Definition envOne : Env :=
  envXY (fun _ _ => 2.5%float) (fun _ => 3) (fun _ _ _ => 4%float).




(** Terms [f(y)], [g(x,y)] and [k(z)]. *)
Definition depChain (t v : string) : bool :=
  match t, v with
  | "f", "y" => true
  | "g", "x" => true
  | "g", "y" => true
  | "k", "z" => true
  | _, _ => false
  end.

Ltac nodup_strings :=
  unfold wfSet;
  repeat (constructor; [simpl; intuition discriminate |]); constructor.

(** ** Further vocabulary *)

Definition isReal (classOf : string -> ArgKind) (a : string) : bool :=
  match classOf a with KReal => true | _ => false end.

Definition isCategory (classOf : string -> ArgKind) (a : string) : bool :=
  match classOf a with KCategory => true | _ => false end.

(** The terms of a group are the real terms that depend on one of its
    variables; the group without variables holds the real terms that depend on
    no integration variable. *)
Definition termsOfGroup (dep : string -> string -> bool) (comps allVars : RooArgSet)
  (g : Group) : Prop :=
  forall t, In t (snd g) <->
    In t comps
    /\ ((fst g = [] /\ dependsOnSet dep t allVars = false)
        \/ exists v, In v (fst g) /\ dep t v = true).

Definition groupsInv (dep : string -> string -> bool) (comps allVars : RooArgSet)
  (m : ProdMap) : Prop :=
  Forall (fun g => incl (fst g) allVars /\ termsOfGroup dep comps allVars g) m.

(** The object that stands for the terms of a group, the factor the group
    contributes to the list, and what the cache entry owns for it. *)
Definition termOf (terms : RooArgSet) : RooAbsReal :=
  if 1 <? getSize terms
  then SubProduct (makeFPName "SUBPROD_" terms) terms
  else Term (hd EmptyString terms).

Definition factorOf (isetRange : option string) (g : Group) : RooAbsReal :=
  if getSize (fst g) =? 0 then termOf (snd g)
  else Integral (termOf (snd g)) (fst g) isetRange.

Definition ownedOf (isetRange : option string) (g : Group) : list RooAbsReal :=
  (if 1 <? getSize (snd g) then [termOf (snd g)] else [])
  ++ (if getSize (fst g) =? 0 then []
      else [Integral (termOf (snd g)) (fst g) isetRange]).

(** A token: not empty and free of the delimiters. *)
Definition tokenOK (delims : string) (t : string) : Prop :=
  t <> EmptyString
  /\ forall c, In c (list_ascii_of_string t) -> isDelim c delims = false.

(** The text the name loops build from the names of one kind. *)
Definition joinFold (acc : string) (names : list string) : string :=
  fold_left
    (fun acc n =>
       String.append
         (if (0 <? String.length acc)%nat then String.append acc "," else acc) n)
    names acc.

(** The text that passes one argument at instantiation. *)
Definition argText (classOf : string -> ArgKind) (ptrOf : string -> string)
  (a : string) : string :=
  String.append
    (if isCategory classOf a then ",*((RooAbsCategory*)" else ",*((RooAbsReal*)")
    (String.append (ptrOf a) ")").

(** An argument that gets a name in the generated class. *)
Definition usableArg (classOf : string -> ArgKind) (a : string) : Prop :=
  classOf a <> KOther -> tokenOK "," a.

(** An example of dynamic types: [c] is a category, [o] is neither. *)
Definition classByName (a : string) : ArgKind :=
  if String.eqb a "c" then KCategory
  else if String.eqb a "o" then KOther else KReal.

(** The text of an integral specification: [observable:expression] for each
    pair, then possibly an observable without expression, separated by
    semicolons. *)
Definition pairText (p : string * string) : string :=
  String.append (fst p) (String ":" (snd p)).

Definition specTexts (pairs : list (string * string)) (tail : option string)
  : list string :=
  List.map pairText pairs ++ match tail with Some o => [o] | None => [] end.

Definition pairOK (p : string * string) : Prop :=
  tokenOK ":" (fst p) /\ tokenOK ";" (snd p).

(** * Properties *)

(** ** RooArgSet operations *)

Lemma contains_In (s : RooArgSet) (n : string) :
  contains s n = true <-> In n s.
Proof.
  unfold contains. rewrite existsb_exists. split.
  - intros (x & Hx & Heq). apply String.eqb_eq in Heq. now subst.
  - intros H. exists n. split; [assumption | apply String.eqb_refl].
Qed.

Lemma contains_false (s : RooArgSet) (n : string) :
  contains s n = false <-> ~ In n s.
Proof.
  rewrite <- contains_In. destruct (contains s n); split; congruence.
Qed.

Lemma add_In (s : RooArgSet) (n x : string) :
  In x (add s n) <-> In x s \/ x = n.
Proof.
  unfold add. destruct (contains s n) eqn:Hc.
  - apply contains_In in Hc. split; [now left | intros [H | ->]; assumption].
  - rewrite in_app_iff. simpl. intuition congruence.
Qed.

Lemma add_fresh (s : RooArgSet) (n : string) :
  ~ In n s -> add s n = s ++ [n].
Proof.
  intros H. unfold add. apply contains_false in H. now rewrite H.
Qed.

Lemma add_NoDup (s : RooArgSet) (n : string) :
  NoDup s -> NoDup (add s n).
Proof.
  intros Hs. unfold add. destruct (contains s n) eqn:Hc; [assumption |].
  apply contains_false in Hc. apply NoDup_app; [assumption | | ].
  - constructor; [intros [] | constructor].
  - intros a Ha [<- | []]. contradiction.
Qed.

Lemma addAll_In (other s : RooArgSet) (x : string) :
  In x (addAll s other) <-> In x s \/ In x other.
Proof.
  unfold addAll. revert s. induction other as [| o other IH]; intros s; simpl.
  - tauto.
  - rewrite IH, add_In. intuition congruence.
Qed.

Lemma addAll_NoDup (other s : RooArgSet) :
  NoDup s -> NoDup (addAll s other).
Proof.
  unfold addAll. revert s. induction other as [| o other IH]; intros s Hs; simpl.
  - assumption.
  - apply IH. now apply add_NoDup.
Qed.

Lemma addAll_disjoint (other s : RooArgSet) :
  NoDup other -> (forall x, In x s -> ~ In x other) ->
  addAll s other = s ++ other.
Proof.
  unfold addAll. revert s. induction other as [| o other IH]; intros s Hnd Hdis; simpl.
  - now rewrite app_nil_r.
  - inversion Hnd as [| ? ? Hno Hnd']; subst.
    rewrite add_fresh by (intros Hin; apply (Hdis o Hin); now left).
    rewrite IH; [now rewrite <- app_assoc | assumption |].
    intros x Hx Hx'. apply in_app_iff in Hx. destruct Hx as [Hx | [<- | []]].
    + apply (Hdis x Hx). now right.
    + contradiction.
Qed.

Lemma addAll_nonempty_l (other s : RooArgSet) :
  s <> [] -> addAll s other <> [].
Proof.
  intros Hs Heq. destruct s as [| a s]; [congruence |].
  assert (In a (addAll (a :: s) other)) as Hin by (apply addAll_In; left; now left).
  rewrite Heq in Hin. destruct Hin.
Qed.

Lemma overlaps_true (s other : RooArgSet) :
  overlaps s other = true <-> exists x, In x s /\ In x other.
Proof.
  unfold overlaps. rewrite existsb_exists. split.
  - intros (x & Hx & Hc). apply contains_In in Hc. eauto.
  - intros (x & Hs & Ho). exists x. split; [assumption | now apply contains_In].
Qed.

Lemma overlaps_false (s other : RooArgSet) :
  overlaps s other = false <-> forall x, In x s -> ~ In x other.
Proof.
  split.
  - intros H x Hs Ho.
    assert (overlaps s other = true) by (apply overlaps_true; eauto). congruence.
  - intros H. destruct (overlaps s other) eqn:Ho; [| reflexivity].
    apply overlaps_true in Ho. destruct Ho as (x & Hs & Hx). now destruct (H x Hs).
Qed.

(** ** The loops that fill the map *)

Section GrouperFacts.

Variable dep : string -> string -> bool.

Lemma indepLoop_filter (comps allVars indep : RooArgSet) :
  NoDup (indep ++ comps) ->
  indepLoop dep comps allVars indep
  = indep ++ filter (fun t => negb (dependsOnSet dep t allVars)) comps.
Proof.
  revert indep. induction comps as [| c comps IH]; intros indep Hnd; simpl.
  - now rewrite app_nil_r.
  - assert (~ In c indep) as Hc.
    { intros Hin. apply NoDup_remove_2 in Hnd. apply Hnd.
      apply in_app_iff. now left. }
    destruct (negb (dependsOnSet dep c allVars)).
    + rewrite add_fresh by assumption. rewrite IH.
      * now rewrite <- app_assoc.
      * now rewrite <- app_assoc.
    + apply IH. now apply NoDup_remove_1 in Hnd.
Qed.

Lemma compsLoop_filter (comps : RooArgSet) (var : string) (acc : RooArgSet) :
  NoDup (acc ++ comps) ->
  compsLoop dep comps var acc = acc ++ filter (fun t => dep t var) comps.
Proof.
  revert acc. induction comps as [| c comps IH]; intros acc Hnd; simpl.
  - now rewrite app_nil_r.
  - assert (~ In c acc) as Hc.
    { intros Hin. apply NoDup_remove_2 in Hnd. apply Hnd.
      apply in_app_iff. now left. }
    destruct (dep c var).
    + rewrite add_fresh by assumption. rewrite IH.
      * now rewrite <- app_assoc.
      * now rewrite <- app_assoc.
    + apply IH. now apply NoDup_remove_1 in Hnd.
Qed.

Lemma varsLoop_map (comps allVars : RooArgSet) (map : ProdMap) :
  varsLoop dep comps allVars map
  = map ++ List.map (fun v => ([v], compsLoop dep comps v [])) allVars.
Proof.
  revert map. induction allVars as [| v vs IH]; intros map; simpl.
  - now rewrite app_nil_r.
  - rewrite IH, <- app_assoc. reflexivity.
Qed.

End GrouperFacts.

(** ** One round of the merge loop as a step relation *)

Lemma findInner_Some (ti : RooArgSet) (rest : ProdMap) (j k : nat) :
  findInner ti j rest = Some k ->
  exists l2 gj l3,
    rest = l2 ++ gj :: l3 /\ k = (j + List.length l2)%nat
    /\ overlaps ti (snd gj) = true.
Proof.
  revert j. induction rest as [| g rest IH]; intros j H; simpl in H.
  - discriminate.
  - destruct (overlaps ti (snd g)) eqn:Ho.
    + injection H as <-. exists [], g, rest. simpl. repeat split; [lia | assumption].
    + apply IH in H. destruct H as (l2 & gj & l3 & -> & -> & Hov).
      exists (g :: l2), gj, l3. simpl. repeat split; [lia | assumption].
Qed.

Lemma findInner_None (ti : RooArgSet) (rest : ProdMap) (j : nat) :
  findInner ti j rest = None ->
  Forall (fun g => overlaps ti (snd g) = false) rest.
Proof.
  revert j. induction rest as [| g rest IH]; intros j H; simpl in H.
  - constructor.
  - destruct (overlaps ti (snd g)) eqn:Ho; [discriminate |].
    constructor; [assumption | eauto].
Qed.

Lemma findOuter_Some (m : ProdMap) (i a b : nat) :
  findOuter i m = Some (a, b) ->
  exists l1 gi l2 gj l3,
    m = l1 ++ gi :: l2 ++ gj :: l3
    /\ a = (i + List.length l1)%nat /\ b = (a + 1 + List.length l2)%nat
    /\ overlaps (snd gi) (snd gj) = true.
Proof.
  revert i. induction m as [| g m IH]; intros i H; simpl in H.
  - discriminate.
  - destruct (findInner (snd g) (S i) m) as [k |] eqn:Hin.
    + injection H as <- <-.
      apply findInner_Some in Hin. destruct Hin as (l2 & gj & l3 & -> & -> & Hov).
      exists [], g, l2, gj, l3. simpl. repeat split; [lia | lia | assumption].
    + apply IH in H. destruct H as (l1 & gi & l2 & gj & l3 & -> & -> & -> & Hov).
      exists (g :: l1), gi, l2, gj, l3. simpl. repeat split; [lia | assumption].
Qed.

Lemma findOuter_None (m : ProdMap) (i : nat) :
  findOuter i m = None -> noOverlap m.
Proof.
  revert i. induction m as [| g m IH]; intros i H; simpl in H.
  - constructor.
  - destruct (findInner (snd g) (S i) m) eqn:Hin; [discriminate |].
    constructor.
    + eapply findInner_None; eassumption.
    + eapply IH; eassumption.
Qed.

Lemma setAt_app (l1 : ProdMap) (g g' : Group) (l2 : ProdMap) :
  setAt (List.length l1) g' (l1 ++ g :: l2) = l1 ++ g' :: l2.
Proof.
  induction l1 as [| h l1 IH]; simpl; [reflexivity | now rewrite IH].
Qed.

Lemma erase_app (l1 : ProdMap) (g : Group) (l2 : ProdMap) (n : nat) :
  n = List.length l1 -> erase n (l1 ++ g :: l2) = l1 ++ l2.
Proof.
  intros ->. unfold erase. induction l1 as [| h l1 IH]; simpl.
  - reflexivity.
  - simpl in IH. now rewrite IH.
Qed.

Lemma nth_error_middle (l1 : ProdMap) (g : Group) (l2 : ProdMap) (n : nat) :
  n = List.length l1 -> nth_error (l1 ++ g :: l2) n = Some g.
Proof.
  intros ->. rewrite nth_error_app2 by lia. now rewrite Nat.sub_diag.
Qed.

Lemma mergeAt_decomp (l1 : ProdMap) (gi : Group) (l2 : ProdMap) (gj : Group)
  (l3 : ProdMap) :
  mergeAt (List.length l1) (List.length l1 + 1 + List.length l2)
    (l1 ++ gi :: l2 ++ gj :: l3)
  = l1 ++ merged gi gj :: l2 ++ l3.
Proof.
  unfold mergeAt.
  rewrite nth_error_middle by reflexivity.
  assert (nth_error (l1 ++ gi :: l2 ++ gj :: l3)
            (List.length l1 + 1 + List.length l2) = Some gj) as ->.
  { change (l1 ++ gi :: l2 ++ gj :: l3) with (l1 ++ (gi :: l2) ++ gj :: l3).
    rewrite app_assoc. apply nth_error_middle.
    rewrite length_app. simpl. lia. }
  rewrite setAt_app. fold (merged gi gj).
  change (l1 ++ merged gi gj :: l2 ++ gj :: l3)
    with (l1 ++ (merged gi gj :: l2) ++ gj :: l3).
  rewrite app_assoc. rewrite erase_app; [now rewrite <- app_assoc |].
  rewrite length_app. simpl. lia.
Qed.

(** A round either leaves the loop with no overlapping pair left, or takes
    one merge step. *)
Lemma findOverlap2nd_cases (m : ProdMap) :
  (fst (findOverlap2nd m) = snd (findOverlap2nd m) /\ noOverlap m)
  \/ (fst (findOverlap2nd m) <> snd (findOverlap2nd m)
      /\ mergeStep m (mergeAt (fst (findOverlap2nd m)) (snd (findOverlap2nd m)) m)).
Proof.
  unfold findOverlap2nd. destruct (findOuter 0 m) as [[a b] |] eqn:Hf.
  - right. apply findOuter_Some in Hf.
    destruct Hf as (l1 & gi & l2 & gj & l3 & -> & -> & -> & Hov). simpl.
    split; [lia |]. rewrite mergeAt_decomp. now constructor.
  - left. simpl. split; [reflexivity | eapply findOuter_None; eassumption].
Qed.

Lemma mergeStep_length (m m' : ProdMap) :
  mergeStep m m' -> List.length m = S (List.length m').
Proof.
  intros H. destruct H. repeat (rewrite length_app; simpl). lia.
Qed.

Lemma mergeLoop_steps (fuel : nat) (m : ProdMap) :
  mergeSteps m (mergeLoop fuel m).
Proof.
  revert m. induction fuel as [| fuel IH]; intros m; simpl.
  - constructor.
  - destruct (findOverlap2nd_cases m) as [[Heq _] | [Hne Hstep]].
    + apply Nat.eqb_eq in Heq. rewrite Heq. simpl. constructor.
    + apply Nat.eqb_neq in Hne. rewrite Hne. simpl.
      econstructor; [eassumption | apply IH].
Qed.

(** The loop is left only when no two groups overlap, and [length m] rounds
    always reach that point. *)
Lemma mergeLoop_exits (fuel : nat) (m : ProdMap) :
  (List.length m <= fuel)%nat -> noOverlap (mergeLoop fuel m).
Proof.
  revert m. induction fuel as [| fuel IH]; intros m Hlen; simpl.
  - destruct m; [constructor | simpl in Hlen; lia].
  - destruct (findOverlap2nd_cases m) as [[Heq Hno] | [Hne Hstep]].
    + apply Nat.eqb_eq in Heq. rewrite Heq. simpl. assumption.
    + apply Nat.eqb_neq in Hne. rewrite Hne. simpl.
      apply IH. apply mergeStep_length in Hstep. lia.
Qed.

Lemma mergeSteps_invariant (Inv : ProdMap -> Prop) :
  (forall m m', mergeStep m m' -> Inv m -> Inv m') ->
  forall m m', mergeSteps m m' -> Inv m -> Inv m'.
Proof.
  intros Hstep m m' H. induction H as [| m m1 m2 H1 _ IH]; [tauto |].
  intros Hm. apply IH. eapply Hstep; eassumption.
Qed.

(** ** What the merge steps preserve *)

Lemma allVarsOf_app (a b : ProdMap) : allVarsOf (a ++ b) = allVarsOf a ++ allVarsOf b.
Proof. unfold allVarsOf. now rewrite map_app, concat_app. Qed.

Lemma allTermsOf_app (a b : ProdMap) : allTermsOf (a ++ b) = allTermsOf a ++ allTermsOf b.
Proof. unfold allTermsOf. now rewrite map_app, concat_app. Qed.

Lemma allVarsOf_cons (g : Group) (m : ProdMap) : allVarsOf (g :: m) = fst g ++ allVarsOf m.
Proof. reflexivity. Qed.

Lemma allTermsOf_cons (g : Group) (m : ProdMap) : allTermsOf (g :: m) = snd g ++ allTermsOf m.
Proof. reflexivity. Qed.

Lemma countLoop_lengths (m : ProdMap) (nVar nFunc : Z) :
  countLoop m nVar nFunc
  = (nVar + Z.of_nat (List.length (allVarsOf m)),
     nFunc + Z.of_nat (List.length (allTermsOf m))).
Proof.
  revert nVar nFunc. induction m as [| g m IH]; intros nVar nFunc; simpl.
  - f_equal; lia.
  - rewrite IH, allVarsOf_cons, allTermsOf_cons, !length_app.
    unfold getSize. f_equal; lia.
Qed.

Lemma NoDup_app_inv {A : Type} (l1 l2 : list A) :
  NoDup (l1 ++ l2) ->
  NoDup l1 /\ NoDup l2 /\ (forall x, In x l1 -> ~ In x l2).
Proof.
  induction l1 as [| a l1 IH]; simpl; intros H.
  - repeat split; [constructor | assumption | tauto].
  - inversion H as [| ? ? Hna Hnd]; subst. destruct (IH Hnd) as (H1 & H2 & H3).
    repeat split.
    + constructor; [| assumption]. intros Hin. apply Hna, in_app_iff. now left.
    + assumption.
    + intros x [<- | Hx] Hx2; [apply Hna, in_app_iff; now right | now apply (H3 x)].
Qed.

Lemma mergeStep_vars (m m' : ProdMap) :
  mergeStep m m' -> NoDup (allVarsOf m) ->
  Permutation (allVarsOf m) (allVarsOf m').
Proof.
  intros H Hnd. destruct H as [l1 gi l2 gj l3 _].
  rewrite !allVarsOf_app, !allVarsOf_cons, !allVarsOf_app, !allVarsOf_cons in *.
  assert (addAll (fst gi) (fst gj) = fst gi ++ fst gj) as Hadd.
  { apply NoDup_app_inv in Hnd. destruct Hnd as (_ & Hnd & _).
    apply NoDup_app_inv in Hnd. destruct Hnd as (_ & Hnd & Hdis).
    apply addAll_disjoint.
    - apply NoDup_app_inv in Hnd. destruct Hnd as (_ & Hnd & _).
      apply NoDup_app_inv in Hnd. tauto.
    - intros x Hx Hx'. apply (Hdis x Hx). rewrite !in_app_iff. tauto. }
  simpl. rewrite Hadd. apply Permutation_app_head.
  rewrite <- app_assoc. apply Permutation_app_head.
  rewrite !app_assoc. apply Permutation_app_tail. apply Permutation_app_comm.
Qed.

Lemma mergeStep_varsInv (allVars : RooArgSet) (m m' : ProdMap) :
  NoDup allVars -> mergeStep m m' -> varsInv allVars m -> varsInv allVars m'.
Proof.
  unfold varsInv. intros Hnd Hstep Hinv.
  apply Permutation_trans with (allVarsOf m); [| assumption].
  apply Permutation_sym, mergeStep_vars; [assumption |].
  eapply Permutation_NoDup; [apply Permutation_sym; eassumption | assumption].
Qed.

Lemma mergeStep_termsInv (comps : RooArgSet) (m m' : ProdMap) :
  mergeStep m m' -> termsInv comps m -> termsInv comps m'.
Proof.
  intros H [Hnd Hmem]. destruct H as [l1 gi l2 gj l3 _]. split.
  - rewrite !Forall_app in *. destruct Hnd as (H1 & Hnd).
    inversion Hnd as [| ? ? Hgi Hnd']; subst.
    rewrite Forall_app in Hnd'. destruct Hnd' as (H2 & Hnd').
    inversion Hnd' as [| ? ? Hgj H3]; subst.
    split; [assumption |]. constructor; [now apply addAll_NoDup |].
    apply Forall_app. now split.
  - intros t. rewrite <- Hmem.
    rewrite !allTermsOf_app, !allTermsOf_cons, !allTermsOf_app, !allTermsOf_cons.
    unfold merged. simpl. rewrite !in_app_iff, addAll_In. tauto.
Qed.

Lemma noOverlap_NoDup (m : ProdMap) :
  noOverlap m -> Forall (fun g => NoDup (snd g)) m -> NoDup (allTermsOf m).
Proof.
  intros Hno Hnd. unfold allTermsOf. apply NoDup_concat.
  - rewrite Forall_map. assumption.
  - clear Hnd. induction Hno as [| g m Hg _ IH]; simpl; [constructor |].
    constructor; [| assumption].
    rewrite Forall_map. eapply Forall_impl; [| exact Hg].
    intros b Hb. now apply overlaps_false.
Qed.

Lemma ForallOrdPairs_nth {A : Type} {R : A -> A -> Prop} {l : list A} :
  ForallOrdPairs R l ->
  forall i j a b, (i < j)%nat ->
    nth_error l i = Some a -> nth_error l j = Some b -> R a b.
Proof.
  induction 1 as [| x l Hx _ IH]; intros i j a b Hlt Hi Hj.
  - destruct i; discriminate.
  - destruct j as [| j]; [lia |]. simpl in Hj. destruct i as [| i]; simpl in Hi.
    + injection Hi as <-. rewrite Forall_forall in Hx.
      apply Hx. eapply nth_error_In; eassumption.
    + eapply IH; [| eassumption | eassumption]. lia.
Qed.

Lemma NoDup_concat_nth {A : Type} {L : list (list A)} :
  NoDup (List.concat L) ->
  forall i j a b x, nth_error L i = Some a -> nth_error L j = Some b ->
    In x a -> In x b -> i = j.
Proof.
  induction L as [| l L IH]; intros Hnd i j a b x Hi Hj Ha Hb.
  - destruct i; discriminate.
  - simpl in Hnd. apply NoDup_app_inv in Hnd. destruct Hnd as (_ & HL & Hdis).
    destruct i as [| i], j as [| j]; simpl in Hi, Hj.
    + reflexivity.
    + injection Hi as <-. exfalso. apply (Hdis x Ha).
      apply in_concat. exists b. split; [eapply nth_error_In; eassumption | assumption].
    + injection Hj as <-. exfalso. apply (Hdis x Hb).
      apply in_concat. exists a. split; [eapply nth_error_In; eassumption | assumption].
    + f_equal. eapply IH; eassumption.
Qed.

(** ** The map before merging *)

Section InitialMap.

Variable dep : string -> string -> bool.
Variable P : RooProduct.
Variable allVars : RooArgSet.

Lemma initialMap_eq :
  NoDup (_compRSet P) ->
  initialMap dep P allVars
  = match indepTerms dep P allVars with
    | [] => []
    | _ :: _ => [([], indepTerms dep P allVars)]
    end ++ List.map (varGroup dep P) allVars.
Proof.
  intros Hnd. unfold initialMap. rewrite varsLoop_map.
  rewrite indepLoop_filter by assumption. simpl. fold (indepTerms dep P allVars).
  f_equal.
  - unfold getSize. destruct (indepTerms dep P allVars); reflexivity.
  - apply map_ext. intros v. unfold varGroup.
    now rewrite compsLoop_filter by assumption.
Qed.

Lemma initialMap_vars : allVarsOf (initialMap dep P allVars) = allVars.
Proof.
  unfold initialMap. rewrite varsLoop_map, allVarsOf_app.
  assert (forall l, allVarsOf
            (List.map (fun v => ([v], compsLoop dep (_compRSet P) v [])) l) = l)
    as Hl.
  { induction l as [| v l IH]; [reflexivity |]. simpl.
    rewrite allVarsOf_cons. simpl. now rewrite IH. }
  rewrite Hl. destruct (negb _); reflexivity.
Qed.

Lemma initialMap_termsInv :
  NoDup (_compRSet P) -> termsInv (_compRSet P) (initialMap dep P allVars).
Proof.
  intros Hnd. rewrite initialMap_eq by assumption. split.
  - apply Forall_app. split.
    + destruct (indepTerms dep P allVars) eqn:Hi; constructor; [| constructor].
      simpl. rewrite <- Hi. now apply NoDup_filter.
    + rewrite Forall_map. apply Forall_forall. intros v _. simpl.
      now apply NoDup_filter.
  - intros t. rewrite allTermsOf_app, in_app_iff. split.
    + intros [H | H].
      * assert (In t (indepTerms dep P allVars)) as Hin.
        { destruct (indepTerms dep P allVars); [destruct H |].
          rewrite allTermsOf_cons, app_nil_r in H. exact H. }
        apply filter_In in Hin. tauto.
      * unfold allTermsOf in H. apply in_concat in H.
        destruct H as (l & Hl & Ht). rewrite map_map in Hl.
        apply in_map_iff in Hl. destruct Hl as (v & <- & _).
        simpl in Ht. apply filter_In in Ht. tauto.
    + intros Ht. destruct (dependsOnSet dep t allVars) eqn:Hd.
      * right. unfold dependsOnSet in Hd. apply existsb_exists in Hd.
        destruct Hd as (v & Hv & Hdv).
        unfold allTermsOf. apply in_concat.
        exists (snd (varGroup dep P v)). split.
        -- rewrite map_map. apply in_map_iff. now exists v.
        -- simpl. apply filter_In. now split.
      * left. assert (In t (indepTerms dep P allVars)) as Hin.
        { apply filter_In. split; [assumption | now rewrite Hd]. }
        destruct (indepTerms dep P allVars); [destruct Hin |].
        rewrite allTermsOf_cons, app_nil_r. exact Hin.
Qed.

End InitialMap.

(** ** The grouper's result *)

Section GrouperResult.

Variable dep : string -> string -> bool.
Variable P : RooProduct.
Variable allVars : RooArgSet.

Lemma mergedMap_steps :
  mergeSteps (initialMap dep P allVars) (mergedMap dep P allVars).
Proof. apply mergeLoop_steps. Qed.

Lemma mergedMap_noOverlap : noOverlap (mergedMap dep P allVars).
Proof. apply mergeLoop_exits. apply Nat.le_refl. Qed.

Lemma mergedMap_varsInv :
  NoDup allVars -> varsInv allVars (mergedMap dep P allVars).
Proof.
  intros Hnd.
  apply (mergeSteps_invariant (varsInv allVars)) with (initialMap dep P allVars).
  - intros m m'. now apply mergeStep_varsInv.
  - apply mergedMap_steps.
  - unfold varsInv. now rewrite initialMap_vars.
Qed.

Lemma mergedMap_termsInv :
  NoDup (_compRSet P) -> termsInv (_compRSet P) (mergedMap dep P allVars).
Proof.
  intros Hnd.
  apply (mergeSteps_invariant (termsInv (_compRSet P)))
    with (initialMap dep P allVars).
  - intros m m'. apply mergeStep_termsInv.
  - apply mergedMap_steps.
  - now apply initialMap_termsInv.
Qed.

Lemma mergedMap_terms_perm :
  NoDup (_compRSet P) ->
  Permutation (allTermsOf (mergedMap dep P allVars)) (_compRSet P).
Proof.
  intros Hnd. destruct (mergedMap_termsInv Hnd) as [Hg Hmem].
  apply NoDup_Permutation; [| assumption | assumption].
  apply noOverlap_NoDup; [apply mergedMap_noOverlap | assumption].
Qed.

(** Both assertions of lines 176-177 hold. *)
Lemma groupProductTerms_Done :
  NoDup (_compRSet P) -> NoDup allVars ->
  groupProductTerms dep P allVars = Done (mergedMap dep P allVars).
Proof.
  intros HR HV. unfold groupProductTerms.
  rewrite countLoop_lengths.
  rewrite (Permutation_length (mergedMap_varsInv HV)).
  rewrite (Permutation_length (mergedMap_terms_perm HR)).
  unfold getSize. simpl. rewrite !Z.eqb_refl. reflexivity.
Qed.

Lemma groupProductTerms_inv (m : ProdMap) :
  groupProductTerms dep P allVars = Done m -> m = mergedMap dep P allVars.
Proof.
  unfold groupProductTerms.
  destruct (countLoop (mergedMap dep P allVars) 0 0) as [nVar nFunc].
  destruct (nVar =? getSize allVars); [| discriminate]. simpl.
  destruct (nFunc =? getSize (_compRSet P)); [| discriminate]. simpl.
  congruence.
Qed.

End GrouperResult.

Lemma sumSizes_fst (m : ProdMap) :
  sumSizes fst m = Z.of_nat (List.length (allVarsOf m)).
Proof.
  unfold sumSizes. induction m as [| g m IH]; [reflexivity |].
  simpl. rewrite IH, allVarsOf_cons, length_app. unfold getSize. lia.
Qed.

Lemma sumSizes_snd (m : ProdMap) :
  sumSizes snd m = Z.of_nat (List.length (allTermsOf m)).
Proof.
  unfold sumSizes. induction m as [| g m IH]; [reflexivity |].
  simpl. rewrite IH, allTermsOf_cons, length_app. unfold getSize. lia.
Qed.

(** C1: for a product and a set of integration variables, the grouper returns
    a sequence of groups whose variable-set sizes sum to the number of
    integration variables and whose term-set sizes sum to the number of real
    terms of the product. *)
Theorem groupProductTerms_sizes (dep : string -> string -> bool)
  (P : RooProduct) (allVars : RooArgSet) :
  wfSet (_compRSet P) -> wfSet allVars ->
  exists m,
    groupProductTerms dep P allVars = Done m
    /\ sumSizes fst m = getSize allVars
    /\ sumSizes snd m = getSize (_compRSet P).
Proof.
  unfold wfSet. intros HR HV. exists (mergedMap dep P allVars).
  split; [now apply groupProductTerms_Done |].
  rewrite sumSizes_fst, sumSizes_snd. unfold getSize. split; f_equal.
  - apply Permutation_length. now apply mergedMap_varsInv.
  - apply Permutation_length. now apply mergedMap_terms_perm.
Qed.

Lemma groupProductTerms_sizes_witness :
  exists m,
    groupProductTerms depXY (mkRooProduct ["f"; "g"; "h"] [] None) ["x"; "y"] = Done m
    /\ sumSizes fst m = 2 /\ sumSizes snd m = 3.
Proof.
  apply (groupProductTerms_sizes depXY (mkRooProduct ["f"; "g"; "h"] [] None)
           ["x"; "y"]); nodup_strings.
Defined.

(** C2: after the merge loop, the term sets of two distinct groups do not
    overlap, the variable sets of two distinct groups are disjoint, and every
    integration variable is in the variable set of exactly one group. *)
Theorem mergeLoop_partition (dep : string -> string -> bool)
  (P : RooProduct) (allVars : RooArgSet) :
  wfSet allVars ->
  let m := mergedMap dep P allVars in
  (forall r, groupProductTerms dep P allVars = Done r -> r = m)
  /\ fst (findOverlap2nd m) = snd (findOverlap2nd m)
  /\ (forall i j gi gj, i <> j ->
        nth_error m i = Some gi -> nth_error m j = Some gj ->
        overlaps (snd gi) (snd gj) = false
        /\ (forall t, In t (snd gi) -> ~ In t (snd gj)))
  /\ (forall i j gi gj, i <> j ->
        nth_error m i = Some gi -> nth_error m j = Some gj ->
        forall v, In v (fst gi) -> ~ In v (fst gj))
  /\ (forall v, In v allVars ->
        exists i gi, nth_error m i = Some gi /\ In v (fst gi)
          /\ forall j gj, nth_error m j = Some gj -> In v (fst gj) -> j = i).
Proof.
  intros HV m. unfold wfSet in HV.
  assert (noOverlap m) as Hno by apply mergedMap_noOverlap.
  assert (Permutation (allVarsOf m) allVars) as Hperm by now apply mergedMap_varsInv.
  assert (NoDup (allVarsOf m)) as Hnd
    by (eapply Permutation_NoDup; [apply Permutation_sym |]; eassumption).
  assert (forall i j gi gj v, nth_error m i = Some gi -> nth_error m j = Some gj ->
            In v (fst gi) -> In v (fst gj) -> i = j) as Huniq.
  { intros i j gi gj v Hi Hj Hvi Hvj.
    apply (NoDup_concat_nth Hnd i j (fst gi) (fst gj) v);
      try assumption; now apply map_nth_error. }
  split; [apply groupProductTerms_inv |]. split; [| split; [| split]].
  - destruct (findOverlap2nd_cases m) as [[Heq _] | [Hne Hstep]]; [assumption |].
    exfalso. destruct Hstep as [l1 gi l2 gj l3 Hov].
    assert (overlaps (snd gi) (snd gj) = false); [| congruence].
    apply (ForallOrdPairs_nth Hno (List.length l1)
             (List.length l1 + 1 + List.length l2)); [lia | |].
    + now apply nth_error_middle.
    + change (l1 ++ gi :: l2 ++ gj :: l3) with (l1 ++ (gi :: l2) ++ gj :: l3).
      rewrite app_assoc. apply nth_error_middle. rewrite length_app. simpl. lia.
  - intros i j gi gj Hij Hi Hj.
    assert (forall t, In t (snd gi) -> ~ In t (snd gj)) as Hdis.
    { destruct (Nat.lt_total i j) as [Hlt | [Heq | Hgt]]; [| contradiction |].
      - apply overlaps_false. exact (ForallOrdPairs_nth Hno i j gi gj Hlt Hi Hj).
      - intros t Hti Htj.
        pose proof (ForallOrdPairs_nth Hno j i gj gi Hgt Hj Hi) as Hov.
        rewrite overlaps_false in Hov. exact (Hov t Htj Hti). }
    split; [now apply overlaps_false | assumption].
  - intros i j gi gj Hij Hi Hj v Hvi Hvj. apply Hij. eauto.
  - intros v Hv.
    assert (In v (allVarsOf m)) as Hin
      by (eapply Permutation_in; [apply Permutation_sym |]; eassumption).
    unfold allVarsOf in Hin. apply in_concat in Hin.
    destruct Hin as (l & Hl & Hvl). apply in_map_iff in Hl.
    destruct Hl as (g & <- & Hg). apply In_nth_error in Hg. destruct Hg as (i & Hi).
    exists i, g. split; [assumption |]. split; [assumption |].
    intros j gj Hj Hvj. eauto.
Qed.

Lemma mergeLoop_partition_witness :
  let m := mergedMap depXY (mkRooProduct ["f"; "g"; "h"] [] None) ["x"; "y"] in
  (forall r, groupProductTerms depXY (mkRooProduct ["f"; "g"; "h"] [] None)
               ["x"; "y"] = Done r -> r = m)
  /\ fst (findOverlap2nd m) = snd (findOverlap2nd m)
  /\ (forall i j gi gj, i <> j ->
        nth_error m i = Some gi -> nth_error m j = Some gj ->
        overlaps (snd gi) (snd gj) = false
        /\ (forall t, In t (snd gi) -> ~ In t (snd gj)))
  /\ (forall i j gi gj, i <> j ->
        nth_error m i = Some gi -> nth_error m j = Some gj ->
        forall v, In v (fst gi) -> ~ In v (fst gj))
  /\ (forall v, In v ["x"; "y"] ->
        exists i gi, nth_error m i = Some gi /\ In v (fst gi)
          /\ forall j gj, nth_error m j = Some gj -> In v (fst gj) -> j = i).
Proof.
  apply (mergeLoop_partition depXY (mkRooProduct ["f"; "g"; "h"] [] None)
           ["x"; "y"]); nodup_strings.
Defined.

(** ** The group of independent terms, and groups without terms *)

Lemma mergeStep_headInv (indep : RooArgSet) (m m' : ProdMap) :
  mergeStep m m' -> headInv indep m -> headInv indep m'.
Proof.
  intros H (rest & Hm & Hrest). destruct H as [l1 gi l2 gj l3 Hov].
  destruct l1 as [| h l1]; simpl in Hm.
  - injection Hm as -> <-. exfalso.
    rewrite Forall_app in Hrest. destruct Hrest as (_ & Hrest).
    inversion Hrest as [| ? ? [_ Hgj] _]; subst. simpl in Hov.
    exact (eq_true_false_abs _ Hov Hgj).
  - injection Hm as -> <-. exists (l1 ++ merged gi gj :: l2 ++ l3). split; [reflexivity |].
    rewrite !Forall_app in Hrest. destruct Hrest as (H1 & Hrest).
    inversion Hrest as [| ? ? [Hfi Hgi] Hrest']; subst.
    rewrite Forall_app in Hrest'. destruct Hrest' as (H2 & Hrest').
    inversion Hrest' as [| ? ? [Hfj Hgj] H3]; subst.
    apply Forall_app. split; [assumption |]. constructor.
    + split; [now apply addAll_nonempty_l |]. unfold merged. simpl.
      rewrite overlaps_false in *. intros x Hx Hin.
      apply addAll_In in Hin. destruct Hin; [now apply (Hgi x) | now apply (Hgj x)].
    + apply Forall_app. now split.
Qed.

Lemma initialMap_headInv (dep : string -> string -> bool) (P : RooProduct)
  (allVars : RooArgSet) :
  NoDup (_compRSet P) -> indepTerms dep P allVars <> [] ->
  headInv (indepTerms dep P allVars) (initialMap dep P allVars).
Proof.
  intros Hnd Hne. rewrite initialMap_eq by assumption.
  destruct (indepTerms dep P allVars) as [| t0 ts] eqn:Hi; [congruence |].
  rewrite <- Hi. exists (List.map (varGroup dep P) allVars). split; [reflexivity |].
  rewrite Forall_map. apply Forall_forall. intros v Hv. simpl.
  split; [discriminate |]. apply overlaps_false. intros x Hx Hx'.
  apply filter_In in Hx. apply filter_In in Hx'.
  destruct Hx as [_ Hx]. destruct Hx' as [_ Hx'].
  assert (dependsOnSet dep x allVars = true) as Hd.
  { unfold dependsOnSet. apply existsb_exists. eauto. }
  rewrite Hd in Hx. discriminate.
Qed.

Lemma mergeStep_keeps_empty (g : Group) (m m' : ProdMap) :
  snd g = [] -> mergeStep m m' -> In g m -> In g m'.
Proof.
  intros Hg H Hin. destruct H as [l1 gi l2 gj l3 Hov].
  apply overlaps_true in Hov. destruct Hov as (x & Hxi & Hxj).
  rewrite !in_app_iff in *. simpl in *. rewrite !in_app_iff in *. simpl in *.
  destruct Hin as [H | [H | [H | [H | H]]]]; try tauto.
  - subst g. rewrite Hg in Hxi. destruct Hxi.
  - subst g. rewrite Hg in Hxj. destruct Hxj.
Qed.

Lemma mergeStep_nonempty_terms (m m' : ProdMap) :
  mergeStep m m' ->
  Forall hasTerms m -> Forall hasTerms m'.
Proof.
  intros H Hall. destruct H as [l1 gi l2 gj l3 _].
  rewrite !Forall_app in *. destruct Hall as (H1 & Hall).
  inversion Hall as [| ? ? Hgi Hall']; subst.
  rewrite Forall_app in Hall'. destruct Hall' as (H2 & Hall').
  inversion Hall' as [| ? ? Hgj H3]; subst.
  split; [assumption |]. constructor.
  - unfold hasTerms, merged. simpl. now apply addAll_nonempty_l.
  - apply Forall_app. now split.
Qed.

Lemma emptyGroup_in_mergedMap (dep : string -> string -> bool) (P : RooProduct)
  (allVars : RooArgSet) (v : string) :
  NoDup (_compRSet P) -> In v allVars ->
  (forall t, In t (_compRSet P) -> dep t v = false) ->
  In ([v], []) (mergedMap dep P allVars).
Proof.
  intros Hnd Hv Hnone.
  apply (mergeSteps_invariant (In ([v], []))) with (initialMap dep P allVars).
  - intros m m'. now apply mergeStep_keeps_empty.
  - apply mergedMap_steps.
  - rewrite initialMap_eq by assumption. apply in_app_iff. right.
    apply in_map_iff. exists v. split; [| assumption].
    unfold varGroup. f_equal.
    induction (_compRSet P) as [| t ts IH]; [reflexivity |].
    simpl. rewrite (Hnone t) by now left.
    apply IH; [now inversion Hnd | intros t' Ht'; apply Hnone; now right].
Qed.

Lemma nonempty_terms_mergedMap (dep : string -> string -> bool) (P : RooProduct)
  (allVars : RooArgSet) :
  NoDup (_compRSet P) ->
  (forall v, In v allVars -> exists t, In t (_compRSet P) /\ dep t v = true) ->
  Forall hasTerms (mergedMap dep P allVars).
Proof.
  intros Hnd Hall.
  apply (mergeSteps_invariant (Forall hasTerms))
    with (initialMap dep P allVars).
  - intros m m'. apply mergeStep_nonempty_terms.
  - apply mergedMap_steps.
  - rewrite initialMap_eq by assumption. apply Forall_app. split.
    + destruct (indepTerms dep P allVars) eqn:Hi; constructor; [| constructor].
      unfold hasTerms. simpl. discriminate.
    + rewrite Forall_map. apply Forall_forall. intros v Hv. unfold hasTerms. simpl.
      destruct (Hall v Hv) as (t & Ht & Hd). intros Hempty.
      assert (In t (filter (fun t => dep t v) (_compRSet P))) as Hin
        by (apply filter_In; now split).
      rewrite Hempty in Hin. destruct Hin.
Qed.

(** ** The builder loop *)

Lemma buildLoop_Done_nonempty (m : ProdMap) (r : option string) (c c' : CacheElem) :
  buildLoop m r c = Done c' -> Forall hasTerms m.
Proof.
  revert c. induction m as [| [vars terms] m IH]; intros c H; [constructor |].
  cbn [buildLoop snd fst] in H. constructor.
  - unfold hasTerms. cbn [snd]. intros ->. discriminate.
  - destruct (buildTerm terms c) as [[term c1] | |]; cbn [bind] in H;
      try discriminate.
    eapply IH. eassumption.
Qed.

Lemma buildTerm_nonempty (terms : RooArgSet) (c : CacheElem) :
  terms <> [] -> exists tc, buildTerm terms c = Done tc.
Proof.
  intros Hne. unfold buildTerm. destruct terms as [| a [| b terms]]; [congruence | |].
  - simpl. eauto.
  - replace (1 <? getSize (a :: b :: terms)) with true; [eauto |].
    symmetry. apply Z.ltb_lt. unfold getSize. simpl List.length. lia.
Qed.

Lemma buildLoop_nonempty_Done (m : ProdMap) (r : option string) (c : CacheElem) :
  Forall hasTerms m -> exists c', buildLoop m r c = Done c'.
Proof.
  intros Hall. revert c. induction Hall as [| [vars terms] m Hg _ IH]; intros c.
  - simpl. eauto.
  - cbn [buildLoop snd fst]. unfold hasTerms in Hg. cbn [snd] in Hg.
    destruct (buildTerm_nonempty terms c Hg) as ([term c1] & ->).
    cbn [bind]. apply IH.
Qed.

Lemma buildLoop_Done_dependent (dep : string -> string -> bool) (P : RooProduct)
  (allVars : RooArgSet) (r : option string) (c0 c : CacheElem) (v : string) :
  NoDup (_compRSet P) ->
  buildLoop (mergedMap dep P allVars) r c0 = Done c ->
  In v allVars -> exists t, In t (_compRSet P) /\ dep t v = true.
Proof.
  intros HR Hc Hv. apply buildLoop_Done_nonempty in Hc.
  destruct (existsb (fun t => dep t v) (_compRSet P)) eqn:Hex.
  - apply existsb_exists in Hex. exact Hex.
  - exfalso.
    assert (In ([v], []) (mergedMap dep P allVars)) as Hin.
    { apply emptyGroup_in_mergedMap; try assumption.
      intros t Ht. destruct (dep t v) eqn:Hd; [| reflexivity].
      assert (existsb (fun t => dep t v) (_compRSet P) = true)
        by (apply existsb_exists; eauto).
      congruence. }
    rewrite Forall_forall in Hc. now apply (Hc _ Hin).
Qed.

Lemma buildLoop_no_timeout (m : ProdMap) (r : option string) (c : CacheElem) :
  buildLoop m r c <> OutOfFuel.
Proof.
  revert c. induction m as [| [vars terms] m IH]; intros c Hb; [discriminate |].
  cbn [buildLoop snd fst] in Hb.
  destruct (buildTerm terms c) as [[term c1] | |] eqn:Hbt; cbn [bind] in Hb.
  - eapply IH. eassumption.
  - discriminate.
  - unfold buildTerm in Hbt. destruct (1 <? getSize terms); [discriminate |].
    destruct (getSize terms =? 1); [| discriminate].
    destruct terms; discriminate.
Qed.

(** ** Evaluator *)

Lemma evaluateRLoop_product (E : Env) (comps : RooArgSet) (nset : option RooArgSet)
  (prod : Double_t) :
  evaluateRLoop E comps nset prod
  = productFrom prod (List.map (fun r => getVal E r nset) comps).
Proof.
  revert prod. induction comps as [| r comps IH]; intros prod; simpl;
    [reflexivity | apply IH].
Qed.

Lemma evaluateCLoop_product (E : Env) (comps : RooArgSet) (prod : Double_t) :
  evaluateCLoop E comps prod
  = productFrom prod (List.map (fun c => double_of_Int_t (getIndex E c)) comps).
Proof.
  revert prod. induction comps as [| c comps IH]; intros prod; simpl;
    [reflexivity | apply IH].
Qed.

Lemma calculate_product (E : Env) (l : list RooAbsReal) :
  calculate E l = productFrom 1%float (List.map (objVal E) l).
Proof.
  unfold calculate. generalize 1%float.
  induction l as [| a l IH]; intros val; simpl; [reflexivity | apply IH].
Qed.

(** C4: [evaluate] returns the product of the values of the real terms, each
    taken under the product's own normalisation set, multiplied by the
    category indices of the discrete terms (the multiplications are done from
    left to right, starting from 1); one real term of value 2.5 and one
    discrete term of index 3 give 7.5. *)
Theorem evaluate_product (E : Env) (P : RooProduct) (r c : string) :
  evaluate E P
  = productFrom
      (productFrom 1%float (List.map (fun r => getVal E r (_nset P)) (_compRSet P)))
      (List.map (fun c => double_of_Int_t (getIndex E c)) (_compCSet P))
  /\ (_compRSet P = [r] -> _compCSet P = [c] ->
      getVal E r (_nset P) = 2.5%float -> getIndex E c = 3 ->
      evaluate E P = 7.5%float).
Proof.
  split.
  - unfold evaluate. now rewrite evaluateRLoop_product, evaluateCLoop_product.
  - intros HR HC Hv Hi. unfold evaluate. rewrite HR, HC. simpl.
    rewrite Hv, Hi. reflexivity.
Qed.

Lemma evaluate_product_witness :
  evaluate (envXY (fun _ _ => 2.5%float) (fun _ => 3) (fun _ _ _ => 0%float))
    (mkRooProduct ["f"] ["c"] None) = 7.5%float.
Proof.
  apply (proj2 (evaluate_product
                  (envXY (fun _ _ => 2.5%float) (fun _ => 3) (fun _ _ _ => 0%float))
                  (mkRooProduct ["f"] ["c"] None) "f" "c")); reflexivity.
Defined.

(** C10: multiplication starts from 1: a product without terms evaluates to
    1, a product of discrete terms only evaluates to the product of their
    category indices, and [calculate] of an empty list is 1. *)
Theorem products_start_from_one (E : Env) (cats : RooArgSet)
  (nset : option RooArgSet) :
  evaluate E (mkRooProduct [] [] nset) = 1%float
  /\ evaluate E (mkRooProduct [] cats nset)
     = productFrom 1%float (List.map (fun c => double_of_Int_t (getIndex E c)) cats)
  /\ calculate E [] = 1%float.
Proof.
  split; [reflexivity |]. split; [| reflexivity].
  unfold evaluate. simpl. apply evaluateCLoop_product.
Qed.

(** ** Names of sub-products *)

Lemma append_assoc (a b c : string) :
  String.append (String.append a b) c = String.append a (String.append b c).
Proof. induction a as [| ch a IH]; simpl; [reflexivity | now rewrite IH]. Qed.

Lemma append_empty_r (a : string) : String.append a "" = a.
Proof. induction a as [| ch a IH]; simpl; [reflexivity | now rewrite IH]. Qed.

Lemma makeFPNameLoop_concat (terms : RooArgSet) (pname : string) :
  makeFPNameLoop terms false pname
  = String.append pname
      (String.concat "" (List.map (fun n => String.append "_X_" n) terms)).
Proof.
  revert pname. induction terms as [| t terms IH]; intros pname; simpl.
  - now rewrite append_empty_r.
  - rewrite IH. destruct terms as [| t' terms].
    + simpl. now rewrite append_empty_r, !append_assoc.
    + cbn [List.map String.concat]. now rewrite !append_assoc.
Qed.

(** The name is the prefix followed by the member names in iteration order,
    separated by ["_X_"]. *)
Lemma makeFPName_concat (pfx : string) (terms : RooArgSet) :
  makeFPName pfx terms = String.append pfx (String.concat "_X_" terms).
Proof.
  unfold makeFPName. destruct terms as [| t terms]; simpl.
  - now rewrite append_empty_r.
  - rewrite makeFPNameLoop_concat, append_assoc. f_equal.
    revert t. induction terms as [| t' terms IH]; intros t.
    + simpl. now rewrite append_empty_r.
    + cbn [List.map String.concat]. cbn [List.map String.concat] in IH.
      rewrite <- IH. destruct terms as [| t'' terms]; simpl.
      * now rewrite !append_empty_r.
      * reflexivity.
Qed.

(** C7 (as the code has it): for a group with more than one term the builder
    creates an owned sub-product over exactly those terms whose name is
    ["SUBPROD_"] followed by the names of the terms in the iteration order of
    the group's term set, separated by ["_X_"]; the name is a function of that
    ordered term set, so builds of term sets with the same members in the same
    order give the same name. *)
Theorem buildTerm_subproduct_name (terms : RooArgSet) (cache : CacheElem) :
  1 < getSize terms ->
  let name := String.append "SUBPROD_" (String.concat "_X_" terms) in
  makeFPName "SUBPROD_" terms = name
  /\ buildTerm terms cache
     = Done (SubProduct name terms, addOwned cache (SubProduct name terms)).
Proof.
  intros Hsize name. split; [apply makeFPName_concat |].
  unfold buildTerm. apply Z.ltb_lt in Hsize. rewrite Hsize.
  now rewrite makeFPName_concat.
Qed.

Lemma buildTerm_subproduct_name_witness :
  makeFPName "SUBPROD_" ["g"; "f"] = "SUBPROD_g_X_f"
  /\ buildTerm ["g"; "f"] (mkCacheElem [] [])
     = Done (SubProduct "SUBPROD_g_X_f" ["g"; "f"],
             addOwned (mkCacheElem [] []) (SubProduct "SUBPROD_g_X_f" ["g"; "f"])).
Proof.
  apply (buildTerm_subproduct_name ["g"; "f"] (mkCacheElem [] [])). reflexivity.
Defined.

(** The names are not sorted: the same term set {f, g} is named after the
    order in which the merge put its members, and that order follows the
    order of the integration variables. *)
Lemma subproduct_name_order_counterexample :
  let P := mkRooProduct ["f"; "g"; "k"] [] None in
  groupProductTerms depChain P ["x"; "y"; "z"]
    = Done [(["x"; "y"], ["g"; "f"]); (["z"], ["k"])]
  /\ groupProductTerms depChain P ["y"; "x"; "z"]
    = Done [(["y"; "x"], ["f"; "g"]); (["z"], ["k"])]
  /\ Permutation ["g"; "f"] ["f"; "g"]
  /\ makeFPName "SUBPROD_" ["g"; "f"] = "SUBPROD_g_X_f"
  /\ makeFPName "SUBPROD_" ["f"; "g"] = "SUBPROD_f_X_g"
  /\ makeFPName "SUBPROD_" ["g"; "f"] <> makeFPName "SUBPROD_" ["f"; "g"]
  /\ ~ (forall terms terms', Permutation terms terms' ->
          makeFPName "SUBPROD_" terms = makeFPName "SUBPROD_" terms').
Proof.
  repeat split; try reflexivity.
  - apply perm_swap.
  - vm_compute. discriminate.
  - intros H. specialize (H ["g"; "f"] ["f"; "g"] (perm_swap _ _ _)).
    vm_compute in H. discriminate.
Qed.

(** C8: when some real terms depend on none of the integration variables, the
    grouper returns exactly one group with the empty variable set; it holds
    exactly those terms and comes first.  For [f(x)], [g(y)] and the
    variable [x] the groups are [({},{g})] and [({x},{f})], and the list stored
    for them multiplies the value of [g] by the integral of [f] over [x]. *)
Theorem groupProductTerms_independent (dep : string -> string -> bool)
  (P : RooProduct) (allVars : RooArgSet) :
  (wfSet (_compRSet P) -> wfSet allVars -> indepTerms dep P allVars <> [] ->
   exists rest,
     groupProductTerms dep P allVars = Done (([], indepTerms dep P allVars) :: rest)
     /\ Forall (fun g => fst g <> []) rest)
  /\ (forall realVal index integ rangeName,
        let E := envXY realVal index integ in
        let Pfg := mkRooProduct ["f"; "g"] [] None in
        let list := [Term "g"; Integral (Term "f") ["x"] rangeName] in
        groupProductTerms depXY Pfg ["x"] = Done [([], ["g"]); (["x"], ["f"])]
        /\ getPartIntList E Pfg [] ["x"] rangeName
           = Done (0, [mkSlot ["x"] ["x"] rangeName
                         (Some (mkCacheElem list
                                  [Integral (Term "f") ["x"] rangeName]))])
        /\ calculate E list
           = (1 * realVal "g" None * integ (Term "f") ["x"] rangeName)%float).
Proof.
  split.
  - unfold wfSet. intros HR HV Hne.
    assert (headInv (indepTerms dep P allVars) (mergedMap dep P allVars)) as Hh.
    { apply (mergeSteps_invariant (headInv (indepTerms dep P allVars)))
        with (initialMap dep P allVars).
      - intros m m'. apply mergeStep_headInv.
      - apply mergedMap_steps.
      - now apply initialMap_headInv. }
    destruct Hh as (rest & Hm & Hrest). exists rest. split.
    + rewrite <- Hm. now apply groupProductTerms_Done.
    + eapply Forall_impl; [| exact Hrest]. simpl. tauto.
  - intros realVal index integ rangeName E Pfg list.
    repeat split; reflexivity.
Qed.

Lemma groupProductTerms_independent_witness :
  exists rest,
    groupProductTerms depXY (mkRooProduct ["f"; "g"] [] None) ["x"]
    = Done (([], indepTerms depXY (mkRooProduct ["f"; "g"] [] None) ["x"]) :: rest)
    /\ Forall (fun g => fst g <> []) rest.
Proof.
  apply (proj1 (groupProductTerms_independent depXY
                  (mkRooProduct ["f"; "g"] [] None) ["x"]));
    [nodup_strings | nodup_strings | discriminate].
Defined.

(** C9: an integration variable that no real term depends on gets a group of
    its own with an empty term set; the builder loop needs a term in every
    group, so on the grouper's result it runs without a failed assertion
    exactly when every integration variable is depended on by some real term,
    and [getPartIntList] aborts when it reaches the loop otherwise. *)
Theorem buildLoop_needs_dependent_terms (E : Env) (P : RooProduct)
  (mgr : RooCacheManager) (iset : RooArgSet) (isetRange : option string) :
  wfSet (_compRSet P) -> wfSet iset ->
  exists m,
    groupProductTerms (dependsOn E) P iset = Done m
    /\ (forall v, In v iset ->
          (forall t, In t (_compRSet P) -> dependsOn E t v = false) ->
          In ([v], []) m)
    /\ ((exists cache, buildLoop m isetRange (mkCacheElem [] []) = Done cache)
        <-> (forall v, In v iset ->
               exists t, In t (_compRSet P) /\ dependsOn E t v = true))
    /\ (lookupObj (getObj mgr iset iset (RooNameReg_ptr isetRange)) = None ->
        (2 <= List.length m)%nat ->
        (exists v, In v iset
           /\ forall t, In t (_compRSet P) -> dependsOn E t v = false) ->
        getPartIntList E P mgr iset isetRange = Aborted).
Proof.
  unfold wfSet. intros HR HV. exists (mergedMap (dependsOn E) P iset).
  assert (forall c, buildLoop (mergedMap (dependsOn E) P iset) isetRange
                      (mkCacheElem [] []) = Done c ->
            forall v, In v iset ->
              exists t, In t (_compRSet P) /\ dependsOn E t v = true) as Hnec.
  { intros c Hc v Hv. eapply buildLoop_Done_dependent; eassumption. }
  split; [now apply groupProductTerms_Done |].
  split; [intros v Hv Hnone; now apply emptyGroup_in_mergedMap |].
  split; [split |].
  - intros (c & Hc). now apply (Hnec c).
  - intros Hall. apply buildLoop_nonempty_Done.
    now apply nonempty_terms_mergedMap.
  - intros Hmiss Hlen (v & Hv & Hnone). unfold getPartIntList. rewrite Hmiss.
    rewrite groupProductTerms_Done by assumption. cbn [bind].
    destruct (List.length (mergedMap (dependsOn E) P iset) <? 2)%nat eqn:Hlt.
    { apply Nat.ltb_lt in Hlt. lia. }
    destruct (buildLoop (mergedMap (dependsOn E) P iset) isetRange
                (mkCacheElem [] [])) as [c | |] eqn:Hb; try reflexivity.
    + exfalso. destruct (Hnec c eq_refl v Hv) as (t & Ht & Hd).
      rewrite (Hnone t Ht) in Hd. discriminate.
    + exfalso. eapply buildLoop_no_timeout; eassumption.
Qed.

Lemma buildLoop_needs_dependent_terms_witness :
  exists m,
    groupProductTerms depXY (mkRooProduct ["f"; "g"] [] None) ["x"; "z"] = Done m
    /\ In (["z"], []) m
    /\ getPartIntList (envXY (fun _ _ => 1%float) (fun _ => 1) (fun _ _ _ => 1%float))
         (mkRooProduct ["f"; "g"] [] None) [] ["x"; "z"] None = Aborted.
Proof.
  destruct (buildLoop_needs_dependent_terms
              (envXY (fun _ _ => 1%float) (fun _ => 1) (fun _ _ _ => 1%float))
              (mkRooProduct ["f"; "g"] [] None) [] ["x"; "z"] None)
    as (m & Hm & Hempty & _ & Habort); [nodup_strings | nodup_strings |].
  exists m. split; [exact Hm |]. split.
  - apply Hempty; [simpl; tauto |].
    intros t [<- | [<- | []]]; reflexivity.
  - apply Habort; [reflexivity | |].
    + apply groupProductTerms_inv in Hm. rewrite Hm. vm_compute. lia.
    + exists "z". split; [simpl; tauto |].
      intros t [<- | [<- | []]]; reflexivity.
Defined.

(** ** What the groups hold *)

Lemma dependsOnSet_true (dep : string -> string -> bool) (t : string)
  (vars : RooArgSet) :
  dependsOnSet dep t vars = true <-> exists v, In v vars /\ dep t v = true.
Proof. unfold dependsOnSet. apply existsb_exists. Qed.

Lemma mergeStep_groupsInv (dep : string -> string -> bool)
  (comps allVars : RooArgSet) (m m' : ProdMap) :
  mergeStep m m' -> groupsInv dep comps allVars m -> groupsInv dep comps allVars m'.
Proof.
  unfold groupsInv. intros H Hall. destruct H as [l1 [vi ti] l2 [vj tj] l3 Hov].
  rewrite !Forall_app in *. destruct Hall as (H1 & Hall).
  inversion Hall as [| ? ? [Hvi Hti] Hall']; subst.
  rewrite Forall_app in Hall'. destruct Hall' as (H2 & Hall').
  inversion Hall' as [| ? ? [Hvj Htj] H3]; subst.
  split; [assumption |]. constructor; [| apply Forall_app; now split].
  unfold termsOfGroup, merged in *. simpl in *.
  apply overlaps_true in Hov. destruct Hov as (x & Hxi & Hxj).
  apply Hti in Hxi. apply Htj in Hxj.
  destruct Hxi as [_ Hxi]. destruct Hxj as [_ Hxj].
  assert (forall w, In w vi \/ In w vj -> dep x w = true ->
            dependsOnSet dep x allVars = true) as Hdep.
  { intros w Hw Hd. apply dependsOnSet_true. exists w. split; [| assumption].
    destruct Hw; [now apply Hvi | now apply Hvj]. }
  split.
  - intros v Hv. apply addAll_In in Hv. destruct Hv; [now apply Hvi | now apply Hvj].
  - intros t. rewrite addAll_In, Hti, Htj.
    assert (forall v, In v (addAll vi vj) <-> In v vi \/ In v vj) as Hin
      by (intros v; apply addAll_In).
    destruct Hxi as [[-> Hxi] | (wi & Hwi & Hdi)];
      destruct Hxj as [[-> Hxj] | (wj & Hwj & Hdj)].
    + simpl. firstorder.
    + rewrite (Hdep wj (or_intror Hwj) Hdj) in Hxi. discriminate.
    + rewrite (Hdep wi (or_introl Hwi) Hdi) in Hxj. discriminate.
    + assert (vi <> []) as Hni by (intros ->; destruct Hwi).
      assert (vj <> []) as Hnj by (intros ->; destruct Hwj).
      pose proof (addAll_nonempty_l vj vi Hni) as Hne.
      split.
      * intros [[Hc [[He _] | (v & Hv & Hd)]] | [Hc [[He _] | (v & Hv & Hd)]]];
          try contradiction; (split; [assumption |]); right; exists v;
          (split; [apply Hin; tauto | assumption]).
      * intros [Hc [[He _] | (v & Hv & Hd)]]; [contradiction |].
        apply Hin in Hv. destruct Hv as [Hv | Hv]; [left | right];
          (split; [assumption |]); right; eauto.
Qed.

Lemma initialMap_groupsInv (dep : string -> string -> bool) (P : RooProduct)
  (allVars : RooArgSet) :
  NoDup (_compRSet P) ->
  groupsInv dep (_compRSet P) allVars (initialMap dep P allVars).
Proof.
  intros Hnd. rewrite initialMap_eq by assumption. unfold groupsInv.
  apply Forall_app. split.
  - destruct (indepTerms dep P allVars) as [| t0 ts] eqn:Hi; constructor;
      [| constructor].
    rewrite <- Hi. split; [intros v [] |].
    intros t. simpl. unfold indepTerms. rewrite filter_In, negb_true_iff.
    split.
    + intros [Ht Hd]. split; [assumption |]. left. now split.
    + intros [Ht [[_ Hd] | (v & [] & _)]]. now split.
  - rewrite Forall_map. apply Forall_forall. intros v Hv. split.
    + intros w [<- | []]. assumption.
    + intros t. simpl. rewrite filter_In. split.
      * intros [Ht Hd]. split; [assumption |]. right. exists v. split; [now left | assumption].
      * intros [Ht [[He _] | (w & [<- | []] & Hd)]]; [discriminate | now split].
Qed.

Lemma mergedMap_groupsInv (dep : string -> string -> bool) (P : RooProduct)
  (allVars : RooArgSet) :
  NoDup (_compRSet P) ->
  groupsInv dep (_compRSet P) allVars (mergedMap dep P allVars).
Proof.
  intros Hnd.
  apply (mergeSteps_invariant (groupsInv dep (_compRSet P) allVars))
    with (initialMap dep P allVars).
  - intros m m'. apply mergeStep_groupsInv.
  - apply mergedMap_steps.
  - now apply initialMap_groupsInv.
Qed.

(** ** Term sets, whatever the component set *)

Lemma indepLoop_sets (dep : string -> string -> bool)
  (comps allVars indep : RooArgSet) :
  NoDup indep ->
  NoDup (indepLoop dep comps allVars indep)
  /\ forall t, In t (indepLoop dep comps allVars indep) -> In t indep \/ In t comps.
Proof.
  revert indep. induction comps as [| c comps IH]; intros indep Hnd; simpl.
  - split; [assumption | tauto].
  - destruct (negb (dependsOnSet dep c allVars)).
    + destruct (IH (add indep c) (add_NoDup _ _ Hnd)) as [H1 H2].
      split; [assumption |]. intros t Ht. apply H2 in Ht.
      rewrite add_In in Ht. intuition auto.
    + destruct (IH indep Hnd) as [H1 H2].
      split; [assumption |]. intros t Ht. apply H2 in Ht. tauto.
Qed.

Lemma compsLoop_sets (dep : string -> string -> bool)
  (comps : RooArgSet) (var : string) (acc : RooArgSet) :
  NoDup acc ->
  NoDup (compsLoop dep comps var acc)
  /\ forall t, In t (compsLoop dep comps var acc) -> In t acc \/ In t comps.
Proof.
  revert acc. induction comps as [| c comps IH]; intros acc Hnd; simpl.
  - split; [assumption | tauto].
  - destruct (dep c var).
    + destruct (IH (add acc c) (add_NoDup _ _ Hnd)) as [H1 H2].
      split; [assumption |]. intros t Ht. apply H2 in Ht.
      rewrite add_In in Ht. intuition auto.
    + destruct (IH acc Hnd) as [H1 H2].
      split; [assumption |]. intros t Ht. apply H2 in Ht. tauto.
Qed.

Lemma initialMap_termSetsInv (dep : string -> string -> bool) (P : RooProduct)
  (allVars : RooArgSet) :
  termSetsInv (_compRSet P) (initialMap dep P allVars).
Proof.
  unfold termSetsInv, initialMap. rewrite varsLoop_map. apply Forall_app. split.
  - destruct (indepLoop_sets dep (_compRSet P) allVars [] (NoDup_nil _))
      as [Hnd Hin].
    destruct (getSize (indepLoop dep (_compRSet P) allVars []) =? 0) eqn:Hsz;
      simpl; constructor; [| constructor].
    simpl. split; [assumption |]. split.
    + intros t Ht. destruct (Hin t Ht) as [[] | H]. exact H.
    + intros _ He. rewrite He in Hsz. discriminate.
  - rewrite Forall_map. apply Forall_forall. intros v _. simpl.
    destruct (compsLoop_sets dep (_compRSet P) v [] (NoDup_nil _)) as [Hnd Hin].
    split; [assumption |]. split; [| discriminate].
    intros t Ht. destruct (Hin t Ht) as [[] | H]. exact H.
Qed.

Lemma mergeStep_termSetsInv (comps : RooArgSet) (m m' : ProdMap) :
  mergeStep m m' -> termSetsInv comps m -> termSetsInv comps m'.
Proof.
  unfold termSetsInv. intros H Hall. destruct H as [l1 gi l2 gj l3 _].
  rewrite !Forall_app in *. destruct Hall as (H1 & Hall).
  inversion Hall as [| ? ? (Hni & Hii & Hei) Hall']; subst.
  rewrite Forall_app in Hall'. destruct Hall' as (H2 & Hall').
  inversion Hall' as [| ? ? (Hnj & Hij & Hej) H3]; subst.
  split; [assumption |]. constructor; [| apply Forall_app; now split].
  unfold merged. simpl. split; [now apply addAll_NoDup |]. split.
  - intros t Ht. apply addAll_In in Ht. destruct Ht; auto.
  - intros He. apply addAll_nonempty_l. apply Hei.
    destruct (list_eq_dec string_dec (fst gi) []) as [Hfi | Hfi]; [assumption |].
    now destruct (addAll_nonempty_l (fst gj) (fst gi) Hfi).
Qed.

Lemma mergedMap_termSetsInv (dep : string -> string -> bool) (P : RooProduct)
  (allVars : RooArgSet) :
  termSetsInv (_compRSet P) (mergedMap dep P allVars).
Proof.
  apply (mergeSteps_invariant (termSetsInv (_compRSet P)))
    with (initialMap dep P allVars).
  - intros m m'. apply mergeStep_termSetsInv.
  - apply mergedMap_steps.
  - apply initialMap_termSetsInv.
Qed.

(** The second assertion of [groupProductTerms] only holds for a component
    set without duplicates. *)
Lemma groupProductTerms_NoDup_comps (dep : string -> string -> bool)
  (P : RooProduct) (allVars : RooArgSet) (m : ProdMap) :
  groupProductTerms dep P allVars = Done m -> NoDup (_compRSet P).
Proof.
  unfold groupProductTerms. rewrite countLoop_lengths.
  destruct (_ =? getSize allVars); [| discriminate]. cbn [c_assert bind].
  destruct (_ =? getSize (_compRSet P)) eqn:Hf; [| discriminate]. intros _.
  apply Z.eqb_eq in Hf. unfold getSize in Hf.
  pose proof (mergedMap_termSetsInv dep P allVars) as Hts.
  unfold termSetsInv in Hts.
  apply NoDup_incl_NoDup with (l := allTermsOf (mergedMap dep P allVars)).
  - apply noOverlap_NoDup; [apply mergedMap_noOverlap |].
    eapply Forall_impl; [| exact Hts]. simpl. tauto.
  - lia.
  - intros t Ht. unfold allTermsOf in Ht. apply in_concat in Ht.
    destruct Ht as (l & Hl & Ht). apply in_map_iff in Hl.
    destruct Hl as (g & <- & Hg). rewrite Forall_forall in Hts.
    destruct (Hts g Hg) as (_ & Hincl & _). now apply Hincl.
Qed.

(** ** The number of groups and the order of the request *)

Lemma mergeStep_covers (x : string) (m m' : ProdMap) :
  mergeStep m m' -> In x (allVarsOf m) -> In x (allVarsOf m').
Proof.
  intros H. destruct H as [l1 gi l2 gj l3 _].
  rewrite !allVarsOf_app, !allVarsOf_cons, !allVarsOf_app, !allVarsOf_cons.
  unfold merged. cbn [fst]. rewrite !in_app_iff, addAll_In. tauto.
Qed.

Lemma mergedMap_covers (dep : string -> string -> bool) (P : RooProduct)
  (allVars : RooArgSet) (x : string) :
  In x allVars ->
  exists i g, nth_error (mergedMap dep P allVars) i = Some g /\ In x (fst g).
Proof.
  intros Hx.
  assert (In x (allVarsOf (mergedMap dep P allVars))) as Hin.
  { apply (mergeSteps_invariant (fun m => In x (allVarsOf m)))
      with (initialMap dep P allVars).
    - intros m m'. apply mergeStep_covers.
    - apply mergedMap_steps.
    - now rewrite initialMap_vars. }
  unfold allVarsOf in Hin. apply in_concat in Hin.
  destruct Hin as (l & Hl & Hxl). apply in_map_iff in Hl.
  destruct Hl as (g & <- & Hg). apply In_nth_error in Hg.
  destruct Hg as (i & Hi). eauto.
Qed.

Lemma sameMembers_sym (a b : RooArgSet) : sameMembers a b -> sameMembers b a.
Proof. intros H x. symmetry. apply H. Qed.

Lemma connected_sameMembers (dep : string -> string -> bool)
  (comps allVars allVars' : RooArgSet) (a b : string) :
  sameMembers allVars allVars' ->
  connected dep comps allVars a b -> connected dep comps allVars' a b.
Proof.
  intros Hsame H. induction H as [a b (Ha & Hb & Ht) | a | a b c _ IH1 _ IH2].
  - apply rt_step. split; [now apply Hsame |]. split; [now apply Hsame | exact Ht].
  - apply rt_refl.
  - eapply rt_trans; eassumption.
Qed.

Lemma factorises_sameMembers (dep : string -> string -> bool)
  (comps allVars allVars' : RooArgSet) :
  sameMembers allVars allVars' ->
  factorises dep comps allVars -> factorises dep comps allVars'.
Proof.
  intros Hsame [[(v & Hv) (t & Ht & Hd)] | (v & w & Hv & Hw & Hn)].
  - left. split; [exists v; now apply Hsame |].
    exists t. split; [assumption |]. intros x Hx. apply Hd. now apply Hsame.
  - right. exists v, w. split; [now apply Hsame |]. split; [now apply Hsame |].
    intros Hc. apply Hn.
    eapply connected_sameMembers; [apply sameMembers_sym |]; eassumption.
Qed.

Lemma initialMap_connInv (dep : string -> string -> bool) (P : RooProduct)
  (allVars : RooArgSet) :
  connInv dep (_compRSet P) allVars (initialMap dep P allVars).
Proof.
  unfold connInv, initialMap. rewrite varsLoop_map. apply Forall_app. split.
  - destruct (negb _); constructor; [| constructor]. intros a b [].
  - rewrite Forall_map. apply Forall_forall. intros v _ a b [<- | []] [<- | []].
    apply rt_refl.
Qed.

Lemma mergeStep_connInv (dep : string -> string -> bool)
  (comps allVars : RooArgSet) (m m' : ProdMap) :
  mergeStep m m' -> groupsInv dep comps allVars m ->
  connInv dep comps allVars m -> connInv dep comps allVars m'.
Proof.
  unfold groupsInv, connInv. intros H Hg Hc.
  destruct H as [l1 [vi ti] l2 [vj tj] l3 Hov].
  rewrite !Forall_app in *. destruct Hc as (H1 & Hc). destruct Hg as (_ & Hg).
  inversion Hc as [| ? ? Hci Hc']; subst.
  inversion Hg as [| ? ? [Hvi Hti] Hg']; subst.
  rewrite Forall_app in Hc', Hg'. destruct Hc' as (H2 & Hc'). destruct Hg' as (_ & Hg').
  inversion Hc' as [| ? ? Hcj H3]; subst.
  inversion Hg' as [| ? ? [Hvj Htj] _]; subst.
  split; [assumption |]. constructor; [| apply Forall_app; now split].
  unfold termsOfGroup, merged in *. simpl in *.
  apply overlaps_true in Hov. destruct Hov as (t & Hxi & Hxj).
  apply Hti in Hxi. apply Htj in Hxj.
  destruct Hxi as [Ht Hxi]. destruct Hxj as [_ Hxj].
  assert (forall a b, In a vi -> In b vj -> connected dep comps allVars a b) as Hij.
  { intros a b Ha Hb.
    destruct Hxi as [[-> _] | (wi & Hwi & Hdi)]; [destruct Ha |].
    destruct Hxj as [[-> _] | (wj & Hwj & Hdj)]; [destruct Hb |].
    apply rt_trans with wi; [now apply Hci |].
    apply rt_trans with wj; [| now apply Hcj].
    apply rt_step. split; [now apply Hvi |]. split; [now apply Hvj |].
    exists t. auto. }
  assert (forall a b, connected dep comps allVars a b ->
            connected dep comps allVars b a) as Hsym.
  { intros a b H. induction H as [a b (Ha & Hb & u & Hu & Hua & Hub) | a | a b c _ IH1 _ IH2].
    - apply rt_step. split; [assumption |]. split; [assumption |]. exists u. auto.
    - apply rt_refl.
    - eapply rt_trans; eassumption. }
  intros a b Ha Hb. apply addAll_In in Ha. apply addAll_In in Hb.
  destruct Ha as [Ha | Ha], Hb as [Hb | Hb]; auto.
Qed.

Lemma mergedMap_connInv (dep : string -> string -> bool) (P : RooProduct)
  (allVars : RooArgSet) :
  NoDup (_compRSet P) ->
  connInv dep (_compRSet P) allVars (mergedMap dep P allVars).
Proof.
  intros Hnd.
  apply (mergeSteps_invariant
           (fun m => groupsInv dep (_compRSet P) allVars m
                     /\ connInv dep (_compRSet P) allVars m))
    with (initialMap dep P allVars).
  - intros m m' Hstep [Hg Hc]. split.
    + eapply mergeStep_groupsInv; eassumption.
    + eapply mergeStep_connInv; eassumption.
  - apply mergedMap_steps.
  - split; [now apply initialMap_groupsInv | apply initialMap_connInv].
Qed.

Lemma mergedMap_group (dep : string -> string -> bool) (P : RooProduct)
  (allVars : RooArgSet) (i : nat) (g : Group) :
  NoDup (_compRSet P) ->
  nth_error (mergedMap dep P allVars) i = Some g ->
  incl (fst g) allVars /\ termsOfGroup dep (_compRSet P) allVars g.
Proof.
  intros Hnd Hi. pose proof (mergedMap_groupsInv dep P allVars Hnd) as Hinv.
  unfold groupsInv in Hinv. rewrite Forall_forall in Hinv.
  apply Hinv. eapply nth_error_In; eassumption.
Qed.

Lemma mergedMap_disjoint_terms (dep : string -> string -> bool) (P : RooProduct)
  (allVars : RooArgSet) (i j : nat) (gi gj : Group) (t : string) :
  nth_error (mergedMap dep P allVars) i = Some gi ->
  nth_error (mergedMap dep P allVars) j = Some gj ->
  In t (snd gi) -> In t (snd gj) -> i = j.
Proof.
  intros Hi Hj Hti Htj. pose proof (mergedMap_noOverlap dep P allVars) as Hno.
  destruct (Nat.lt_total i j) as [Hlt | [Heq | Hgt]]; [exfalso | assumption | exfalso].
  - pose proof (ForallOrdPairs_nth Hno i j gi gj Hlt Hi Hj) as Hov.
    rewrite overlaps_false in Hov. exact (Hov t Hti Htj).
  - pose proof (ForallOrdPairs_nth Hno j i gj gi Hgt Hj Hi) as Hov.
    rewrite overlaps_false in Hov. exact (Hov t Htj Hti).
Qed.

(** Connected variables are in the same group. *)
Lemma connected_same_group (dep : string -> string -> bool) (P : RooProduct)
  (allVars : RooArgSet) (a b : string) :
  NoDup (_compRSet P) ->
  connected dep (_compRSet P) allVars a b ->
  forall i g, nth_error (mergedMap dep P allVars) i = Some g ->
    In a (fst g) -> In b (fst g).
Proof.
  intros Hnd H.
  induction H as [a b (Ha & Hb & t & Ht & Hta & Htb) | a | a b c _ IH1 _ IH2];
    intros i g Hi Hag; [| assumption | eauto].
  destruct (mergedMap_covers dep P allVars b Hb) as (j & g' & Hj & Hbg).
  destruct (mergedMap_group dep P allVars i g Hnd Hi) as [_ Hg].
  destruct (mergedMap_group dep P allVars j g' Hnd Hj) as [_ Hg'].
  assert (In t (snd g)) as Htg by (apply Hg; split; [assumption | right; eauto]).
  assert (In t (snd g')) as Htg' by (apply Hg'; split; [assumption | right; eauto]).
  assert (i = j) by (eapply mergedMap_disjoint_terms; eassumption).
  subst j. congruence.
Qed.

Lemma independent_term (dep : string -> string -> bool) (comps allVars : RooArgSet)
  (g : Group) (t : string) :
  termsOfGroup dep comps allVars g -> fst g = [] -> In t (snd g) ->
  In t comps /\ forall v, In v allVars -> dep t v = false.
Proof.
  intros Hg He Ht. apply Hg in Ht. destruct Ht as [Hc [[_ Hd] | (v & Hv & _)]].
  - split; [assumption |]. intros v Hv. destruct (dep t v) eqn:Hdv; [| reflexivity].
    assert (dependsOnSet dep t allVars = true) by (apply dependsOnSet_true; eauto).
    congruence.
  - rewrite He in Hv. destruct Hv.
Qed.

Lemma nonempty_In {A : Type} (l : list A) : l <> [] -> exists x, In x l.
Proof. destruct l as [| x l]; [congruence | intros _; exists x; now left]. Qed.

(** At least two groups: the integral factorises. *)
Lemma two_groups_factorises (dep : string -> string -> bool) (P : RooProduct)
  (allVars : RooArgSet) :
  NoDup (_compRSet P) -> NoDup allVars ->
  (2 <= List.length (mergedMap dep P allVars))%nat ->
  factorises dep (_compRSet P) allVars.
Proof.
  intros HR HV Hlen.
  destruct (nth_error (mergedMap dep P allVars) 0) as [g0 |] eqn:H0;
    [| apply nth_error_None in H0; lia].
  destruct (nth_error (mergedMap dep P allVars) 1) as [g1 |] eqn:H1;
    [| apply nth_error_None in H1; lia].
  destruct (mergedMap_group dep P allVars 0 g0 HR H0) as [Hi0 Hg0].
  destruct (mergedMap_group dep P allVars 1 g1 HR H1) as [Hi1 Hg1].
  pose proof (mergedMap_termSetsInv dep P allVars) as Hts.
  unfold termSetsInv in Hts. rewrite Forall_forall in Hts.
  destruct (Hts g0 (nth_error_In _ _ H0)) as (_ & _ & He0).
  destruct (Hts g1 (nth_error_In _ _ H1)) as (_ & _ & He1).
  assert (forall t, In t (snd g0) -> In t (snd g1) -> False) as Hdis.
  { intros t Ht0 Ht1.
    pose proof (mergedMap_disjoint_terms dep P allVars 0 1 g0 g1 t H0 H1 Ht0 Ht1).
    discriminate. }
  destruct (fst g0) as [| v vs] eqn:Hf0; [| destruct (fst g1) as [| w ws] eqn:Hf1].
  - left. destruct (nonempty_In (snd g0) (He0 Hf0)) as (t & Ht).
    destruct (independent_term dep _ _ g0 t Hg0 Hf0 Ht) as [Hc Hd].
    split; [| eauto].
    destruct (fst g1) as [| w ws] eqn:Hf1; [| exists w; apply Hi1; now left].
    exfalso. apply (Hdis t Ht). apply Hg1. split; [assumption |]. left.
    split; [assumption |]. destruct (dependsOnSet dep t allVars) eqn:Hds; [| reflexivity].
    apply dependsOnSet_true in Hds. destruct Hds as (x & Hx & Hdx).
    rewrite (Hd x Hx) in Hdx. discriminate.
  - left. destruct (nonempty_In (snd g1) (He1 Hf1)) as (t & Ht).
    destruct (independent_term dep _ _ g1 t Hg1 Hf1 Ht) as [Hc Hd].
    split; [exists v; apply Hi0; now left | eauto].
  - right. exists v, w. split; [apply Hi0; now left |].
    split; [apply Hi1; now left |]. intros Hc.
    assert (In w (fst g0)) as Hw0.
    { apply (connected_same_group dep P allVars v w HR Hc 0 g0 H0).
      rewrite Hf0. now left. }
    pose proof (mergedMap_varsInv dep P allVars HV) as Hperm.
    assert (NoDup (allVarsOf (mergedMap dep P allVars))) as Hnd
      by (eapply Permutation_NoDup; [apply Permutation_sym |]; eassumption).
    assert (0 = 1)%nat; [| discriminate].
    apply (NoDup_concat_nth Hnd 0 1 (fst g0) (fst g1) w);
      [now apply map_nth_error | now apply map_nth_error | assumption |].
    rewrite Hf1. now left.
Qed.

(** The integral factorises: at least two groups, in whatever order the
    variables are requested. *)
Lemma factorises_two_groups (dep : string -> string -> bool) (P : RooProduct)
  (allVars : RooArgSet) :
  NoDup (_compRSet P) -> factorises dep (_compRSet P) allVars ->
  (2 <= List.length (mergedMap dep P allVars))%nat.
Proof.
  intros HR Hf.
  assert (forall i j gi gj, i <> j ->
            nth_error (mergedMap dep P allVars) i = Some gi ->
            nth_error (mergedMap dep P allVars) j = Some gj ->
            (2 <= List.length (mergedMap dep P allVars))%nat) as Htwo.
  { intros i j gi gj Hij Hi Hj.
    assert (i < List.length (mergedMap dep P allVars))%nat
      by (apply nth_error_Some; congruence).
    assert (j < List.length (mergedMap dep P allVars))%nat
      by (apply nth_error_Some; congruence).
    lia. }
  destruct Hf as [[(v & Hv) (t & Ht & Hd)] | (v & w & Hv & Hw & Hn)].
  - assert (indepTerms dep P allVars <> []) as Hne.
    { intros He. assert (In t (indepTerms dep P allVars)) as Hin.
      { apply filter_In. split; [assumption |]. apply negb_true_iff.
        destruct (dependsOnSet dep t allVars) eqn:Hds; [| reflexivity].
        apply dependsOnSet_true in Hds. destruct Hds as (x & Hx & Hdx).
        rewrite (Hd x Hx) in Hdx. discriminate. }
      rewrite He in Hin. destruct Hin. }
    assert (headInv (indepTerms dep P allVars) (mergedMap dep P allVars)) as Hh.
    { apply (mergeSteps_invariant (headInv (indepTerms dep P allVars)))
        with (initialMap dep P allVars).
      - intros m m'. apply mergeStep_headInv.
      - apply mergedMap_steps.
      - now apply initialMap_headInv. }
    destruct Hh as (rest & Hm & _).
    destruct (mergedMap_covers dep P allVars v Hv) as (i & g & Hi & Hvg).
    destruct i as [| i].
    + rewrite Hm in Hi. simpl in Hi. injection Hi as <-. destruct Hvg.
    + apply (Htwo 0%nat (S i) ([], indepTerms dep P allVars) g);
        [discriminate | now rewrite Hm | assumption].
  - destruct (mergedMap_covers dep P allVars v Hv) as (i & gi & Hi & Hvi).
    destruct (mergedMap_covers dep P allVars w Hw) as (j & gj & Hj & Hwj).
    apply (Htwo i j gi gj); [| assumption | assumption].
    intros ->. apply Hn. rewrite Hi in Hj. injection Hj as <-.
    pose proof (mergedMap_connInv dep P allVars HR) as Hc.
    unfold connInv in Hc. rewrite Forall_forall in Hc.
    apply (Hc gi (nth_error_In _ _ Hi)); assumption.
Qed.

Lemma two_groups_sameMembers (dep : string -> string -> bool) (P : RooProduct)
  (allVars allVars' : RooArgSet) :
  NoDup (_compRSet P) -> NoDup allVars -> sameMembers allVars allVars' ->
  (2 <= List.length (mergedMap dep P allVars))%nat ->
  (2 <= List.length (mergedMap dep P allVars'))%nat.
Proof.
  intros HR HV Hsame Hlen. apply factorises_two_groups; [assumption |].
  apply factorises_sameMembers with allVars; [assumption |].
  now apply two_groups_factorises.
Qed.

Lemma buildLoop_sameMembers (dep : string -> string -> bool) (P : RooProduct)
  (allVars allVars' : RooArgSet) (r r' : option string) (c0 c0' c : CacheElem) :
  NoDup (_compRSet P) -> sameMembers allVars allVars' ->
  buildLoop (mergedMap dep P allVars) r c0 = Done c ->
  exists c', buildLoop (mergedMap dep P allVars') r' c0' = Done c'.
Proof.
  intros HR Hsame Hb. apply buildLoop_nonempty_Done.
  apply nonempty_terms_mergedMap; [assumption |]. intros v Hv.
  eapply buildLoop_Done_dependent; [assumption | eassumption |].
  now apply Hsame.
Qed.

(** ** Normalised sets *)

Lemma compare_Lt (a b : string) :
  String.compare a b = Lt <-> OrderedTypeEx.String_as_OT.lt a b.
Proof. apply OrderedTypeEx.String_as_OT.cmp_lt. Qed.

Lemma compare_Gt (a b : string) :
  String.compare a b = Gt -> OrderedTypeEx.String_as_OT.lt b a.
Proof.
  intros H. apply compare_Lt. rewrite String.compare_antisym, H. reflexivity.
Qed.

Lemma insertName_In (n : string) (names : list string) (x : string) :
  In x (insertName n names) <-> x = n \/ In x names.
Proof.
  induction names as [| m rest IH]; simpl.
  - intuition auto.
  - destruct (String.compare n m) eqn:Hc; simpl.
    + apply String.compare_eq_iff in Hc. subst m. intuition auto.
    + intuition auto.
    + rewrite IH. intuition auto.
Qed.

Lemma normalized_In (s : RooArgSet) (x : string) :
  In x (normalized s) <-> In x s.
Proof.
  induction s as [| a s IH]; simpl; [tauto |].
  rewrite insertName_In, IH. intuition auto.
Qed.

Lemma insertName_sorted (n : string) (names : list string) :
  StronglySorted OrderedTypeEx.String_as_OT.lt names ->
  StronglySorted OrderedTypeEx.String_as_OT.lt (insertName n names).
Proof.
  induction 1 as [| m rest Hs IH Hm]; simpl.
  - constructor; constructor.
  - destruct (String.compare n m) eqn:Hc.
    + now constructor.
    + apply compare_Lt in Hc. constructor; [now constructor |].
      constructor; [assumption |]. eapply Forall_impl; [| exact Hm].
      intros x Hx. eapply OrderedTypeEx.String_as_OT.lt_trans; eassumption.
    + apply compare_Gt in Hc. constructor; [assumption |].
      apply Forall_forall. intros x Hx. apply insertName_In in Hx.
      destruct Hx as [-> | Hx]; [assumption |].
      rewrite Forall_forall in Hm. now apply Hm.
Qed.

Lemma normalized_sorted (s : RooArgSet) :
  StronglySorted OrderedTypeEx.String_as_OT.lt (normalized s).
Proof.
  induction s as [| a s IH]; simpl; [constructor | now apply insertName_sorted].
Qed.

Lemma nameLt_irrefl (a : string) : ~ OrderedTypeEx.String_as_OT.lt a a.
Proof.
  intros H. now apply (OrderedTypeEx.String_as_OT.lt_not_eq a a H).
Qed.

(** Two ascending lists with the same members are equal. *)
Lemma sorted_sameMembers (a b : list string) :
  StronglySorted OrderedTypeEx.String_as_OT.lt a ->
  StronglySorted OrderedTypeEx.String_as_OT.lt b ->
  sameMembers a b -> a = b.
Proof.
  intros Ha. revert b. induction Ha as [| x a Ha IH Hx]; intros b Hb Hsame.
  - destruct b as [| y b]; [reflexivity |].
    destruct (proj2 (Hsame y) (or_introl eq_refl)).
  - destruct Hb as [| y b Hb Hy].
    + destruct (proj1 (Hsame x) (or_introl eq_refl)).
    + rewrite Forall_forall in Hx, Hy.
      assert (x = y) as <-.
      { destruct (proj1 (Hsame x) (or_introl eq_refl)) as [Hxy | Hxb];
          [now symmetry |].
        destruct (proj2 (Hsame y) (or_introl eq_refl)) as [Hyx | Hya];
          [assumption |].
        exfalso. apply (nameLt_irrefl x).
        eapply OrderedTypeEx.String_as_OT.lt_trans; [apply Hx | apply Hy];
          assumption. }
      f_equal. apply IH; [assumption |]. intros z. split; intros Hz.
      * destruct (proj1 (Hsame z) (or_intror Hz)) as [<- | Hzb]; [| assumption].
        exfalso. apply (nameLt_irrefl x). now apply Hx.
      * destruct (proj2 (Hsame z) (or_intror Hz)) as [<- | Hza]; [| assumption].
        exfalso. apply (nameLt_irrefl x). now apply Hy.
Qed.

Lemma normalized_eq (a b : RooArgSet) :
  normalized a = normalized b <-> sameMembers a b.
Proof.
  split.
  - intros H x. rewrite <- (normalized_In a), <- (normalized_In b), H. tauto.
  - intros H. apply sorted_sameMembers; try apply normalized_sorted.
    intros x. rewrite !normalized_In. apply H.
Qed.

Lemma normalized_idem (s : RooArgSet) : normalized (normalized s) = normalized s.
Proof. apply normalized_eq. intros x. apply normalized_In. Qed.

Lemma normalized_NoDup (s : RooArgSet) : NoDup (normalized s).
Proof.
  pose proof (normalized_sorted s) as H.
  induction H as [| x l _ IH Hx]; constructor; [| assumption].
  intros Hin. rewrite Forall_forall in Hx. exact (nameLt_irrefl x (Hx x Hin)).
Qed.

Lemma normal_NoDup (s : RooArgSet) : normalized s = s -> NoDup s.
Proof. intros <-. apply normalized_NoDup. Qed.

Lemma normal_sameMembers (s names : RooArgSet) :
  normalized names = names -> sameMembers s names -> normalized s = names.
Proof. intros Hn H. rewrite <- Hn. now apply normalized_eq. Qed.
(** ** Integral cache *)

Lemma sameNames_true (a b : RooArgSet) :
  sameNames a b = true <-> normalized a = normalized b.
Proof.
  unfold sameNames.
  destruct (list_eq_dec string_dec (normalized a) (normalized b)); split; congruence.
Qed.

Lemma sameToken_true (a b : option string) : sameToken a b = true <-> a = b.
Proof.
  destruct a as [x |], b as [y |]; simpl; try (split; congruence).
  rewrite String.eqb_eq. split; congruence.
Qed.

(** The lookup compares the normalised key of the request with the
    normalised key of the slot. *)
Lemma slotMatches_true (nset iset : RooArgSet) (tok : option string) (s : CacheSlot) :
  slotMatches nset iset tok s = true
  <-> normalKey (nset, iset, tok) = normalKey (slotKey s).
Proof.
  unfold slotMatches, slotKey, normalKey. cbn [fst snd].
  rewrite !andb_true_iff, !sameNames_true, sameToken_true.
  split; [intros [[-> ->] ->]; reflexivity | intros H; injection H; auto].
Qed.

Lemma normalKey_sameMembers (iset iset' : RooArgSet) (tok : option string) :
  sameMembers iset iset' ->
  normalKey (iset, iset, tok) = normalKey (iset', iset', tok).
Proof.
  intros H. apply normalized_eq in H. unfold normalKey. cbn [fst snd].
  now rewrite H.
Qed.

Lemma findSlot_Some (slots : list CacheSlot) (nset iset : RooArgSet)
  (tok : option string) (k idx : nat) (s : CacheSlot) :
  findSlot slots nset iset tok k = Some (idx, s) ->
  exists j, idx = (k + j)%nat /\ nth_error slots j = Some s
    /\ normalKey (nset, iset, tok) = normalKey (slotKey s)
    /\ forall j' s', (j' < j)%nat -> nth_error slots j' = Some s' ->
         normalKey (nset, iset, tok) <> normalKey (slotKey s').
Proof.
  revert k. induction slots as [| s0 slots IH]; intros k H; simpl in H.
  - discriminate.
  - destruct (slotMatches nset iset tok s0) eqn:Hm.
    + injection H as <- <-. exists 0%nat. repeat split; [lia | | ].
      * now apply slotMatches_true.
      * intros j' s' Hlt. lia.
    + apply IH in H. destruct H as (j & -> & Hnth & Hkey & Hfirst).
      exists (S j). repeat split; [lia | assumption | assumption |].
      intros [| j'] s' Hlt Hj'; simpl in Hj'.
      * injection Hj' as <-. intros Hk. apply slotMatches_true in Hk. congruence.
      * apply (Hfirst j' s'); [lia | assumption].
Qed.

Lemma findSlot_None (slots : list CacheSlot) (nset iset : RooArgSet)
  (tok : option string) (k : nat) :
  findSlot slots nset iset tok k = None ->
  forall j s, nth_error slots j = Some s ->
    normalKey (nset, iset, tok) <> normalKey (slotKey s).
Proof.
  revert k. induction slots as [| s0 slots IH]; intros k H j s Hj.
  - destruct j; discriminate.
  - simpl in H. destruct (slotMatches nset iset tok s0) eqn:Hm; [discriminate |].
    destruct j as [| j]; simpl in Hj.
    + injection Hj as <-. intros Hk. apply slotMatches_true in Hk. congruence.
    + eapply IH; eassumption.
Qed.

Lemma findSlot_first (slots : list CacheSlot) (nset iset : RooArgSet)
  (tok : option string) (k j : nat) (s : CacheSlot) :
  nth_error slots j = Some s ->
  normalKey (nset, iset, tok) = normalKey (slotKey s) ->
  (forall j' s', (j' < j)%nat -> nth_error slots j' = Some s' ->
     normalKey (nset, iset, tok) <> normalKey (slotKey s')) ->
  findSlot slots nset iset tok k = Some ((k + j)%nat, s).
Proof.
  intros Hj Hkey Hfirst.
  destruct (findSlot slots nset iset tok k) as [[idx s1] |] eqn:Hf.
  - apply findSlot_Some in Hf. destruct Hf as (j1 & -> & Hj1 & Hkey1 & Hfirst1).
    destruct (Nat.lt_total j1 j) as [Hlt | [-> | Hgt]].
    + now destruct (Hfirst j1 s1 Hlt Hj1).
    + congruence.
    + now destruct (Hfirst1 j s Hgt Hj).
  - now destruct (findSlot_None _ _ _ _ _ Hf j s Hj).
Qed.

(** The lookup does not see the order of the request. *)
Lemma findSlot_sameMembers (slots : list CacheSlot) (iset iset' : RooArgSet)
  (tok : option string) (k : nat) :
  sameMembers iset iset' ->
  findSlot slots iset iset tok k = findSlot slots iset' iset' tok k.
Proof.
  intros H. apply normalized_eq in H.
  revert k. induction slots as [| s slots IH]; intros k; simpl; [reflexivity |].
  unfold slotMatches, sameNames. rewrite H.
  destruct (_ && _ && _); [reflexivity | apply IH].
Qed.

Lemma findSlot_own_key (mgr : RooCacheManager) (i : nat) (s : CacheSlot) :
  keysDistinct mgr -> nth_error mgr i = Some s ->
  findSlot mgr (slotNset s) (slotIset s) (slotRange s) 0 = Some (i, s).
Proof.
  intros Hkd Hi. apply (findSlot_first mgr _ _ _ 0 i s Hi eq_refl).
  intros j' s' Hlt Hj' Hk.
  assert (j' = i) by (apply (Hkd j' i s' s Hj' Hi); now symmetry). lia.
Qed.

Lemma setSlotObj_length (i : nat) (o : option CacheElem) (slots : list CacheSlot) :
  List.length (setSlotObj i o slots) = List.length slots.
Proof.
  revert i. induction slots as [| s slots IH]; intros [| i]; simpl; auto.
Qed.

Lemma nth_error_setSlotObj (i : nat) (o : option CacheElem)
  (slots : list CacheSlot) (j : nat) :
  nth_error (setSlotObj i o slots) j
  = if Nat.eqb j i
    then option_map (fun s => mkSlot (slotNset s) (slotIset s) (slotRange s) o)
           (nth_error slots j)
    else nth_error slots j.
Proof.
  revert i j. induction slots as [| s slots IH]; intros i j.
  - destruct i, j; simpl; try reflexivity. now destruct (Nat.eqb j i).
  - destruct i as [| i], j as [| j]; simpl; try reflexivity. apply IH.
Qed.

Lemma nth_error_sterilize (mgr : RooCacheManager) (j : nat) :
  nth_error (sterilize mgr) j
  = option_map (fun s => mkSlot (slotNset s) (slotIset s) (slotRange s) None)
      (nth_error mgr j).
Proof. unfold sterilize. apply nth_error_map. Qed.

Lemma sameKeys_setSlotObj (i : nat) (o : option CacheElem) (mgr : RooCacheManager) :
  sameKeys o mgr (setSlotObj i o mgr).
Proof.
  intros j s' Hj. rewrite nth_error_setSlotObj in Hj.
  destruct (Nat.eqb j i).
  - destruct (nth_error mgr j) as [s |]; [| discriminate].
    injection Hj as <-. exists s. auto.
  - exists s'. auto.
Qed.

Lemma sameKeys_sterilize (mgr : RooCacheManager) : sameKeys None mgr (sterilize mgr).
Proof.
  intros j s' Hj. rewrite nth_error_sterilize in Hj.
  destruct (nth_error mgr j) as [s |]; [| discriminate].
  injection Hj as <-. exists s. auto.
Qed.

Lemma sameKeys_keysDistinct (o : option CacheElem) (mgr mgr' : RooCacheManager) :
  sameKeys o mgr mgr' -> keysDistinct mgr -> keysDistinct mgr'.
Proof.
  intros Hsk Hkd i j si sj Hi Hj Hk.
  destruct (Hsk i si Hi) as (si0 & Hi0 & Hki & _).
  destruct (Hsk j sj Hj) as (sj0 & Hj0 & Hkj & _).
  apply (Hkd i j si0 sj0 Hi0 Hj0). congruence.
Qed.

Lemma slotInv_key (E : Env) (P : RooProduct) (s s' : CacheSlot) :
  slotKey s' = slotKey s ->
  (slotObj s' = slotObj s \/ slotObj s' = None) ->
  slotInv E P s -> slotInv E P s'.
Proof.
  unfold slotKey, slotInv. intros Hk Hobj (Hn & Hnorm & Hgroups & Hpay).
  injection Hk as -> -> ->. split; [assumption |]. split; [assumption |].
  split; [assumption |]. intros obj Ho. apply Hpay.
  destruct Hobj as [<- | Hnone]; [assumption | congruence].
Qed.

Lemma Forall_nth_error {A : Type} (Q : A -> Prop) (l : list A) :
  Forall Q l <-> (forall j x, nth_error l j = Some x -> Q x).
Proof.
  rewrite Forall_forall. split.
  - intros H j x Hj. apply H. eapply nth_error_In; eassumption.
  - intros H x Hx. apply In_nth_error in Hx. destruct Hx as (j & Hj). eauto.
Qed.

Lemma cacheInv_sterilized (E : Env) (P : RooProduct) (mgr mgr' : RooCacheManager) :
  sameKeys None mgr mgr' -> cacheInv E P mgr -> cacheInv E P mgr'.
Proof.
  intros Hsk [Hall Hkd]. split; [| eapply sameKeys_keysDistinct; eassumption].
  rewrite Forall_nth_error in *. intros j s' Hj.
  destruct (Hsk j s' Hj) as (s & Hs & Hk & Hobj).
  apply (slotInv_key E P s s' Hk Hobj). eauto.
Qed.

Lemma getPartIntList_cases (E : Env) (P : RooProduct) (mgr : RooCacheManager)
  (iset : RooArgSet) (isetRange : option string) (code : Int_t)
  (mgr' : RooCacheManager) :
  getPartIntList E P mgr iset isetRange = Done (code, mgr') ->
  getPartIntList_case E P mgr iset isetRange code mgr'.
Proof.
  unfold getPartIntList.
  destruct (lookupObj (getObj mgr iset iset (RooNameReg_ptr isetRange)))
    as [obj |] eqn:Hlook.
  - intros H. injection H as <- <-. unfold getObj in *.
    destruct (findSlot mgr iset iset (RooNameReg_ptr isetRange) 0)
      as [[i s] |] eqn:Hf; [| discriminate].
    destruct (slotObj s) as [o |] eqn:Ho; [| discriminate].
    simpl. eapply case_hit; eassumption.
  - destruct (groupProductTerms (dependsOn E) P iset) as [m | |] eqn:Hg;
      cbn [bind]; try discriminate.
    destruct (List.length m <? 2)%nat eqn:Hlen.
    + intros H. injection H as <- <-. apply Nat.ltb_lt in Hlen.
      eapply case_degenerate; eassumption.
    + apply Nat.ltb_ge in Hlen.
      destruct (buildLoop m isetRange (mkCacheElem [] [])) as [cache | |] eqn:Hb;
        cbn [bind]; try discriminate.
      unfold setObj. rewrite Hlook. unfold getObj.
      destruct (findSlot mgr iset iset (RooNameReg_ptr isetRange) 0)
        as [[i s] |] eqn:Hf.
      * unfold getObj in Hlook. rewrite Hf in Hlook.
        destruct (slotObj s) as [o |] eqn:Ho; [discriminate |].
        cbn [sterileIdx]. replace (0 <=? Z.of_nat i) with true
          by (symmetry; apply Z.leb_le; lia).
        rewrite Nat2Z.id. intros H. injection H as <- <-.
        eapply case_revive; eassumption.
      * cbn [sterileIdx]. replace (0 <=? -1) with false by reflexivity.
        intros H. injection H as <- <-.
        eapply case_append; eassumption.
Qed.

(** The code that is returned, unless it is -1, names a slot with a payload
    and with the key of the request. *)
Lemma getPartIntList_slot (E : Env) (P : RooProduct) (mgr : RooCacheManager)
  (iset : RooArgSet) (isetRange : option string) (code : Int_t)
  (mgr' : RooCacheManager) :
  getPartIntList E P mgr iset isetRange = Done (code, mgr') ->
  code = -1
  \/ exists i s obj,
       code = Z.of_nat i
       /\ findSlot mgr' iset iset (RooNameReg_ptr isetRange) 0 = Some (i, s)
       /\ nth_error mgr' i = Some s /\ slotObj s = Some obj.
Proof.
  intros H. apply getPartIntList_cases in H.
  destruct H as [i s obj Hf Ho | m | i s m cache Hf Ho Hg Hlen Hb | m cache Hf Hg Hlen Hb].
  - right. exists i, s, obj. repeat split; try assumption.
    apply findSlot_Some in Hf. destruct Hf as (j & -> & Hj & _). exact Hj.
  - now left.
  - right. apply findSlot_Some in Hf. destruct Hf as (j & -> & Hj & Hkey & Hfirst).
    simpl.
    set (s' := mkSlot (slotNset s) (slotIset s) (slotRange s) (Some cache)).
    assert (nth_error (setSlotObj j (Some cache) mgr) j = Some s') as Hj'.
    { rewrite nth_error_setSlotObj, Nat.eqb_refl, Hj. reflexivity. }
    exists j, s', cache. repeat split; try assumption.
    apply (findSlot_first _ _ _ _ 0 j s' Hj'); [exact Hkey |].
    intros j' s1 Hlt Hj1. rewrite nth_error_setSlotObj in Hj1.
    replace (Nat.eqb j' j) with false in Hj1 by (symmetry; apply Nat.eqb_neq; lia).
    eauto.
  - right.
    set (s' := mkSlot (normalized iset) (normalized iset)
                 (RooNameReg_ptr isetRange) (Some cache)).
    assert (nth_error (mgr ++ [s']) (List.length mgr) = Some s') as Hj'.
    { rewrite nth_error_app2 by lia. now rewrite Nat.sub_diag. }
    exists (List.length mgr), s', cache. repeat split; try assumption.
    apply (findSlot_first _ _ _ _ 0 _ s' Hj').
    + unfold normalKey, slotKey. cbn [fst snd s' slotNset slotIset slotRange].
      now rewrite normalized_idem.
    + intros j' s1 Hlt Hj1. rewrite nth_error_app1 in Hj1 by assumption.
      eapply findSlot_None; eassumption.
Qed.

Lemma getObj_found (mgr : RooCacheManager) (nset iset : RooArgSet)
  (tok : option string) (i : nat) (s : CacheSlot) (obj : CacheElem) :
  findSlot mgr nset iset tok 0 = Some (i, s) -> slotObj s = Some obj ->
  getObj mgr nset iset tok = mkLookup (Some obj) (Z.of_nat i) (-1).
Proof. intros Hf Ho. unfold getObj. now rewrite Hf, Ho. Qed.

Lemma getPartIntList_hit (E : Env) (P : RooProduct) (mgr : RooCacheManager)
  (iset : RooArgSet) (isetRange : option string) (i : nat) (s : CacheSlot)
  (obj : CacheElem) :
  findSlot mgr iset iset (RooNameReg_ptr isetRange) 0 = Some (i, s) ->
  slotObj s = Some obj ->
  getPartIntList E P mgr iset isetRange = Done (Z.of_nat i, mgr).
Proof.
  intros Hf Ho. unfold getPartIntList. now rewrite (getObj_found _ _ _ _ _ _ _ Hf Ho).
Qed.

(** What a request that factorises establishes for the slot of its key. *)
Lemma slotInv_stored (E : Env) (P : RooProduct) (iset : RooArgSet)
  (isetRange : option string) (m : ProdMap) (cache : CacheElem) :
  NoDup iset ->
  groupProductTerms (dependsOn E) P iset = Done m ->
  (2 <= List.length m)%nat ->
  buildLoop m isetRange (mkCacheElem [] []) = Done cache ->
  slotInv E P (mkSlot (normalized iset) (normalized iset)
                 (RooNameReg_ptr isetRange) (Some cache)).
Proof.
  intros Hnd Hg Hlen Hb. pose proof (groupProductTerms_NoDup_comps _ _ _ _ Hg) as HR.
  assert (sameMembers iset (normalized iset)) as Hsame
    by (intros x; symmetry; apply normalized_In).
  unfold slotInv. cbn [slotNset slotIset slotRange slotObj].
  split; [reflexivity |]. split; [apply normalized_idem |]. split.
  - rewrite (groupProductTerms_inv _ _ _ _ Hg) in Hlen, Hb.
    destruct (buildLoop_sameMembers (dependsOn E) P iset (normalized iset)
                isetRange isetRange _ (mkCacheElem [] []) _ HR Hsame Hb)
      as (cache' & Hb').
    exists (mergedMap (dependsOn E) P (normalized iset)), cache'.
    split; [apply groupProductTerms_Done; [assumption | apply normalized_NoDup] |].
    split; [| exact Hb'].
    apply two_groups_sameMembers with iset; assumption.
  - intros obj Ho. injection Ho as <-. exists iset, m. auto.
Qed.

Lemma cacheInv_getPartIntList (E : Env) (P : RooProduct) (mgr : RooCacheManager)
  (iset : RooArgSet) (isetRange : option string) (code : Int_t)
  (mgr' : RooCacheManager) :
  NoDup iset ->
  getPartIntList E P mgr iset isetRange = Done (code, mgr') ->
  cacheInv E P mgr -> cacheInv E P mgr'.
Proof.
  intros Hnd H [Hall Hkd]. apply getPartIntList_cases in H.
  destruct H as [i s obj Hf Ho | m | i s m cache Hf Ho Hg Hlen Hb | m cache Hf Hg Hlen Hb].
  - now split.
  - now split.
  - apply findSlot_Some in Hf. destruct Hf as (j & -> & Hj & Hkey & _).
    unfold normalKey, slotKey in Hkey. cbn [fst snd] in Hkey.
    injection Hkey as _ Hi Hr. simpl. split.
    + rewrite Forall_nth_error in *. intros k s' Hk.
      rewrite nth_error_setSlotObj in Hk. destruct (Nat.eqb k j) eqn:Hkj.
      * apply Nat.eqb_eq in Hkj. subst k. rewrite Hj in Hk. injection Hk as <-.
        destruct (Hall j s Hj) as (Hn & Hnorm & Hgroups & _).
        unfold slotInv. cbn [slotNset slotIset slotRange slotObj].
        split; [assumption |]. split; [assumption |]. split; [assumption |].
        intros obj Hobj. injection Hobj as <-. exists iset, m.
        split; [assumption |]. split; [now apply normalized_eq |].
        split; [assumption |]. split; [assumption |]. now rewrite <- Hr.
      * eauto.
    + eapply sameKeys_keysDistinct; [apply sameKeys_setSlotObj | assumption].
  - split.
    + apply Forall_app. split; [assumption |]. constructor; [| constructor].
      eapply slotInv_stored; eassumption.
    + intros i j si sj Hi Hj Hk.
      assert (forall k s, nth_error
                (mgr ++ [mkSlot (normalized iset) (normalized iset)
                           (RooNameReg_ptr isetRange) (Some cache)]) k
                = Some s ->
              ((k < List.length mgr)%nat /\ nth_error mgr k = Some s)
              \/ (k = List.length mgr
                  /\ normalKey (slotKey s)
                     = normalKey (iset, iset, RooNameReg_ptr isetRange))) as Hsplit.
      { intros k s Hks. destruct (Nat.lt_ge_cases k (List.length mgr)) as [Hlt | Hge].
        - left. now rewrite nth_error_app1 in Hks.
        - right. rewrite nth_error_app2 in Hks by assumption.
          destruct (k - List.length mgr)%nat as [| d] eqn:Hd; simpl in Hks.
          + injection Hks as <-. split; [lia |].
            unfold normalKey, slotKey. cbn [fst snd slotNset slotIset slotRange].
            now rewrite normalized_idem.
          + destruct d; discriminate. }
      destruct (Hsplit i si Hi) as [[Hli Hi'] | [-> Hki]];
        destruct (Hsplit j sj Hj) as [[Hlj Hj'] | [-> Hkj]].
      * eapply Hkd; eassumption.
      * exfalso. apply (findSlot_None _ _ _ _ _ Hf i si Hi'). congruence.
      * exfalso. apply (findSlot_None _ _ _ _ _ Hf j sj Hj'). congruence.
      * reflexivity.
Qed.

Lemma reachable_cacheInv (E : Env) (P : RooProduct) (mgr : RooCacheManager) :
  reachable E P mgr -> cacheInv E P mgr.
Proof.
  induction 1 as [| mgr iset rangeName code mgr' _ IH Hwf Hget
                  | mgr i _ IH | mgr _ IH].
  - split; [constructor |]. intros [| i] j si sj Hi; discriminate.
  - eapply cacheInv_getPartIntList; eassumption.
  - eapply cacheInv_sterilized; [apply sameKeys_setSlotObj | assumption].
  - eapply cacheInv_sterilized; [apply sameKeys_sterilize | assumption].
Qed.

(** A slot is only stored for variables whose integral factorises, in
    whatever order they are requested. *)
Lemma slot_two_groups (E : Env) (P : RooProduct) (s : CacheSlot)
  (iset : RooArgSet) (tok : option string) (m : ProdMap) :
  slotInv E P s ->
  normalKey (iset, iset, tok) = normalKey (slotKey s) ->
  groupProductTerms (dependsOn E) P iset = Done m ->
  (2 <= List.length m)%nat.
Proof.
  intros (Hn & Hnorm & (m' & cache' & Hm' & Hlen' & _) & _) Hkey Hg.
  unfold normalKey, slotKey in Hkey. cbn [fst snd] in Hkey.
  injection Hkey as _ Hi _. apply normalized_eq in Hi.
  pose proof (groupProductTerms_NoDup_comps _ _ _ _ Hg) as HR.
  rewrite (groupProductTerms_inv _ _ _ _ Hg).
  rewrite (groupProductTerms_inv _ _ _ _ Hm') in Hlen'.
  apply two_groups_sameMembers with (slotIset s);
    [assumption | now apply normal_NoDup | now apply sameMembers_sym | assumption].
Qed.

Lemma findSlot_few_groups (E : Env) (P : RooProduct) (mgr : RooCacheManager)
  (iset : RooArgSet) (tok : option string) (m : ProdMap) :
  cacheInv E P mgr ->
  groupProductTerms (dependsOn E) P iset = Done m ->
  (List.length m < 2)%nat ->
  findSlot mgr iset iset tok 0 = None.
Proof.
  intros [Hall _] Hg Hlen.
  destruct (findSlot mgr iset iset tok 0) as [[i s] |] eqn:Hf; [| reflexivity].
  exfalso. apply findSlot_Some in Hf. destruct Hf as (j & _ & Hj & Hkey & _).
  rewrite Forall_nth_error in Hall.
  pose proof (slot_two_groups E P s iset tok m (Hall j s Hj) Hkey Hg). lia.
Qed.

Lemma getPartIntList_few_groups (E : Env) (P : RooProduct)
  (mgr : RooCacheManager) (iset : RooArgSet) (isetRange : option string)
  (m : ProdMap) :
  cacheInv E P mgr ->
  groupProductTerms (dependsOn E) P iset = Done m ->
  (List.length m < 2)%nat ->
  getPartIntList E P mgr iset isetRange = Done (-1, mgr).
Proof.
  intros Hinv Hg Hlen.
  pose proof (findSlot_few_groups E P mgr iset (RooNameReg_ptr isetRange) m
                Hinv Hg Hlen) as Hf.
  unfold getPartIntList, getObj. rewrite Hf. cbn [lookupObj]. rewrite Hg.
  cbn [bind]. apply Nat.ltb_lt in Hlen. now rewrite Hlen.
Qed.

Lemma getPartIntList_keeps_slots (E : Env) (P : RooProduct)
  (mgr mgr' : RooCacheManager) (iset : RooArgSet) (isetRange : option string)
  (code : Int_t) :
  getPartIntList E P mgr iset isetRange = Done (code, mgr') ->
  (List.length mgr <= List.length mgr' <= S (List.length mgr))%nat
  /\ forall i s, nth_error mgr i = Some s ->
       exists s', nth_error mgr' i = Some s' /\ slotKey s' = slotKey s
         /\ forall obj, slotObj s = Some obj -> slotObj s' = Some obj.
Proof.
  intros H. apply getPartIntList_cases in H.
  destruct H as [i s obj Hf Ho | m | i s m cache Hf Ho Hg Hlen Hb | m cache Hf Hg Hlen Hb].
  - split; [lia |]. intros j s0 Hj. exists s0. auto.
  - split; [lia |]. intros j s0 Hj. exists s0. auto.
  - rewrite setSlotObj_length. split; [lia |]. intros j s0 Hj.
    rewrite nth_error_setSlotObj. destruct (Nat.eqb j i) eqn:Hji.
    + apply Nat.eqb_eq in Hji. subst j. rewrite Hj. simpl.
      eexists. split; [reflexivity |]. split; [reflexivity |].
      apply findSlot_Some in Hf. destruct Hf as (k & Hk & Hnth & _).
      simpl in Hk. subst k. assert (s0 = s) by congruence. subst s0.
      intros obj Hobj. congruence.
    + exists s0. auto.
  - rewrite length_app. simpl. split; [lia |]. intros j s0 Hj.
    exists s0. split; [| auto]. rewrite nth_error_app1; [assumption |].
    apply nth_error_Some. congruence.
Qed.

(** C3: when the grouping of a request has fewer than two groups,
    [getPartIntList] returns -1 and leaves the cache as it was: no slot holds
    the key of the request; [getAnalyticalIntegralWN] then returns the code 0,
    which hands the integral back to numerical integration. *)
Theorem getPartIntList_degenerate (E : Env) (P : RooProduct)
  (mgr : RooCacheManager) (iset : RooArgSet) (isetRange : option string)
  (m : ProdMap) :
  reachable E P mgr ->
  groupProductTerms (dependsOn E) P iset = Done m ->
  (List.length m < 2)%nat ->
  getPartIntList E P mgr iset isetRange = Done (-1, mgr)
  /\ findSlot mgr iset iset (RooNameReg_ptr isetRange) 0 = None
  /\ (wfSet iset ->
      getAnalyticalIntegralWN E P false mgr iset [] None isetRange
      = Done (0, iset, mgr)).
Proof.
  intros Hreach Hg Hlen. apply reachable_cacheInv in Hreach.
  pose proof (findSlot_few_groups E P mgr iset (RooNameReg_ptr isetRange) m
                Hreach Hg Hlen) as Hf.
  pose proof (getPartIntList_few_groups E P mgr iset isetRange m Hreach Hg Hlen)
    as Hget.
  split; [assumption |]. split; [assumption |].
  unfold wfSet. intros Hnd. unfold getAnalyticalIntegralWN. cbn [c_assert bind].
  rewrite (addAll_disjoint iset [] Hnd) by (intros x []).
  cbn [app]. rewrite Hget. reflexivity.
Qed.

Lemma getPartIntList_degenerate_witness :
  getPartIntList envOne (mkRooProduct ["f"] [] None) [] ["x"] None = Done (-1, [])
  /\ findSlot [] ["x"] ["x"] (RooNameReg_ptr None) 0 = None
  /\ getAnalyticalIntegralWN envOne (mkRooProduct ["f"] [] None) false []
       ["x"] [] None None = Done (0, ["x"], []).
Proof.
  destruct (getPartIntList_degenerate envOne (mkRooProduct ["f"] [] None) []
              ["x"] None [(["x"], ["f"])]) as (Hget & Hfind & Hcode).
  - apply reach_init.
  - reflexivity.
  - simpl. lia.
  - split; [exact Hget |]. split; [exact Hfind |]. apply Hcode. nodup_strings.
Defined.

(** C6: once [getPartIntList] has returned a code for a set of integration
    variables and a range, a later call with a set that is equal by value (the
    same variables, in whatever order) and the same range token finds the
    stored entry and returns the same code; nothing is built and the cache is
    not changed by that call. *)
Theorem getPartIntList_roundtrip (E : Env) (P : RooProduct)
  (mgr mgr1 : RooCacheManager) (iset iset' : RooArgSet)
  (isetRange isetRange' : option string) (code : Int_t) :
  getPartIntList E P mgr iset isetRange = Done (code, mgr1) ->
  code <> -1 ->
  (forall x, In x iset <-> In x iset') ->
  RooNameReg_ptr isetRange' = RooNameReg_ptr isetRange ->
  getPartIntList E P mgr1 iset' isetRange' = Done (code, mgr1)
  /\ exists obj,
       lookupObj (getObj mgr1 iset' iset' (RooNameReg_ptr isetRange')) = Some obj
       /\ getObjByIndex mgr1 code = Some obj.
Proof.
  intros H Hcode Hnames Htok. rewrite Htok.
  destruct (getPartIntList_slot _ _ _ _ _ _ _ H)
    as [-> | (i & s & obj & -> & Hf & Hi & Ho)]; [congruence |].
  rewrite (findSlot_sameMembers mgr1 iset iset' _ 0 Hnames) in Hf.
  split.
  - unfold RooNameReg_ptr in Htok. subst isetRange'.
    eapply getPartIntList_hit; eassumption.
  - exists obj. split.
    + now rewrite (getObj_found _ _ _ _ _ _ _ Hf Ho).
    + unfold getObjByIndex, slotByIndex.
      replace (Z.of_nat i <? 0) with false by (symmetry; apply Z.ltb_ge; lia).
      now rewrite Nat2Z.id, Hi.
Qed.

Lemma getPartIntList_roundtrip_witness :
  exists mgr1,
    getPartIntList envOne (mkRooProduct ["f"; "g"] [] None) [] ["y"; "x"] None
    = Done (0, mgr1)
    /\ getPartIntList envOne (mkRooProduct ["f"; "g"] [] None) mgr1 ["x"; "y"] None
       = Done (0, mgr1).
Proof.
  eexists. split; [reflexivity |].
  apply (getPartIntList_roundtrip envOne (mkRooProduct ["f"; "g"] [] None) []
           _ ["y"; "x"] ["x"; "y"] None None 0);
    [reflexivity | lia | intros x; simpl; tauto | reflexivity].
Defined.

(** ** Evaluation of a code, sterilisation and revival *)

Lemma selectLoop_all (names vars out : RooArgSet) :
  NoDup (out ++ names) -> (forall n, In n names -> In n vars) ->
  selectLoop names vars out = out ++ names.
Proof.
  revert out. induction names as [| n names IH]; intros out Hnd Hin; simpl.
  - now rewrite app_nil_r.
  - assert (contains vars n = true) as -> by (apply contains_In, Hin; now left).
    rewrite add_fresh.
    + rewrite IH; [now rewrite <- app_assoc | now rewrite <- app_assoc |].
      intros n' Hn'. apply Hin. now right.
    + intros Hn. apply NoDup_remove_2 in Hnd. apply Hnd, in_app_iff. now left.
Qed.

Lemma select_all (names vars : RooArgSet) :
  NoDup names -> (forall n, In n names -> In n vars) -> select names vars = names.
Proof. intros Hnd Hin. unfold select. now rewrite selectLoop_all. Qed.

Lemma selectLoop_In (names vars out : RooArgSet) (x : string) :
  In x (selectLoop names vars out) <-> In x out \/ (In x names /\ In x vars).
Proof.
  revert out. induction names as [| n names IH]; intros out; simpl; [tauto |].
  rewrite IH. destruct (contains vars n) eqn:Hc.
  - apply contains_In in Hc. rewrite add_In. intuition (subst; auto).
  - apply contains_false in Hc. intuition (subst; auto). contradiction.
Qed.

Lemma select_In (names vars : RooArgSet) (x : string) :
  In x (select names vars) <-> In x names /\ In x vars.
Proof. unfold select. rewrite selectLoop_In. simpl. tauto. Qed.

Lemma slotByIndex_nat (mgr : RooCacheManager) (i : nat) :
  slotByIndex mgr (Z.of_nat i + 1 - 1) = nth_error mgr i.
Proof.
  unfold slotByIndex. replace (Z.of_nat i + 1 - 1) with (Z.of_nat i) by lia.
  replace (Z.of_nat i <? 0) with false by (symmetry; apply Z.ltb_ge; lia).
  now rewrite Nat2Z.id.
Qed.

Lemma slotByIndex_of_nat (mgr : RooCacheManager) (i : nat) :
  slotByIndex mgr (Z.of_nat i) = nth_error mgr i.
Proof.
  unfold slotByIndex.
  replace (Z.of_nat i <? 0) with false by (symmetry; apply Z.ltb_ge; lia).
  now rewrite Nat2Z.id.
Qed.

Lemma slotByIndex_Some (mgr : RooCacheManager) (index : Int_t) (s : CacheSlot) :
  slotByIndex mgr index = Some s ->
  index = Z.of_nat (Z.to_nat index) /\ nth_error mgr (Z.to_nat index) = Some s.
Proof.
  unfold slotByIndex. destruct (index <? 0) eqn:Hneg; [discriminate |].
  apply Z.ltb_ge in Hneg. intros H. split; [lia | assumption].
Qed.

Lemma getPartIntList_revive (E : Env) (P : RooProduct) (mgr : RooCacheManager)
  (iset : RooArgSet) (isetRange : option string) (i : nat) (s : CacheSlot)
  (m : ProdMap) (cache : CacheElem) :
  findSlot mgr iset iset (RooNameReg_ptr isetRange) 0 = Some (i, s) ->
  slotObj s = None ->
  groupProductTerms (dependsOn E) P iset = Done m ->
  (2 <= List.length m)%nat ->
  buildLoop m isetRange (mkCacheElem [] []) = Done cache ->
  getPartIntList E P mgr iset isetRange
  = Done (Z.of_nat i, setSlotObj i (Some cache) mgr).
Proof.
  intros Hf Ho Hg Hlen Hb. unfold getPartIntList, setObj, getObj.
  rewrite Hf, Ho. cbn [lookupObj sterileIdx]. rewrite Hg. cbn [bind].
  replace (List.length m <? 2)%nat with false
    by (symmetry; apply Nat.ltb_ge; assumption).
  rewrite Hb. cbn [bind].
  replace (0 <=? Z.of_nat i) with true by (symmetry; apply Z.leb_le; lia).
  now rewrite Nat2Z.id.
Qed.

Lemma groupProductTerms_no_timeout (dep : string -> string -> bool)
  (P : RooProduct) (allVars : RooArgSet) :
  groupProductTerms dep P allVars <> OutOfFuel.
Proof.
  unfold groupProductTerms.
  destruct (countLoop (mergedMap dep P allVars) 0 0) as [nVar nFunc].
  destruct (nVar =? getSize allVars); [| discriminate]. simpl.
  destruct (nFunc =? getSize (_compRSet P)); discriminate.
Qed.

Lemma getPartIntList_no_timeout (E : Env) (P : RooProduct)
  (mgr : RooCacheManager) (iset : RooArgSet) (isetRange : option string) :
  getPartIntList E P mgr iset isetRange <> OutOfFuel.
Proof.
  unfold getPartIntList.
  destruct (lookupObj (getObj mgr iset iset (RooNameReg_ptr isetRange)));
    [discriminate |].
  destruct (groupProductTerms (dependsOn E) P iset) as [m | |] eqn:Hg;
    cbn [bind]; [| discriminate | now apply groupProductTerms_no_timeout in Hg].
  destruct (List.length m <? 2)%nat; [discriminate |].
  destruct (buildLoop m isetRange (mkCacheElem [] [])) as [c | |] eqn:Hb;
    cbn [bind]; [| discriminate | now apply buildLoop_no_timeout in Hb].
  destruct (setObj mgr iset iset c (RooNameReg_ptr isetRange)). discriminate.
Qed.

(** The recursion of [analyticalIntegral] never needs a third level. *)
Lemma analyticalIntegral_no_timeout (E : Env) (P : RooProduct)
  (mgr : RooCacheManager) (code : Int_t) (rangeName : option string) :
  analyticalIntegral E P mgr code rangeName <> OutOfFuel.
Proof.
  unfold analyticalIntegral. cbn [analyticalIntegralRec].
  destruct (getObjByIndex mgr (code - 1)); [discriminate |].
  destruct (nameSet2ByIndex mgr (code - 1)) as [names |]; [| discriminate].
  destruct (getPartIntList E P mgr (select names (getParameters E)) rangeName)
    as [[c mgr'] | |] eqn:Hget; cbn [bind]; try discriminate.
  destruct (code =? c + 1) eqn:Hcode; cbn [c_assert bind]; [| discriminate].
  replace (c + 1 - 1) with c by lia.
  destruct (getPartIntList_slot _ _ _ _ _ _ _ Hget)
    as [-> | (i & s & obj & -> & _ & Hi & Ho)].
  - simpl. discriminate.
  - unfold getObjByIndex, slotByIndex.
    replace (Z.of_nat i <? 0) with false by (symmetry; apply Z.ltb_ge; lia).
    rewrite Nat2Z.id, Hi, Ho. discriminate.
  - exfalso. eapply getPartIntList_no_timeout; eassumption.
Qed.

(** A code whose slot holds its list is evaluated from that list, under any
    range name. *)
Lemma analyticalIntegral_live (E : Env) (P : RooProduct) (mgr : RooCacheManager)
  (code : Int_t) (rangeName : option string) (cache : CacheElem) :
  getObjByIndex mgr (code - 1) = Some cache ->
  analyticalIntegral E P mgr code rangeName
  = Done (calculate E (_prodList cache), mgr).
Proof.
  intros H. unfold analyticalIntegral. cbn [analyticalIntegralRec]. now rewrite H.
Qed.

(** A code whose slot is sterilised is revived by an evaluation under the
    range of the slot, when the persisted names are parameters of the
    product: the list is built again from the persisted names, stored into
    the same slot, and its product is returned. *)
Lemma analyticalIntegral_revive (E : Env) (P : RooProduct) (mgr : RooCacheManager)
  (i : nat) (s : CacheSlot) :
  cacheInv E P mgr -> nth_error mgr i = Some s -> slotObj s = None ->
  namesAreParameters E s ->
  exists m cache,
    groupProductTerms (dependsOn E) P (slotIset s) = Done m
    /\ (2 <= List.length m)%nat
    /\ buildLoop m (slotRange s) (mkCacheElem [] []) = Done cache
    /\ select (slotIset s) (getParameters E) = slotIset s
    /\ analyticalIntegral E P mgr (Z.of_nat i + 1) (slotRange s)
       = Done (calculate E (_prodList cache), setSlotObj i (Some cache) mgr)
    /\ cacheInv E P (setSlotObj i (Some cache) mgr).
Proof.
  intros Hinv Hi Ho Hpar. pose proof Hinv as [Hall Hkd].
  rewrite Forall_nth_error in Hall.
  destruct (Hall i s Hi) as (Hn & Hnorm & (m & cache & Hg & Hlen & Hb) & _).
  exists m, cache. split; [assumption |]. split; [assumption |].
  split; [assumption |].
  assert (select (slotIset s) (getParameters E) = slotIset s) as Hsel
    by (apply select_all; [now apply normal_NoDup | exact Hpar]).
  split; [assumption |].
  unfold analyticalIntegral. cbn [analyticalIntegralRec].
  unfold getObjByIndex, nameSet2ByIndex. rewrite slotByIndex_nat, Hi, Ho, Hsel.
  assert (findSlot mgr (slotIset s) (slotIset s) (RooNameReg_ptr (slotRange s)) 0
          = Some (i, s)) as Hf.
  { pose proof (findSlot_own_key mgr i s Hkd Hi) as Hf. now rewrite Hn in Hf. }
  pose proof (getPartIntList_revive E P mgr _ _ i s m cache Hf Ho Hg Hlen Hb)
    as Hget.
  rewrite Hget. cbn [bind]. rewrite Z.eqb_refl. cbn [c_assert bind].
  rewrite slotByIndex_nat, nth_error_setSlotObj, Nat.eqb_refl, Hi.
  split; [reflexivity |].
  eapply cacheInv_getPartIntList; [| exact Hget | exact Hinv].
  now apply normal_NoDup.
Qed.

(** An evaluation that revives a sterilised slot was made under the range of
    the slot, and every persisted name is a parameter of the product:
    otherwise the request of line 266 has another key and returns another
    code, and the assertion of line 269 fails. *)
Lemma analyticalIntegral_sterile_Done (E : Env) (P : RooProduct)
  (mgr mgr1 : RooCacheManager) (i : nat) (s : CacheSlot)
  (rangeName : option string) (v : Double_t) :
  cacheInv E P mgr -> nth_error mgr i = Some s -> slotObj s = None ->
  analyticalIntegral E P mgr (Z.of_nat i + 1) rangeName = Done (v, mgr1) ->
  RooNameReg_ptr rangeName = slotRange s /\ namesAreParameters E s.
Proof.
  intros [Hall _] Hi Ho. rewrite Forall_nth_error in Hall.
  destruct (Hall i s Hi) as (_ & Hnorm & _).
  unfold analyticalIntegral. cbn [analyticalIntegralRec].
  unfold getObjByIndex, nameSet2ByIndex. rewrite slotByIndex_nat, Hi, Ho.
  destruct (getPartIntList E P mgr (select (slotIset s) (getParameters E)) rangeName)
    as [[c mgr'] | |] eqn:Hget; cbn [bind]; try discriminate.
  destruct (Z.of_nat i + 1 =? c + 1) eqn:Hcode; cbn [c_assert bind];
    [| discriminate].
  intros _. apply Z.eqb_eq in Hcode.
  destruct (getPartIntList_slot _ _ _ _ _ _ _ Hget)
    as [-> | (i' & s' & obj & -> & Hf & Hi' & _)]; [lia |].
  assert (i' = i) by lia. subst i'.
  apply findSlot_Some in Hf. destruct Hf as (_ & _ & _ & Hkey & _).
  destruct (getPartIntList_keeps_slots _ _ _ _ _ _ _ Hget) as [_ Hkeep].
  destruct (Hkeep i s Hi) as (s'' & Hi'' & Hk & _).
  assert (s'' = s') by congruence. subst s''. rewrite Hk in Hkey.
  unfold normalKey, slotKey in Hkey. cbn [fst snd] in Hkey.
  injection Hkey as _ Hnames Htok. split; [assumption |].
  intros n Hn. rewrite Hnorm in Hnames.
  assert (In n (select (slotIset s) (getParameters E))) as Hin.
  { apply normalized_In. now rewrite Hnames. }
  apply select_In in Hin. tauto.
Qed.





(** * Further properties of RooProduct.cxx *)

(** ** forceAnalyticalInt *)

Lemma forceLoop_existsb (E : Env) (comps : RooArgSet) (dep : string) (depends : bool) :
  forceLoop E comps dep depends
  = depends || existsb (fun t => dependsOn E t dep) comps.
Proof.
  revert depends. induction comps as [| c comps IH]; intros depends; simpl.
  - now rewrite orb_false_r.
  - destruct depends; simpl; [reflexivity |]. now rewrite IH.
Qed.

(** X1: [forceAnalyticalInt] answers [true] exactly when some real term of
    the product depends on the observable. *)
Theorem forceAnalyticalInt_iff (E : Env) (P : RooProduct) (dep : string) :
  forceAnalyticalInt E P dep = true
  <-> exists t, In t (_compRSet P) /\ dependsOn E t dep = true.
Proof.
  unfold forceAnalyticalInt. rewrite forceLoop_existsb. simpl.
  apply existsb_exists.
Qed.

Lemma forceAnalyticalInt_iff_witness :
  forceAnalyticalInt envOne (mkRooProduct ["f"; "g"] [] None) "y" = true.
Proof.
  apply (proj2 (forceAnalyticalInt_iff envOne (mkRooProduct ["f"; "g"] [] None) "y")).
  exists "g". split; [simpl; tauto | reflexivity].
Defined.

(** X2: when [forceAnalyticalInt] holds for every variable of a request made
    on a cache that the product has reached, no assertion fails in
    [getPartIntList].  It returns -1 and leaves the cache as it is when the
    grouping has fewer than two groups; otherwise it returns the code of a
    slot that holds a list which the builder loop made for these variables and
    this range: the list of the groups of this very request when the lookup
    found no list, and the list found by the lookup otherwise. *)
Theorem getPartIntList_forced_vars (E : Env) (P : RooProduct)
  (mgr : RooCacheManager) (iset : RooArgSet) (isetRange : option string) :
  wfSet (_compRSet P) -> wfSet iset -> reachable E P mgr ->
  (forall v, In v iset -> forceAnalyticalInt E P v = true) ->
  exists code mgr' m,
    groupProductTerms (dependsOn E) P iset = Done m
    /\ getPartIntList E P mgr iset isetRange = Done (code, mgr')
    /\ ((code = -1 /\ mgr' = mgr /\ (List.length m < 2)%nat)
        \/ (0 <= code /\ (2 <= List.length m)%nat
            /\ exists obj,
                 getObjByIndex mgr' code = Some obj
                 /\ builtFor E P iset isetRange obj
                 /\ (lookupObj (getObj mgr iset iset (RooNameReg_ptr isetRange))
                     = None ->
                     buildLoop m isetRange (mkCacheElem [] []) = Done obj))).
Proof.
  unfold wfSet. intros HR HV Hreach Hforce.
  apply reachable_cacheInv in Hreach. destruct Hreach as [Hall _].
  rewrite Forall_nth_error in Hall.
  pose proof (groupProductTerms_Done (dependsOn E) P iset HR HV) as Hg0.
  assert (exists r, getPartIntList E P mgr iset isetRange = Done r) as (r & Hr).
  { unfold getPartIntList.
    destruct (lookupObj (getObj mgr iset iset (RooNameReg_ptr isetRange)));
      [eauto |].
    rewrite Hg0. cbn [bind].
    destruct (List.length (mergedMap (dependsOn E) P iset) <? 2)%nat; [eauto |].
    destruct (buildLoop_nonempty_Done (mergedMap (dependsOn E) P iset) isetRange
                (mkCacheElem [] [])) as (cache & ->).
    - apply nonempty_terms_mergedMap; [assumption |].
      intros v Hv. specialize (Hforce v Hv). unfold forceAnalyticalInt in Hforce.
      rewrite forceLoop_existsb in Hforce. now apply existsb_exists in Hforce.
    - cbn [bind].
      destruct (setObj mgr iset iset cache (RooNameReg_ptr isetRange)). eauto. }
  destruct r as [code mgr']. exists code, mgr', (mergedMap (dependsOn E) P iset).
  split; [assumption |]. split; [assumption |].
  apply getPartIntList_cases in Hr.
  destruct Hr as [i s obj Hf Ho | m Hlook Hg Hlen | i s m cache Hf Ho Hg Hlen Hb
                  | m cache Hf Hg Hlen Hb].
  - right. pose proof Hf as Hf'. apply findSlot_Some in Hf'.
    destruct Hf' as (j & Hij & Hj & Hkey & _). simpl in Hij. subst j.
    split; [lia |].
    split; [exact (slot_two_groups E P s iset _ _ (Hall i s Hj) Hkey Hg0) |].
    exists obj. split; [| split].
    + unfold getObjByIndex. now rewrite slotByIndex_of_nat, Hj.
    + destruct (Hall i s Hj) as (_ & _ & _ & Hpay).
      destruct (Hpay obj Ho) as (iset0 & m0 & Hnd0 & Hsame0 & Hg1 & Hlen1 & Hb1).
      unfold normalKey, slotKey in Hkey. cbn [fst snd] in Hkey.
      injection Hkey as _ Hnames Htok. apply normalized_eq in Hnames.
      exists iset0, m0. split; [assumption |]. split.
      * intros x. rewrite (Hsame0 x). symmetry. apply Hnames.
      * split; [assumption |]. split; [assumption |].
        unfold RooNameReg_ptr in Htok. now rewrite Htok.
    + rewrite (getObj_found _ _ _ _ _ _ _ Hf Ho). discriminate.
  - left. rewrite Hg0 in Hg. injection Hg as <-. auto.
  - right. rewrite Hg0 in Hg. injection Hg as <-. split; [lia |].
    split; [assumption |]. exists cache. split; [| split].
    + apply findSlot_Some in Hf. destruct Hf as (j & Hij & Hj & _).
      simpl in Hij. subst j. unfold getObjByIndex.
      now rewrite slotByIndex_of_nat, nth_error_setSlotObj, Nat.eqb_refl, Hj.
    + exists iset, (mergedMap (dependsOn E) P iset).
      split; [assumption |]. split; [intros x; tauto |]. auto.
    + intros _. assumption.
  - right. rewrite Hg0 in Hg. injection Hg as <-. split; [lia |].
    split; [assumption |]. exists cache. split; [| split].
    + unfold getObjByIndex. rewrite slotByIndex_of_nat.
      rewrite nth_error_app2 by lia. now rewrite Nat.sub_diag.
    + exists iset, (mergedMap (dependsOn E) P iset).
      split; [assumption |]. split; [intros x; tauto |]. auto.
    + intros _. assumption.
Qed.

Lemma getPartIntList_forced_vars_witness :
  exists mgr' m obj,
    groupProductTerms depXY (mkRooProduct ["f"; "g"] [] None) ["y"; "x"] = Done m
    /\ getPartIntList envOne (mkRooProduct ["f"; "g"] [] None) [] ["y"; "x"] None
       = Done (0, mgr')
    /\ getObjByIndex mgr' 0 = Some obj
    /\ buildLoop m None (mkCacheElem [] []) = Done obj.
Proof.
  destruct (getPartIntList_forced_vars envOne (mkRooProduct ["f"; "g"] [] None) []
              ["y"; "x"] None)
    as (code & mgr' & m & Hg & Hget & Hcase);
    [nodup_strings | nodup_strings | apply reach_init
     | intros v [<- | [<- | []]]; reflexivity |].
  assert (code = 0) as -> by (vm_compute in Hget; congruence).
  destruct Hcase as [(Hcode & _) | (_ & _ & obj & Hobj & _ & Hbuilt)];
    [discriminate |].
  exists mgr', m, obj. split; [exact Hg |]. split; [exact Hget |].
  split; [exact Hobj |]. apply Hbuilt. reflexivity.
Defined.

(** ** The constructor *)

Lemma ctorLoop_filter (classOf : string -> ArgKind) (prodSet R C : RooArgSet) :
  NoDup (R ++ prodSet) -> NoDup (C ++ prodSet) ->
  match ctorLoop classOf prodSet R C with
  | Done sets =>
      Forall (fun c => classOf c <> KOther) prodSet
      /\ fst sets = R ++ filter (isReal classOf) prodSet
      /\ snd sets = C ++ filter (isCategory classOf) prodSet
  | Aborted => Exists (fun c => classOf c = KOther) prodSet
  | OutOfFuel => False
  end.
Proof.
  revert R C. induction prodSet as [| c prodSet IH]; intros R C HR HC; simpl.
  - rewrite !app_nil_r. repeat split. constructor.
  - assert (~ In c R) as HcR.
    { intros Hin. apply NoDup_remove_2 in HR. apply HR, in_app_iff. now left. }
    assert (~ In c C) as HcC.
    { intros Hin. apply NoDup_remove_2 in HC. apply HC, in_app_iff. now left. }
    unfold isReal, isCategory. destruct (classOf c) eqn:Hk.
    + rewrite add_fresh by assumption.
      specialize (IH (R ++ [c]) C). rewrite <- app_assoc in IH.
      specialize (IH HR (NoDup_remove_1 _ _ _ HC)).
      destruct (ctorLoop classOf prodSet (R ++ [c]) C) as [sets | |].
      * destruct IH as (Hall & H1 & H2). repeat split; try assumption.
        -- constructor; [congruence | assumption].
        -- rewrite H1, <- app_assoc. reflexivity.
      * now apply Exists_cons_tl.
      * assumption.
    + rewrite add_fresh by assumption.
      specialize (IH R (C ++ [c])). rewrite <- app_assoc in IH.
      specialize (IH (NoDup_remove_1 _ _ _ HR) HC).
      destruct (ctorLoop classOf prodSet R (C ++ [c])) as [sets | |].
      * destruct IH as (Hall & H1 & H2). repeat split; try assumption.
        -- constructor; [congruence | assumption].
        -- rewrite H2, <- app_assoc. reflexivity.
      * now apply Exists_cons_tl.
      * assumption.
    + now apply Exists_cons_hd.
Qed.

(** X3: the constructor accepts a set exactly when every component is a real
    or a category; the real components then form [_compRSet] and the
    categories [_compCSet], each in the order of the set, and every component
    is in exactly one of the two; any other component aborts the
    construction. *)
Theorem RooProduct_ctor_partition (classOf : string -> ArgKind)
  (prodSet : RooArgSet) :
  wfSet prodSet ->
  match RooProduct_ctor classOf prodSet with
  | Done P =>
      Forall (fun c => classOf c <> KOther) prodSet
      /\ P = mkRooProduct (filter (isReal classOf) prodSet)
               (filter (isCategory classOf) prodSet) None
      /\ wfSet (_compRSet P) /\ wfSet (_compCSet P)
      /\ Permutation (_compRSet P ++ _compCSet P) prodSet
  | Aborted => Exists (fun c => classOf c = KOther) prodSet
  | OutOfFuel => False
  end.
Proof.
  unfold wfSet, RooProduct_ctor. intros Hnd.
  pose proof (ctorLoop_filter classOf prodSet [] [] Hnd Hnd) as H.
  destruct (ctorLoop classOf prodSet [] []) as [[R C] | |]; cbn [bind];
    [| assumption | assumption].
  simpl in H. destruct H as (Hall & -> & ->). simpl.
  split; [assumption |]. split; [reflexivity |].
  split; [now apply NoDup_filter |]. split; [now apply NoDup_filter |].
  clear Hnd. induction Hall as [| c l Hc _ IH]; simpl; [constructor |].
  unfold isReal, isCategory in *. destruct (classOf c); simpl.
  - now constructor.
  - apply Permutation_sym. apply Permutation_cons_app. now apply Permutation_sym.
  - congruence.
Qed.

Lemma RooProduct_ctor_partition_witness :
  let classOf := fun a : string => if String.eqb a "c" then KCategory else KReal in
  RooProduct_ctor classOf ["f"; "c"; "g"]
  = Done (mkRooProduct ["f"; "g"] ["c"] None).
Proof.
  intros classOf.
  pose proof (RooProduct_ctor_partition classOf ["f"; "c"; "g"]) as H.
  destruct (RooProduct_ctor classOf ["f"; "c"; "g"]) as [P | |].
  - destruct H as (_ & -> & _); [nodup_strings | reflexivity].
  - exfalso. assert (NoDup ["f"; "c"; "g"]) as Hnd by nodup_strings.
    specialize (H Hnd). apply Exists_exists in H.
    destruct H as (x & [<- | [<- | [<- | []]]] & Hx); discriminate.
  - exfalso. apply H. nodup_strings.
Defined.

(** ** Dependencies between the groups *)

(** X4: in the grouper's result the terms of a group are exactly the real
    terms that depend on one of the group's variables (for the group without
    variables: on no integration variable), and no term of a group depends on
    a variable of another group. *)
Theorem groupProductTerms_dependencies (dep : string -> string -> bool)
  (P : RooProduct) (allVars : RooArgSet) :
  wfSet (_compRSet P) -> wfSet allVars ->
  exists m,
    groupProductTerms dep P allVars = Done m
    /\ (forall g, In g m ->
          incl (fst g) allVars /\ termsOfGroup dep (_compRSet P) allVars g)
    /\ (forall i j gi gj, i <> j ->
          nth_error m i = Some gi -> nth_error m j = Some gj ->
          forall t v, In t (snd gj) -> In v (fst gi) -> dep t v = false).
Proof.
  unfold wfSet. intros HR HV. exists (mergedMap dep P allVars).
  split; [now apply groupProductTerms_Done |].
  pose proof (mergedMap_groupsInv dep P allVars HR) as Hinv.
  unfold groupsInv in Hinv. rewrite Forall_forall in Hinv.
  split; [exact Hinv |].
  intros i j gi gj Hij Hi Hj t v Ht Hv.
  destruct (dep t v) eqn:Hd; [exfalso | reflexivity].
  destruct (Hinv gi (nth_error_In _ _ Hi)) as [_ Hgi].
  destruct (Hinv gj (nth_error_In _ _ Hj)) as [_ Hgj].
  assert (In t (snd gi)) as Hti.
  { apply Hgi. split; [now apply Hgj in Ht |]. right. eauto. }
  pose proof (mergedMap_noOverlap dep P allVars) as Hno.
  destruct (Nat.lt_total i j) as [Hlt | [Heq | Hgt]]; [| contradiction |].
  - pose proof (ForallOrdPairs_nth Hno i j gi gj Hlt Hi Hj) as Hov.
    rewrite overlaps_false in Hov. exact (Hov t Hti Ht).
  - pose proof (ForallOrdPairs_nth Hno j i gj gi Hgt Hj Hi) as Hov.
    rewrite overlaps_false in Hov. exact (Hov t Ht Hti).
Qed.

Lemma groupProductTerms_dependencies_witness :
  exists m,
    groupProductTerms depChain (mkRooProduct ["f"; "g"; "k"] [] None)
      ["x"; "y"; "z"] = Done m
    /\ (forall i j gi gj, i <> j ->
          nth_error m i = Some gi -> nth_error m j = Some gj ->
          forall t v, In t (snd gj) -> In v (fst gi) -> depChain t v = false).
Proof.
  destruct (groupProductTerms_dependencies depChain
              (mkRooProduct ["f"; "g"; "k"] [] None) ["x"; "y"; "z"])
    as (m & Hm & _ & Hcross); [nodup_strings | nodup_strings |].
  exists m. split; assumption.
Defined.

(** ** How many groups *)

Lemma mergeSteps_length (m m' : ProdMap) :
  mergeSteps m m' ->
  (List.length m' <= List.length m)%nat /\ (m <> [] -> m' <> []).
Proof.
  induction 1 as [| m m1 m2 H1 _ IH]; [split; [lia | tauto] |].
  destruct IH as [Hle Hne]. split.
  - apply mergeStep_length in H1. lia.
  - intros _. apply Hne. destruct H1. now destruct l1.
Qed.

Lemma initialMap_length (dep : string -> string -> bool) (P : RooProduct)
  (allVars : RooArgSet) :
  NoDup (_compRSet P) ->
  List.length (initialMap dep P allVars)
  = (match indepTerms dep P allVars with [] => 0 | _ :: _ => 1 end
     + List.length allVars)%nat.
Proof.
  intros Hnd. rewrite initialMap_eq by assumption.
  rewrite length_app, length_map. now destruct (indepTerms dep P allVars).
Qed.

(** X5: the grouper returns at most one group per integration variable, and
    one more when some real term depends on none of them; it returns at least
    one group unless there is neither a variable nor a real term. *)
Theorem groupProductTerms_count (dep : string -> string -> bool)
  (P : RooProduct) (allVars : RooArgSet) :
  wfSet (_compRSet P) -> wfSet allVars ->
  exists m,
    groupProductTerms dep P allVars = Done m
    /\ (List.length m
        <= match indepTerms dep P allVars with [] => 0 | _ :: _ => 1 end
           + List.length allVars)%nat
    /\ (m = [] <-> _compRSet P = [] /\ allVars = []).
Proof.
  unfold wfSet. intros HR HV. exists (mergedMap dep P allVars).
  split; [now apply groupProductTerms_Done |].
  destruct (mergeSteps_length _ _ (mergedMap_steps dep P allVars)) as [Hle Hne].
  rewrite initialMap_length in Hle by assumption.
  split; [assumption |]. split.
  - intros Hm. rewrite Hm in Hle.
    destruct (initialMap dep P allVars) as [| g0 m0] eqn:Hinit.
    + pose proof (initialMap_length dep P allVars HR) as Hlen.
      rewrite Hinit in Hlen. simpl in Hlen.
      destruct allVars; [| simpl in Hlen; lia].
      split; [| reflexivity].
      destruct (_compRSet P) as [| t ts] eqn:HRe; [reflexivity |].
      unfold indepTerms in Hlen. rewrite HRe in Hlen. simpl in Hlen. lia.
    + exfalso. now apply Hne.
  - intros [HRe ->]. unfold mergedMap, initialMap. rewrite HRe. reflexivity.
Qed.

Lemma groupProductTerms_count_witness :
  exists m,
    groupProductTerms depXY (mkRooProduct ["f"; "g"; "h"] [] None) ["x"; "y"] = Done m
    /\ (List.length m <= 2)%nat.
Proof.
  destruct (groupProductTerms_count depXY (mkRooProduct ["f"; "g"; "h"] [] None)
              ["x"; "y"]) as (m & Hm & Hle & _); [nodup_strings | nodup_strings |].
  exists m. split; [assumption | exact Hle].
Defined.

(** ** Requests that cannot factorise *)

(** X6: a request over no variable, or over a single variable that every real
    term depends on, never factorises: [getPartIntList] returns -1 and stores
    nothing, and [getAnalyticalIntegralWN] returns the code 0. *)
Theorem getPartIntList_single_group (E : Env) (P : RooProduct)
  (mgr : RooCacheManager) (iset : RooArgSet) (isetRange : option string) :
  wfSet (_compRSet P) -> wfSet iset -> reachable E P mgr ->
  (match indepTerms (dependsOn E) P iset with [] => 0 | _ :: _ => 1 end
   + List.length iset < 2)%nat ->
  getPartIntList E P mgr iset isetRange = Done (-1, mgr)
  /\ getAnalyticalIntegralWN E P false mgr iset [] None isetRange
     = Done (0, iset, mgr).
Proof.
  unfold wfSet. intros HR HV Hreach Hfew.
  assert (getPartIntList E P mgr iset isetRange = Done (-1, mgr)) as Hget.
  { apply getPartIntList_few_groups with (m := mergedMap (dependsOn E) P iset).
    - now apply reachable_cacheInv.
    - now apply groupProductTerms_Done.
    - destruct (mergeSteps_length _ _ (mergedMap_steps (dependsOn E) P iset))
        as [Hle _].
      rewrite initialMap_length in Hle by assumption. lia. }
  split; [assumption |].
  unfold getAnalyticalIntegralWN. cbn [c_assert bind].
  rewrite (addAll_disjoint iset [] HV) by (intros x []).
  cbn [app]. rewrite Hget. reflexivity.
Qed.

Lemma getPartIntList_single_group_witness :
  getPartIntList envOne (mkRooProduct ["f"; "h"] [] None) [] ["x"] None
  = Done (-1, [])
  /\ getAnalyticalIntegralWN envOne (mkRooProduct ["f"; "h"] [] None) false []
       ["x"] [] None None = Done (0, ["x"], []).
Proof.
  apply (getPartIntList_single_group envOne (mkRooProduct ["f"; "h"] [] None)
           [] ["x"] None);
    [nodup_strings | nodup_strings | apply reach_init | vm_compute; lia].
Defined.

(** ** What the builder stores *)

Lemma buildLoop_shape (m : ProdMap) (r : option string) (c c' : CacheElem) :
  buildLoop m r c = Done c' ->
  _prodList c' = _prodList c ++ List.map (factorOf r) m
  /\ _ownedList c' = _ownedList c ++ flat_map (ownedOf r) m.
Proof.
  revert c. induction m as [| [vars terms] m IH]; intros c H.
  - injection H as <-. simpl. now rewrite !app_nil_r.
  - cbn [buildLoop snd fst] in H.
    destruct (buildTerm terms c) as [[term c1] | |] eqn:Hbt; cbn [bind] in H;
      try discriminate.
    apply IH in H. destruct H as [Hp Ho]. rewrite Hp, Ho. clear Hp Ho IH.
    cbn [List.map flat_map]. unfold factorOf, ownedOf, termOf. cbn [fst snd].
    unfold buildTerm in Hbt. destruct (1 <? getSize terms) eqn:Hbig.
    + injection Hbt as <- <-.
      destruct (getSize vars =? 0); simpl; rewrite <- ?app_assoc; split; reflexivity.
    + destruct (getSize terms =? 1); [| discriminate]. cbn [c_assert bind] in Hbt.
      destruct terms as [| j terms]; [discriminate |]. injection Hbt as <- <-.
      destruct (getSize vars =? 0); simpl; rewrite <- ?app_assoc; split; reflexivity.
Qed.

(** X7: the list built for a sequence of groups has one factor per group, in
    the order of the groups: the group's term, or the sub-product of its
    terms, as it is when the group has no variable, and otherwise its integral
    over exactly the group's variables and the requested range; [calculate]
    multiplies the values of these factors. *)
Theorem buildLoop_factors (E : Env) (m : ProdMap) (isetRange : option string)
  (cache : CacheElem) :
  buildLoop m isetRange (mkCacheElem [] []) = Done cache ->
  _prodList cache = List.map (factorOf isetRange) m
  /\ List.length (_prodList cache) = List.length m
  /\ calculate E (_prodList cache)
     = productFrom 1%float
         (List.map (fun g => objVal E (factorOf isetRange g)) m).
Proof.
  intros H. apply buildLoop_shape in H. destruct H as [Hp _]. simpl in Hp.
  rewrite Hp. split; [reflexivity |]. split; [apply length_map |].
  rewrite calculate_product, map_map. reflexivity.
Qed.

Lemma buildLoop_factors_witness :
  exists cache,
    buildLoop [([], ["g"]); (["x"; "y"], ["f"; "h"])] None (mkCacheElem [] [])
    = Done cache
    /\ _prodList cache
       = [Term "g";
          Integral (SubProduct "SUBPROD_f_X_h" ["f"; "h"]) ["x"; "y"] None].
Proof.
  eexists. split; [reflexivity |].
  apply (proj1 (buildLoop_factors envOne
                  [([], ["g"]); (["x"; "y"], ["f"; "h"])] None _ eq_refl)).
Defined.

(** X8: the cache entry owns what the builder creates and nothing else: a
    term of the product is never owned, every sub-product and every integral
    of the list is, and so is the sub-product inside an integral. *)
Theorem buildLoop_ownership (m : ProdMap) (isetRange : option string)
  (cache : CacheElem) :
  buildLoop m isetRange (mkCacheElem [] []) = Done cache ->
  (forall t, ~ In (Term t) (containedArgs cache))
  /\ (forall a, In a (_prodList cache) ->
        (exists t, a = Term t) \/ In a (containedArgs cache))
  /\ (forall f vars r, In (Integral f vars r) (_prodList cache) ->
        (exists t, f = Term t) \/ In f (containedArgs cache)).
Proof.
  intros H. apply buildLoop_shape in H. destruct H as [Hp Ho]. simpl in Hp, Ho.
  unfold containedArgs. rewrite Hp, Ho. clear Hp Ho cache.
  assert (forall g a, In a (ownedOf isetRange g) ->
            a = termOf (snd g) /\ (1 <? getSize (snd g)) = true
            \/ a = Integral (termOf (snd g)) (fst g) isetRange
               /\ (getSize (fst g) =? 0) = false) as Hown.
  { intros g a Ha. unfold ownedOf in Ha. apply in_app_iff in Ha.
    destruct (1 <? getSize (snd g)), (getSize (fst g) =? 0), Ha as [Ha | Ha];
      simpl in Ha; intuition auto. }
  assert (forall g a, In a (ownedOf isetRange g) -> forall t, a <> Term t) as Hnot.
  { intros g a Ha t. destruct (Hown g a Ha) as [[-> Hbig] | [-> _]]; [| discriminate].
    unfold termOf. rewrite Hbig. discriminate. }
  assert (forall g, (exists t, termOf (snd g) = Term t)
                    \/ In (termOf (snd g)) (ownedOf isetRange g)) as Hterm.
  { intros g. unfold ownedOf, termOf. destruct (1 <? getSize (snd g)).
    - right. apply in_app_iff. left. now left.
    - left. eauto. }
  split; [| split].
  - intros t Hin. apply in_flat_map in Hin. destruct Hin as (g & _ & Ha).
    exact (Hnot g _ Ha t eq_refl).
  - intros a Ha. apply in_map_iff in Ha. destruct Ha as (g & <- & Hg).
    unfold factorOf. destruct (getSize (fst g) =? 0) eqn:Hv.
    + destruct (Hterm g) as [Ht | Ht]; [now left |].
      right. apply in_flat_map. eauto.
    + right. apply in_flat_map. exists g. split; [assumption |].
      unfold ownedOf. rewrite Hv. apply in_app_iff. right. now left.
  - intros f vars r Ha. apply in_map_iff in Ha. destruct Ha as (g & Heq & Hg).
    unfold factorOf in Heq. destruct (getSize (fst g) =? 0) eqn:Hv.
    + unfold termOf in Heq. destruct (1 <? getSize (snd g)); discriminate.
    + injection Heq as <- _ _.
      destruct (Hterm g) as [Ht | Ht]; [now left |].
      right. apply in_flat_map. eauto.
Qed.

Lemma buildLoop_ownership_witness :
  exists cache,
    buildLoop [([], ["g"]); (["x"; "y"], ["f"; "h"])] None (mkCacheElem [] [])
    = Done cache
    /\ (forall t, ~ In (Term t) (containedArgs cache)).
Proof.
  eexists. split; [reflexivity |].
  apply (proj1 (buildLoop_ownership
                  [([], ["g"]); (["x"; "y"], ["f"; "h"])] None _ eq_refl)).
Defined.

(** ** Codes *)

Lemma getAnalyticalIntegralWN_inv (E : Env) (P : RooProduct) (forceNumInt : bool)
  (mgr mgr' : RooCacheManager) (allVars analVars analVars' : RooArgSet)
  (normSet : option RooArgSet) (rangeName : option string) (code : Int_t) :
  getAnalyticalIntegralWN E P forceNumInt mgr allVars analVars normSet rangeName
  = Done (code, analVars', mgr') ->
  (forceNumInt = true /\ code = 0 /\ analVars' = analVars /\ mgr' = mgr)
  \/ (forceNumInt = false /\ normSet = None /\ analVars = []
      /\ analVars' = addAll [] allVars
      /\ getPartIntList E P mgr analVars' rangeName = Done (code - 1, mgr')).
Proof.
  unfold getAnalyticalIntegralWN. destruct forceNumInt.
  - intros H. injection H as <- <- <-. left. auto.
  - destruct normSet; cbn [c_assert bind]; [discriminate |].
    destruct (getSize analVars =? 0) eqn:Hsz; cbn [c_assert bind]; [| discriminate].
    assert (analVars = []) as ->.
    { destruct analVars; [reflexivity |]. unfold getSize in Hsz. simpl in Hsz.
      discriminate. }
    destruct (getPartIntList E P mgr (addAll [] allVars) rangeName)
      as [[c m1] | |] eqn:Hget; cbn [bind]; try discriminate.
    intros H. injection H as <- <- <-. right.
    replace (c + 1 - 1) with c by lia. auto.
Qed.

(** X9: a non-zero code returned by [getAnalyticalIntegralWN] can be evaluated
    at once: [analyticalIntegral] finds the list in the slot behind the code,
    returns the product of the values of its factors and leaves the cache as
    it is. *)
Theorem analyticalIntegral_of_issued_code (E : Env) (P : RooProduct)
  (forceNumInt : bool) (mgr mgr' : RooCacheManager)
  (allVars analVars analVars' : RooArgSet) (normSet : option RooArgSet)
  (rangeName rangeName' : option string) (code : Int_t) :
  getAnalyticalIntegralWN E P forceNumInt mgr allVars analVars normSet rangeName
  = Done (code, analVars', mgr') ->
  code <> 0 ->
  exists cache,
    getObjByIndex mgr' (code - 1) = Some cache
    /\ analyticalIntegral E P mgr' code rangeName'
       = Done (productFrom 1%float (List.map (objVal E) (_prodList cache)), mgr').
Proof.
  intros H Hcode. apply getAnalyticalIntegralWN_inv in H.
  destruct H as [(_ & -> & _) | (_ & _ & _ & _ & Hget)]; [congruence |].
  destruct (getPartIntList_slot _ _ _ _ _ _ _ Hget)
    as [Hc | (i & s & obj & Hc & _ & Hi & Ho)]; [lia |].
  exists obj.
  assert (getObjByIndex mgr' (code - 1) = Some obj) as Hobj.
  { unfold getObjByIndex. now rewrite Hc, slotByIndex_of_nat, Hi. }
  split; [assumption |].
  unfold analyticalIntegral. cbn [analyticalIntegralRec]. rewrite Hobj.
  now rewrite calculate_product.
Qed.

Lemma analyticalIntegral_of_issued_code_witness :
  exists cache mgr',
    getAnalyticalIntegralWN envOne (mkRooProduct ["f"; "g"] [] None) false []
      ["x"] [] None None = Done (1, ["x"], mgr')
    /\ getObjByIndex mgr' (1 - 1) = Some cache
    /\ analyticalIntegral envOne (mkRooProduct ["f"; "g"] [] None) mgr' 1 None
       = Done (productFrom 1%float (List.map (objVal envOne) (_prodList cache)),
               mgr').
Proof.
  destruct (analyticalIntegral_of_issued_code envOne
              (mkRooProduct ["f"; "g"] [] None) false [] _ ["x"] [] _ None None
              None 1 eq_refl) as (cache & Hobj & Hval); [lia |].
  exists cache. eexists. split; [reflexivity |]. split; [exact Hobj | exact Hval].
Defined.

Lemma getPartIntList_code_range (E : Env) (P : RooProduct)
  (mgr mgr' : RooCacheManager) (iset : RooArgSet) (isetRange : option string)
  (code : Int_t) :
  getPartIntList E P mgr iset isetRange = Done (code, mgr') ->
  -1 <= code < Z.of_nat (List.length mgr').
Proof.
  intros H. destruct (getPartIntList_slot _ _ _ _ _ _ _ H)
    as [-> | (i & s & obj & -> & _ & Hi & _)]; [lia |].
  assert (i < List.length mgr')%nat by (apply nth_error_Some; congruence). lia.
Qed.

(** X10: unless numerical integration is forced, [getAnalyticalIntegralWN]
    requires a null normalisation set and an empty [analVars] and aborts
    otherwise; when it returns, it has declared all requested variables in
    [analVars], also when the code is 0, and the code is between 0 and the
    number of slots of the cache. *)
Theorem getAnalyticalIntegralWN_result (E : Env) (P : RooProduct)
  (mgr : RooCacheManager) (allVars analVars : RooArgSet)
  (normSet : option RooArgSet) (rangeName : option string) :
  wfSet allVars ->
  (normSet <> None \/ analVars <> [] ->
   getAnalyticalIntegralWN E P false mgr allVars analVars normSet rangeName
   = Aborted)
  /\ (forall code analVars' mgr',
        getAnalyticalIntegralWN E P false mgr allVars analVars normSet rangeName
        = Done (code, analVars', mgr') ->
        analVars' = allVars
        /\ 0 <= code <= Z.of_nat (List.length mgr')).
Proof.
  unfold wfSet. intros HV. split.
  - unfold getAnalyticalIntegralWN. intros [Hn | Ha].
    + destruct normSet; [reflexivity | congruence].
    + destruct normSet; [reflexivity |]. cbn [c_assert bind].
      destruct analVars; [congruence |]. reflexivity.
  - intros code analVars' mgr' H. apply getAnalyticalIntegralWN_inv in H.
    destruct H as [(Hf & _) | (_ & _ & _ & -> & Hget)]; [discriminate |].
    rewrite (addAll_disjoint allVars [] HV) in * by (intros x []).
    cbn [app] in *. split; [reflexivity |].
    apply getPartIntList_code_range in Hget. lia.
Qed.

Lemma getAnalyticalIntegralWN_result_witness :
  getAnalyticalIntegralWN envOne (mkRooProduct ["f"; "g"] [] None) false []
    ["x"] ["y"] None None = Aborted.
Proof.
  apply (proj1 (getAnalyticalIntegralWN_result envOne
                  (mkRooProduct ["f"; "g"] [] None) [] ["x"] ["y"] None None
                  ltac:(nodup_strings))).
  right. discriminate.
Defined.

(** ** Codes stay valid *)

(** X11: a request never removes a slot, changes the key of a slot or drops
    a list that a slot holds, and it adds at most one slot; so a code that
    could be evaluated before the request gives the same value after it. *)
Theorem getPartIntList_keeps_codes (E : Env) (P : RooProduct)
  (mgr mgr' : RooCacheManager) (iset : RooArgSet) (isetRange : option string)
  (code : Int_t) :
  getPartIntList E P mgr iset isetRange = Done (code, mgr') ->
  (List.length mgr <= List.length mgr' <= S (List.length mgr))%nat
  /\ (forall i s, nth_error mgr i = Some s ->
        exists s', nth_error mgr' i = Some s' /\ slotKey s' = slotKey s)
  /\ (forall code0 cache rangeName,
        getObjByIndex mgr (code0 - 1) = Some cache ->
        analyticalIntegral E P mgr code0 rangeName
        = Done (calculate E (_prodList cache), mgr)
        /\ analyticalIntegral E P mgr' code0 rangeName
           = Done (calculate E (_prodList cache), mgr')).
Proof.
  intros H. destruct (getPartIntList_keeps_slots _ _ _ _ _ _ _ H) as [Hlen Hkeep].
  split; [assumption |]. split.
  - intros i s Hi. destruct (Hkeep i s Hi) as (s' & Hs' & Hk & _). eauto.
  - intros code0 cache rangeName Hobj.
    assert (getObjByIndex mgr' (code0 - 1) = Some cache) as Hobj'.
    { unfold getObjByIndex in *.
      destruct (slotByIndex mgr (code0 - 1)) as [s |] eqn:Hs; [| discriminate].
      apply slotByIndex_Some in Hs. destruct Hs as [Hc Hi].
      destruct (Hkeep _ s Hi) as (s' & Hs' & _ & Hsame).
      rewrite Hc, slotByIndex_of_nat, Hs'. now apply Hsame. }
    unfold analyticalIntegral. cbn [analyticalIntegralRec].
    rewrite Hobj, Hobj'. split; reflexivity.
Qed.

Lemma getPartIntList_keeps_codes_witness :
  let P := mkRooProduct ["f"; "g"] [] None in
  let s := mkSlot ["x"] ["x"] None
             (Some (mkCacheElem [Term "g"; Integral (Term "f") ["x"] None]
                      [Integral (Term "f") ["x"] None])) in
  exists mgr',
    getPartIntList envOne P [s] ["y"] None = Done (1, mgr')
    /\ analyticalIntegral envOne P mgr' 1 None = Done (10%float, mgr').
Proof.
  intros P s. eexists. split; [reflexivity |].
  apply (proj2 (proj2 (getPartIntList_keeps_codes envOne P [s] _ ["y"] None 1
                         eq_refl)) 1 _ None eq_refl).
Defined.

(** X12: on a cache reached by the product, the codes that can be evaluated
    are known.  A code between 1 and the number of slots whose slot holds its
    list gives the product of that list under any range name.  A code whose
    slot is sterilised is revived in place, from the persisted names, exactly
    when the range name is the one of the slot and the persisted names are all
    parameters of the product; otherwise the evaluation aborts.  Every other
    code aborts. *)
Theorem analyticalIntegral_known_codes (E : Env) (P : RooProduct)
  (mgr : RooCacheManager) (code : Int_t) :
  reachable E P mgr ->
  (forall s, slotByIndex mgr (code - 1) = Some s ->
     1 <= code <= Z.of_nat (List.length mgr)
     /\ (forall obj rangeName, slotObj s = Some obj ->
           analyticalIntegral E P mgr code rangeName
           = Done (calculate E (_prodList obj), mgr))
     /\ (slotObj s = None ->
         forall rangeName,
           (RooNameReg_ptr rangeName = slotRange s /\ namesAreParameters E s ->
            exists cache,
              buildLoop (mergedMap (dependsOn E) P (slotIset s)) rangeName
                (mkCacheElem [] []) = Done cache
              /\ analyticalIntegral E P mgr code rangeName
                 = Done (calculate E (_prodList cache),
                         setSlotObj (Z.to_nat (code - 1)) (Some cache) mgr))
           /\ (~ (RooNameReg_ptr rangeName = slotRange s /\ namesAreParameters E s) ->
               analyticalIntegral E P mgr code rangeName = Aborted)))
  /\ (slotByIndex mgr (code - 1) = None ->
      (code <= 0 \/ Z.of_nat (List.length mgr) < code)
      /\ forall rangeName, analyticalIntegral E P mgr code rangeName = Aborted).
Proof.
  intros Hreach. apply reachable_cacheInv in Hreach. split.
  - intros s Hs. apply slotByIndex_Some in Hs. destruct Hs as [Hc Hi].
    set (i := Z.to_nat (code - 1)) in *.
    assert (i < List.length mgr)%nat as Hlt by (apply nth_error_Some; congruence).
    assert (code = Z.of_nat i + 1) as Hcode by lia.
    split; [lia |]. split.
    + intros obj rangeName Ho. apply analyticalIntegral_live.
      unfold getObjByIndex. now rewrite Hcode, slotByIndex_nat, Hi.
    + intros Ho rangeName. split.
      * intros [Hrange Hpar]. unfold RooNameReg_ptr in Hrange. subst rangeName.
        destruct (analyticalIntegral_revive E P mgr i s Hreach Hi Ho Hpar)
          as (m & cache & Hg & _ & Hb & _ & Hval & _).
        exists cache. rewrite <- (groupProductTerms_inv _ _ _ _ Hg).
        split; [assumption |]. now rewrite Hcode.
      * intros Hnot.
        destruct (analyticalIntegral E P mgr code rangeName) as [[v mgr1] | |] eqn:Hval;
          [| reflexivity |].
        -- exfalso. apply Hnot. rewrite Hcode in Hval.
           eapply analyticalIntegral_sterile_Done; eassumption.
        -- now apply analyticalIntegral_no_timeout in Hval.
  - intros Hnone. split.
    + unfold slotByIndex in Hnone. destruct (code - 1 <? 0) eqn:Hneg.
      * apply Z.ltb_lt in Hneg. lia.
      * apply Z.ltb_ge in Hneg. apply nth_error_None in Hnone. lia.
    + intros rangeName. unfold analyticalIntegral. cbn [analyticalIntegralRec].
      unfold getObjByIndex, nameSet2ByIndex. now rewrite Hnone.
Qed.

Lemma analyticalIntegral_known_codes_witness :
  let P := mkRooProduct ["f"; "g"] [] None in
  let s := mkSlot ["x"; "y"] ["x"; "y"] None None in
  getPartIntList envOne P [] ["y"; "x"] None
  = Done (0, [mkSlot ["x"; "y"] ["x"; "y"] None
                (Some (mkCacheElem
                         [Integral (Term "g") ["y"] None;
                          Integral (Term "f") ["x"] None]
                         [Integral (Term "g") ["y"] None;
                          Integral (Term "f") ["x"] None]))])
  /\ (exists cache,
        buildLoop [(["x"], ["f"]); (["y"], ["g"])] None (mkCacheElem [] [])
        = Done cache
        /\ analyticalIntegral envOne P [s] 1 None
           = Done (calculate envOne (_prodList cache),
                   setSlotObj 0 (Some cache) [s]))
  /\ analyticalIntegral envOne P [s] 1 (Some "sig") = Aborted
  /\ analyticalIntegral envOne P [s] 2 None = Aborted.
Proof.
  intros P s. split; [reflexivity |].
  assert (reachable envOne P [s]) as Hreach.
  { apply (reach_sterilize envOne P
             [mkSlot ["x"; "y"] ["x"; "y"] None
                (Some (mkCacheElem
                         [Integral (Term "g") ["y"] None;
                          Integral (Term "f") ["x"] None]
                         [Integral (Term "g") ["y"] None;
                          Integral (Term "f") ["x"] None]))]).
    apply (reach_getPartIntList envOne P [] ["y"; "x"] None 0);
      [apply reach_init | nodup_strings | reflexivity]. }
  destruct (analyticalIntegral_known_codes envOne P [s] 1 Hreach)
    as [Hslot _].
  destruct (Hslot s eq_refl) as (_ & _ & Hsterile).
  destruct (analyticalIntegral_known_codes envOne P [s] 2 Hreach)
    as [_ Hunknown].
  split; [| split].
  - apply (proj1 (Hsterile eq_refl None)). split; [reflexivity |].
    intros n Hn. exact Hn.
  - apply (proj2 (Hsterile eq_refl (Some "sig"))). intros [Hrange _]. discriminate.
  - apply Hunknown. reflexivity.
Defined.

(** * Properties of RooClassFactory.cxx *)

(** ** strtok *)

Lemma string_length_append (a b : string) :
  String.length (String.append a b) = (String.length a + String.length b)%nat.
Proof. induction a as [| c a IH]; simpl; [reflexivity | now rewrite IH]. Qed.

Lemma skipDelims_spec (delims s : string) :
  (String.length (skipDelims delims s) <= String.length s)%nat
  /\ match skipDelims delims s with
     | EmptyString => True
     | String c _ => isDelim c delims = false
     end.
Proof.
  induction s as [| c s IH]; simpl; [split; [lia | exact I] |].
  destruct (isDelim c delims) eqn:Hc.
  - destruct IH as [Hlen Hhd]. split; [lia | assumption].
  - simpl. split; [lia | assumption].
Qed.

Lemma scanToken_spec (delims s t r : string) :
  scanToken delims s = (t, r) ->
  (String.length t + String.length r <= String.length s)%nat
  /\ (forall c, In c (list_ascii_of_string t) -> isDelim c delims = false).
Proof.
  revert t r. induction s as [| c s IH]; intros t r H; simpl in H.
  - injection H as <- <-. simpl. split; [lia | tauto].
  - destruct (isDelim c delims) eqn:Hc.
    + injection H as <- <-. simpl. split; [lia | tauto].
    + destruct (scanToken delims s) as [t' r'] eqn:Hs. injection H as <- <-.
      destruct (IH t' r' eq_refl) as [Hlen Hno]. simpl. split; [lia |].
      intros c' [<- | Hin]; [assumption | now apply Hno].
Qed.

Lemma strtok_Some (delims saved t r : string) :
  strtok delims saved = (Some t, r) ->
  tokenOK delims t /\ (String.length r < String.length saved)%nat.
Proof.
  unfold strtok. destruct (skipDelims_spec delims saved) as [Hlen Hhd].
  destruct (skipDelims delims saved) as [| c s] eqn:Hskip; [discriminate |].
  destruct (scanToken delims (String c s)) as [t' r'] eqn:Hscan.
  intros H. injection H as <- <-.
  destruct (scanToken_spec _ _ _ _ Hscan) as [Hl Hno].
  simpl in Hscan. rewrite Hhd in Hscan.
  destruct (scanToken delims s) as [t1 r1]. injection Hscan as <- <-.
  simpl in *. split; [split; [discriminate | assumption] | lia].
Qed.

Lemma strtok_None (delims saved r : string) :
  strtok delims saved = (None, r) -> r = EmptyString.
Proof.
  unfold strtok. destruct (skipDelims delims saved) as [| c s].
  - intros H. now injection H.
  - destruct (scanToken delims (String c s)). discriminate.
Qed.

Lemma scanToken_token (delims t : string) :
  (forall c, In c (list_ascii_of_string t) -> isDelim c delims = false) ->
  scanToken delims t = (t, EmptyString)
  /\ forall d rest, isDelim d delims = true ->
       scanToken delims (String.append t (String d rest)) = (t, rest).
Proof.
  induction t as [| c t IH]; intros Hno; simpl.
  - split; [reflexivity |]. intros d rest Hd. now rewrite Hd.
  - rewrite (Hno c) by now left.
    destruct IH as [IH1 IH2]; [intros c' Hc'; apply Hno; now right |].
    rewrite IH1. split; [reflexivity |].
    intros d rest Hd. now rewrite (IH2 d rest Hd).
Qed.

Lemma skipDelims_token (delims t rest : string) :
  tokenOK delims t ->
  skipDelims delims (String.append t rest) = String.append t rest.
Proof.
  intros [Hne Hno]. destruct t as [| c t]; [congruence |].
  simpl. now rewrite (Hno c) by now left.
Qed.

(** [strtok] on a token, alone or followed by a delimiter and more text. *)
Lemma strtok_token (delims t : string) :
  tokenOK delims t ->
  strtok delims t = (Some t, EmptyString)
  /\ forall d rest, isDelim d delims = true ->
       strtok delims (String.append t (String d rest)) = (Some t, rest).
Proof.
  intros Hok. pose proof Hok as [Hne Hno].
  destruct (scanToken_token delims t Hno) as [H1 H2].
  assert (forall s, s <> EmptyString ->
            strtok delims s
            = (let (t0, r) := scanToken delims (skipDelims delims s) in (Some t0, r))
            \/ skipDelims delims s = EmptyString) as Hm.
  { intros s _. unfold strtok. destruct (skipDelims delims s); [now right | now left]. }
  split.
  - pose proof (skipDelims_token delims t EmptyString Hok) as Hs.
    rewrite append_empty_r in Hs.
    destruct (Hm t Hne) as [-> | He]; [| congruence]. now rewrite Hs, H1.
  - intros d rest Hd.
    pose proof (skipDelims_token delims t (String d rest) Hok) as Hs.
    assert (String.append t (String d rest) <> EmptyString) as Hne'
      by (destruct t; [congruence | discriminate]).
    destruct (Hm _ Hne') as [-> | He]; [| congruence].
    now rewrite Hs, (H2 d rest Hd).
Qed.

Lemma concat_empty_cons (a : string) (l : list string) :
  String.concat EmptyString (a :: l)
  = String.append a (String.concat EmptyString l).
Proof.
  destruct l as [| b l]; simpl; [now rewrite append_empty_r | reflexivity].
Qed.

Lemma concat_sep_cons (sep n : string) (names : list string) :
  String.concat sep (n :: names)
  = String.append n
      (String.concat EmptyString (List.map (String.append sep) names)).
Proof.
  revert n. induction names as [| n' names IH]; intros n.
  - simpl. now rewrite append_empty_r.
  - change (String.concat sep (n :: n' :: names))
      with (String.append n (String.append sep (String.concat sep (n' :: names)))).
    rewrite IH. cbn [List.map]. rewrite concat_empty_cons.
    now rewrite append_assoc.
Qed.

(** ** The names of the arguments *)

Lemma joinArgNames_fold (classOf : string -> ArgKind) (vars : list string)
  (realArgNames catArgNames : string) :
  joinArgNames classOf vars realArgNames catArgNames
  = (joinFold realArgNames (filter (isReal classOf) vars),
     joinFold catArgNames (filter (isCategory classOf) vars)).
Proof.
  revert realArgNames catArgNames.
  induction vars as [| a vars IH]; intros ra ca; simpl; [reflexivity |].
  unfold isReal, isCategory. destruct (classOf a); simpl; apply IH.
Qed.

Lemma joinFold_nonempty (acc : string) (names : list string) :
  acc <> EmptyString ->
  joinFold acc names
  = String.append acc
      (String.concat EmptyString (List.map (String.append ",") names)).
Proof.
  revert acc. induction names as [| n names IH]; intros acc Hacc.
  - simpl. now rewrite append_empty_r.
  - cbn [List.map]. rewrite concat_empty_cons. unfold joinFold. cbn [fold_left].
    fold (joinFold
            (String.append
               (if (0 <? String.length acc)%nat then String.append acc "," else acc) n)
            names).
    assert ((0 <? String.length acc)%nat = true) as ->
      by (destruct acc; [congruence | reflexivity]).
    rewrite IH by (destruct acc; [congruence | discriminate]).
    now rewrite !append_assoc.
Qed.

Lemma joinFold_concat (names : list string) :
  Forall (fun n => n <> EmptyString) names ->
  joinFold EmptyString names = String.concat "," names.
Proof.
  intros Hall. destruct Hall as [| n names Hn Hall]; [reflexivity |].
  rewrite concat_sep_cons. unfold joinFold. simpl.
  apply (joinFold_nonempty n names Hn).
Qed.

Lemma joinFold_empty (names : list string) :
  Forall (fun n => n = EmptyString) names ->
  joinFold EmptyString names = EmptyString.
Proof.
  induction 1 as [| n names -> _ IH]; [reflexivity | exact IH].
Qed.

(** X13: the name loops of [makeAndCompilePdf] and [makeAndCompileFunction]
    give the names of the real arguments and the names of the category
    arguments, each in list order and separated by single commas, when no
    such name is empty; arguments of another kind leave no trace. *)
Theorem joinArgNames_concat (classOf : string -> ArgKind) (vars : list string) :
  (forall a, In a vars -> classOf a <> KOther -> a <> EmptyString) ->
  joinArgNames classOf vars "" ""
  = (String.concat "," (filter (isReal classOf) vars),
     String.concat "," (filter (isCategory classOf) vars)).
Proof.
  intros Hne. rewrite joinArgNames_fold. f_equal; apply joinFold_concat;
    apply Forall_forall; intros a Ha; apply filter_In in Ha;
    destruct Ha as [Ha Hk]; apply Hne; try assumption;
    unfold isReal, isCategory in Hk; destruct (classOf a); discriminate.
Qed.

Lemma joinArgNames_concat_witness :
  joinArgNames classByName ["x"; "c"; "o"; "y"] "" "" = ("x,y", "c").
Proof.
  apply (joinArgNames_concat classByName ["x"; "c"; "o"; "y"]).
  intros a [<- | [<- | [<- | [<- | []]]]] _; discriminate.
Defined.

(** ** The argument list of makeClass *)

Lemma comma_isDelim : isDelim ","%char "," = true.
Proof. reflexivity. Qed.

Lemma strtok_concat (d : Ascii.ascii) (n : string) (names : list string) :
  tokenOK (String d EmptyString) n ->
  strtok (String d EmptyString) (String.concat (String d EmptyString) (n :: names))
  = (Some n, String.concat (String d EmptyString) names).
Proof.
  intros Hok. destruct (strtok_token _ n Hok) as [H1 H2].
  destruct names as [| n' names]; [exact H1 |].
  change (String.concat (String d EmptyString) (n :: n' :: names))
    with (String.append n
            (String d (String.concat (String d EmptyString) (n' :: names)))).
  apply H2. unfold isDelim. simpl. now rewrite Ascii.eqb_refl.
Qed.

Lemma tokenLoop_None (fuel : nat) (saved : string) (cat : bool)
  (alist : list string) (isCat : list bool) :
  tokenLoop fuel None saved cat alist isCat = Done (alist, isCat).
Proof. destruct fuel; reflexivity. Qed.

Lemma tokenLoop_joined (names : list string) (fuel : nat) (n : string)
  (cat : bool) (alist : list string) (isCat : list bool) :
  Forall (tokenOK ",") names -> (List.length names < fuel)%nat ->
  tokenLoop fuel (Some n) (String.concat "," names) cat alist isCat
  = Done (alist ++ n :: names, isCat ++ repeat cat (S (List.length names))).
Proof.
  intros Hall. revert fuel n alist isCat.
  induction Hall as [| n' names Hn' _ IH]; intros fuel n alist isCat Hfuel;
    (destruct fuel as [| fuel]; [simpl in Hfuel; lia |]).
  - cbn [tokenLoop String.concat]. unfold strtok. cbn [skipDelims].
    now rewrite tokenLoop_None.
  - cbn [tokenLoop]. rewrite (strtok_concat ","%char n' names Hn').
    rewrite IH by (simpl in Hfuel; lia).
    rewrite <- !app_assoc. reflexivity.
Qed.

Lemma concat_length_ge (sep : string) (names : list string) :
  Forall (fun n => n <> EmptyString) names ->
  (List.length names <= String.length (String.concat sep names))%nat.
Proof.
  induction 1 as [| n names Hn _ IH]; [simpl; lia |].
  rewrite concat_sep_cons, string_length_append.
  assert (1 <= String.length n)%nat by (destruct n; [congruence | simpl; lia]).
  assert (List.length names
          <= String.length
               (String.concat EmptyString (List.map (String.append sep) names)))%nat.
  { clear -IH. destruct names as [| n' names]; [simpl; lia |].
    rewrite concat_sep_cons in IH. rewrite string_length_append in IH.
    cbn [List.map]. rewrite concat_empty_cons, !string_length_append. simpl in *.
    lia. }
  simpl. lia.
Qed.

Lemma tokenizeNames_joined (names : list string) (cat : bool)
  (alist : list string) (isCat : list bool) :
  Forall (tokenOK ",") names ->
  tokenizeNames (Some (String.concat "," names)) cat alist isCat
  = Done (alist ++ names, isCat ++ repeat cat (List.length names)).
Proof.
  intros Hall. destruct Hall as [| n names Hn Hall].
  - simpl. now rewrite !app_nil_r.
  - unfold tokenizeNames.
    destruct (String.concat "," (n :: names)) as [| c0 buf0] eqn:Hbuf.
    + exfalso. destruct Hn as [Hne _]. rewrite concat_sep_cons in Hbuf.
      destruct n; [congruence | discriminate].
    + rewrite <- Hbuf. rewrite (strtok_concat ","%char n names Hn).
      apply tokenLoop_joined; [assumption |].
      pose proof (concat_length_ge "," (n :: names)) as Hlen.
      simpl List.length in Hlen. apply Hlen. constructor; [apply Hn |].
      eapply Forall_impl; [| exact Hall]. intros a [Ha _]. exact Ha.
Qed.

Lemma tokenLoop_tokens (fuel : nat) (token : option string) (saved : string)
  (cat : bool) (alist : list string) (isCat : list bool) :
  match token with
  | Some t => tokenOK "," t /\ (String.length saved < fuel)%nat
  | None => True
  end ->
  Forall (tokenOK ",") alist -> List.length alist = List.length isCat ->
  exists alist' isCat',
    tokenLoop fuel token saved cat alist isCat = Done (alist', isCat')
    /\ Forall (tokenOK ",") alist' /\ List.length alist' = List.length isCat'.
Proof.
  revert token saved alist isCat.
  induction fuel as [| fuel IH]; intros token saved alist isCat Htok Hall Hlen.
  - destruct token as [t |]; [destruct Htok; lia |]. simpl. eauto.
  - destruct token as [t |]; [| simpl; eauto]. destruct Htok as [Ht Hfuel].
    cbn [tokenLoop]. destruct (strtok "," saved) as [token' saved'] eqn:Hs.
    apply IH.
    + destruct token' as [t' |]; [| exact I].
      apply strtok_Some in Hs. destruct Hs as [Hok Hl]. split; [assumption | lia].
    + apply Forall_app. split; [assumption | now constructor].
    + rewrite !length_app. simpl. lia.
Qed.

Lemma tokenizeNames_tokens (names : option string) (cat : bool)
  (alist : list string) (isCat : list bool) :
  Forall (tokenOK ",") alist -> List.length alist = List.length isCat ->
  exists alist' isCat',
    tokenizeNames names cat alist isCat = Done (alist', isCat')
    /\ Forall (tokenOK ",") alist' /\ List.length alist' = List.length isCat'.
Proof.
  intros Hall Hlen. unfold tokenizeNames.
  destruct names as [[| c buf] |]; [eauto | | eauto].
  destruct (strtok "," (String c buf)) as [token saved] eqn:Hs.
  apply tokenLoop_tokens; try assumption.
  destruct token as [t |]; [| exact I].
  apply strtok_Some in Hs. destruct Hs as [Hok Hl]. split; [assumption | exact Hl].
Qed.

Lemma parseArgNames_Done (realArgNames catArgNames : option string) :
  exists r, parseArgNames realArgNames catArgNames = Done r.
Proof.
  unfold parseArgNames.
  destruct (tokenizeNames_tokens realArgNames false [] [] (Forall_nil _) eq_refl)
    as (a1 & c1 & H1 & Hok1 & Hlen1).
  rewrite H1. cbn [bind fst snd].
  destruct (tokenizeNames_tokens catArgNames true a1 c1 Hok1 Hlen1)
    as (a2 & c2 & H2 & _). eauto.
Qed.

(** X14: the argument list of [makeClass] is always produced: every name in
    it is non-empty and free of commas and has its flag; from the names of
    the reals and of the categories, each joined by commas, it recovers the
    reals followed by the categories, the flags telling them apart. *)
Theorem parseArgNames_tokens (realArgNames catArgNames : option string) :
  exists alist isCat,
    parseArgNames realArgNames catArgNames = Done (alist, isCat)
    /\ Forall (tokenOK ",") alist
    /\ List.length alist = List.length isCat
    /\ (forall reals cats,
          Forall (tokenOK ",") reals -> Forall (tokenOK ",") cats ->
          realArgNames = Some (String.concat "," reals) ->
          catArgNames = Some (String.concat "," cats) ->
          alist = reals ++ cats
          /\ isCat = repeat false (List.length reals)
                     ++ repeat true (List.length cats)).
Proof.
  unfold parseArgNames.
  destruct (tokenizeNames_tokens realArgNames false [] [] (Forall_nil _) eq_refl)
    as (a1 & c1 & H1 & Hok1 & Hlen1).
  rewrite H1. cbn [bind fst snd].
  destruct (tokenizeNames_tokens catArgNames true a1 c1 Hok1 Hlen1)
    as (a2 & c2 & H2 & Hok2 & Hlen2).
  exists a2, c2. split; [assumption |]. split; [assumption |].
  split; [assumption |].
  intros reals cats Hr Hc -> ->.
  rewrite (tokenizeNames_joined reals false [] [] Hr) in H1.
  injection H1 as <- <-.
  rewrite (tokenizeNames_joined cats true _ _ Hc) in H2.
  injection H2 as <- <-. split; reflexivity.
Qed.

Lemma parseArgNames_tokens_witness :
  parseArgNames (Some "x,y") (Some "c") = Done (["x"; "y"; "c"], [false; false; true]).
Proof.
  destruct (parseArgNames_tokens (Some "x,y") (Some "c"))
    as (alist & isCat & Hp & _ & _ & Hround).
  destruct (Hround ["x"; "y"] ["c"]) as [-> ->]; try reflexivity; try exact Hp;
    repeat constructor; try discriminate;
    intros c [<- | []]; reflexivity.
Defined.

(** ** The order of the arguments *)

Lemma argListLoop_real (classOf : string -> ArgKind) (ptrOf : string -> string)
  (vars : list string) (argList : string) :
  argListLoop classOf ptrOf KReal ",*((RooAbsReal*)" vars argList
  = String.append argList
      (String.concat EmptyString
         (List.map (argText classOf ptrOf) (filter (isReal classOf) vars))).
Proof.
  revert argList. induction vars as [| a vars IH]; intros argList; simpl.
  - now rewrite append_empty_r.
  - rewrite IH. unfold isReal at 2. destruct (classOf a) eqn:Hk; try reflexivity.
    cbn [List.map]. rewrite concat_empty_cons, <- append_assoc.
    unfold argText, isCategory. now rewrite Hk.
Qed.

Lemma argListLoop_category (classOf : string -> ArgKind) (ptrOf : string -> string)
  (vars : list string) (argList : string) :
  argListLoop classOf ptrOf KCategory ",*((RooAbsCategory*)" vars argList
  = String.append argList
      (String.concat EmptyString
         (List.map (argText classOf ptrOf) (filter (isCategory classOf) vars))).
Proof.
  revert argList. induction vars as [| a vars IH]; intros argList; simpl.
  - now rewrite append_empty_r.
  - rewrite IH. unfold isCategory at 2. destruct (classOf a) eqn:Hk; try reflexivity.
    cbn [List.map]. rewrite concat_empty_cons, <- append_assoc.
    unfold argText, isCategory. now rewrite Hk.
Qed.

Lemma concat_empty_app (l1 l2 : list string) :
  String.concat EmptyString (l1 ++ l2)
  = String.append (String.concat EmptyString l1) (String.concat EmptyString l2).
Proof.
  induction l1 as [| a l1 IH]; [reflexivity |].
  rewrite <- app_comm_cons, !concat_empty_cons, IH. now rewrite append_assoc.
Qed.

Lemma flags_of_reals (classOf : string -> ArgKind) (vars : list string) :
  List.map (isCategory classOf) (filter (isReal classOf) vars)
  = repeat false (List.length (filter (isReal classOf) vars)).
Proof.
  induction vars as [| a vars IH]; [reflexivity |]. simpl.
  destruct (isReal classOf a) eqn:Hk; [| assumption]. simpl. rewrite IH.
  f_equal. unfold isReal, isCategory in *. now destruct (classOf a).
Qed.

Lemma flags_of_categories (classOf : string -> ArgKind) (vars : list string) :
  List.map (isCategory classOf) (filter (isCategory classOf) vars)
  = repeat true (List.length (filter (isCategory classOf) vars)).
Proof.
  induction vars as [| a vars IH]; [reflexivity |]. simpl.
  destruct (isCategory classOf a) eqn:Hk; [| assumption]. simpl.
  now rewrite IH, Hk.
Qed.

(** X15: the arguments passed when an instance is created are, one for one
    and in the same order, the arguments of the constructor of the generated
    class: the reals in list order, then the categories in list order, with
    the cast of their kind. *)
Theorem instance_arguments_match (classOf : string -> ArgKind)
  (ptrOf : string -> string) (vars : list string) :
  Forall (usableArg classOf) vars ->
  let args := filter (isReal classOf) vars ++ filter (isCategory classOf) vars in
  parseArgNames (Some (fst (joinArgNames classOf vars "" "")))
    (Some (snd (joinArgNames classOf vars "" "")))
  = Done (args, List.map (isCategory classOf) args)
  /\ instanceArgList classOf ptrOf vars
     = String.concat EmptyString (List.map (argText classOf ptrOf) args).
Proof.
  intros Husable args. rewrite Forall_forall in Husable.
  assert (Forall (tokenOK ",") (filter (isReal classOf) vars)) as Hr.
  { apply Forall_forall. intros a Ha. apply filter_In in Ha. destruct Ha as [Ha Hk].
    apply (Husable a Ha). unfold isReal in Hk. destruct (classOf a); discriminate. }
  assert (Forall (tokenOK ",") (filter (isCategory classOf) vars)) as Hc.
  { apply Forall_forall. intros a Ha. apply filter_In in Ha. destruct Ha as [Ha Hk].
    apply (Husable a Ha). unfold isCategory in Hk. destruct (classOf a); discriminate. }
  split.
  - rewrite joinArgNames_fold. cbn [fst snd].
    rewrite !joinFold_concat
      by (eapply Forall_impl; [| eassumption]; intros a [Ha _]; exact Ha).
    unfold parseArgNames. rewrite (tokenizeNames_joined _ false [] [] Hr).
    cbn [bind fst snd]. rewrite (tokenizeNames_joined _ true _ _ Hc).
    unfold args. rewrite map_app, flags_of_reals, flags_of_categories.
    reflexivity.
  - unfold instanceArgList. rewrite argListLoop_real, argListLoop_category.
    unfold args. rewrite map_app, concat_empty_app. reflexivity.
Qed.

Lemma instance_arguments_match_witness :
  parseArgNames (Some "x,y") (Some "c") = Done (["x"; "y"; "c"], [false; false; true])
  /\ instanceArgList classByName (fun a => String.append "0x" a) ["x"; "c"; "o"; "y"]
     = ",*((RooAbsReal*)0xx),*((RooAbsReal*)0xy),*((RooAbsCategory*)0xc)".
Proof.
  apply (instance_arguments_match classByName (fun a => String.append "0x" a)
           ["x"; "c"; "o"; "y"]).
  apply Forall_forall. intros a [<- | [<- | [<- | [<- | []]]]] Hk;
    try (now destruct Hk);
    (split; [discriminate | intros c [<- | []]; reflexivity]).
Defined.

(** ** The integral specification *)

Lemma intExprLoop_None (fuel : nat) (saved : string) (intObs intExpr : list string) :
  intExprLoop fuel None saved intObs intExpr = Done (intObs, intExpr).
Proof. destruct fuel; reflexivity. Qed.

Lemma strtok_empty (delims : string) : strtok delims EmptyString = (None, EmptyString).
Proof. reflexivity. Qed.

Lemma concat_pairText (p : string * string) (texts : list string) :
  String.concat ";" (pairText p :: texts)
  = String.append (fst p) (String ":" (String.concat ";" (snd p :: texts))).
Proof.
  rewrite !concat_sep_cons. unfold pairText. rewrite append_assoc. reflexivity.
Qed.

Lemma strtok_specTexts (pairs : list (string * string)) (tail : option string) :
  Forall pairOK pairs ->
  match tail with Some o => tokenOK ":" o | None => True end ->
  strtok ":" (String.concat ";" (specTexts pairs tail))
  = match pairs, tail with
    | p :: rest, _ =>
        (Some (fst p), String.concat ";" (snd p :: specTexts rest tail))
    | [], Some o => (Some o, EmptyString)
    | [], None => (None, EmptyString)
    end.
Proof.
  intros Hall Htail. destruct Hall as [| p rest [Ho He] Hall].
  - destruct tail as [o |]; [| reflexivity]. simpl.
    now destruct (strtok_token ":" o Htail).
  - unfold specTexts. cbn [List.map app]. rewrite concat_pairText.
    destruct (strtok_token ":" (fst p) Ho) as [_ H2]. apply H2. reflexivity.
Qed.

Lemma intExprLoop_joined (pairs : list (string * string)) (tail : option string)
  (fuel : nat) (o e : string) (intObs intExpr : list string) :
  Forall pairOK pairs ->
  match tail with Some o' => tokenOK ":" o' | None => True end ->
  tokenOK ";" e ->
  (List.length (specTexts pairs tail) < fuel)%nat ->
  intExprLoop fuel (Some o) (String.concat ";" (e :: specTexts pairs tail))
    intObs intExpr
  = match tail with
    | None => Done (intObs ++ o :: List.map fst pairs,
                    intExpr ++ e :: List.map snd pairs)
    | Some _ => Aborted
    end.
Proof.
  intros Hall Htail. revert fuel o e intObs intExpr.
  induction Hall as [| p rest Hp Hrest IH]; intros fuel o e intObs intExpr He Hfuel;
    (destruct fuel as [| fuel]; [lia |]); cbn [intExprLoop];
    rewrite (strtok_concat ";"%char e _ He).
  - rewrite (strtok_specTexts [] tail (Forall_nil _) Htail).
    destruct tail as [o' |].
    + destruct fuel as [| fuel]; [simpl in Hfuel; lia |]. reflexivity.
    + now rewrite intExprLoop_None.
  - rewrite (strtok_specTexts (p :: rest) tail (Forall_cons _ Hp Hrest) Htail).
    rewrite IH; [| apply Hp |].
    + destruct tail; [reflexivity |]. rewrite <- !app_assoc. reflexivity.
    + unfold specTexts in *. rewrite length_app in *. simpl in Hfuel. lia.
Qed.

Lemma specTexts_nonempty (pairs : list (string * string)) (tail : option string) :
  Forall pairOK pairs ->
  match tail with Some o => tokenOK ":" o | None => True end ->
  Forall (fun n => n <> EmptyString) (specTexts pairs tail).
Proof.
  intros Hall Htail. unfold specTexts. apply Forall_app. split.
  - rewrite Forall_map. eapply Forall_impl; [| exact Hall].
    intros p [[Hne _] _]. unfold pairText. destruct (fst p); [congruence | discriminate].
  - destruct tail as [o |]; constructor; [apply Htail | constructor].
Qed.

Lemma parseIntExpression_joined (pairs : list (string * string))
  (tail : option string) :
  Forall pairOK pairs ->
  match tail with Some o => tokenOK ":" o | None => True end ->
  parseIntExpression (Some (String.concat ";" (specTexts pairs tail)))
  = match tail with
    | None => Done (List.map fst pairs, List.map snd pairs)
    | Some _ => Aborted
    end.
Proof.
  intros Hall Htail. unfold parseIntExpression.
  pose proof (concat_length_ge ";" _ (specTexts_nonempty pairs tail Hall Htail))
    as Hlen.
  destruct (String.concat ";" (specTexts pairs tail)) as [| c0 buf0] eqn:Hbuf.
  - destruct pairs as [| p rest]; destruct tail as [o |]; simpl in Hlen;
      try reflexivity; try lia.
  - rewrite <- Hbuf in *. rewrite (strtok_specTexts pairs tail Hall Htail).
    destruct Hall as [| p rest Hp Hrest].
    + destruct tail as [o |]; [| simpl in Hbuf; discriminate].
      destruct (String.length (String.concat ";" (specTexts [] (Some o))))
        as [| fuel] eqn:Hf; [simpl in Hlen; lia |]. reflexivity.
    + apply intExprLoop_joined; [exact Hrest | exact Htail | apply Hp |].
      exact Hlen.
Qed.

Lemma intExprLoop_lists (fuel : nat) (ptr : option string) (saved : string)
  (intObs intExpr : list string) :
  match ptr with
  | Some o => tokenOK ":" o /\ (String.length saved < fuel)%nat
  | None => True
  end ->
  Forall (tokenOK ":") intObs -> Forall (tokenOK ";") intExpr ->
  List.length intObs = List.length intExpr ->
  match intExprLoop fuel ptr saved intObs intExpr with
  | Done r =>
      List.length (fst r) = List.length (snd r)
      /\ Forall (tokenOK ":") (fst r) /\ Forall (tokenOK ";") (snd r)
  | Aborted => True
  | OutOfFuel => False
  end.
Proof.
  revert ptr saved intObs intExpr.
  induction fuel as [| fuel IH]; intros ptr saved intObs intExpr Hptr Ho He Hlen.
  - destruct ptr as [o |]; [destruct Hptr; lia |]. simpl. auto.
  - destruct ptr as [o |]; [| simpl; auto]. destruct Hptr as [Hok Hfuel].
    cbn [intExprLoop]. destruct (strtok ";" saved) as [expr saved1] eqn:H1.
    destruct expr as [e |]; [| exact I].
    apply strtok_Some in H1. destruct H1 as [Hoke Hl1].
    destruct (strtok ":" saved1) as [ptr' saved2] eqn:H2.
    apply IH.
    + destruct ptr' as [o' |]; [| exact I].
      apply strtok_Some in H2. destruct H2 as [Hok' Hl2]. split; [assumption | lia].
    + apply Forall_app. split; [assumption | now constructor].
    + apply Forall_app. split; [assumption | now constructor].
    + rewrite !length_app. simpl. lia.
Qed.

(** X16: the observables and the expressions read from an integral
    specification always come in pairs of non-empty texts; from
    [obs:expr;obs:expr;...] they are recovered in order; an observable left
    without an expression at the end makes the reading abort. *)
Theorem parseIntExpression_pairs (intExpression : option string)
  (pairs : list (string * string)) (o : string) :
  match parseIntExpression intExpression with
  | Done r =>
      List.length (fst r) = List.length (snd r)
      /\ Forall (tokenOK ":") (fst r) /\ Forall (tokenOK ";") (snd r)
  | Aborted => True
  | OutOfFuel => False
  end
  /\ (Forall pairOK pairs ->
      parseIntExpression (Some (String.concat ";" (List.map pairText pairs)))
      = Done (List.map fst pairs, List.map snd pairs))
  /\ (Forall pairOK pairs -> tokenOK ":" o ->
      parseIntExpression
        (Some (String.concat ";" (List.map pairText pairs ++ [o])))
      = Aborted).
Proof.
  split; [| split].
  - unfold parseIntExpression. destruct intExpression as [[| c buf] |];
      try (simpl; auto; fail).
    destruct (strtok ":" (String c buf)) as [ptr saved] eqn:Hs.
    apply intExprLoop_lists; try constructor; try reflexivity.
    destruct ptr as [p |]; [| exact I].
    apply strtok_Some in Hs. destruct Hs as [Hok Hl]. split; [assumption | exact Hl].
  - intros Hall. pose proof (parseIntExpression_joined pairs None Hall I) as H.
    unfold specTexts in H. now rewrite app_nil_r in H.
  - intros Hall Ho. exact (parseIntExpression_joined pairs (Some o) Hall Ho).
Qed.

Lemma parseIntExpression_pairs_witness :
  parseIntExpression (Some "x:x*x/2;y:y") = Done (["x"; "y"], ["x*x/2"; "y"])
  /\ parseIntExpression (Some "x:x*x/2;y") = Aborted.
Proof.
  assert (Forall pairOK [("x", "x*x/2")]) as H1.
  { repeat constructor; try discriminate; simpl;
      intros c Hc; repeat (destruct Hc as [<- | Hc]; [reflexivity |]); destruct Hc. }
  assert (tokenOK ":" "y" /\ tokenOK ";" "y") as [H2 H3].
  { repeat split; try discriminate; intros c [<- | []]; reflexivity. }
  split.
  - apply (proj1 (proj2 (parseIntExpression_pairs None
                           [("x", "x*x/2"); ("y", "y")] "y"))).
    inversion H1 as [| ? ? H4 _]; subst.
    constructor; [exact H4 |]. constructor; [| constructor]. split; assumption.
  - apply (proj2 (proj2 (parseIntExpression_pairs None [("x", "x*x/2")] "y")));
      assumption.
Defined.

(** ** makeAndCompilePdf and makeAndCompileFunction *)

Lemma joinFold_length (names : list string) (acc : string) :
  (String.length acc <= String.length (joinFold acc names))%nat
  /\ forall n, In n names ->
       (String.length n <= String.length (joinFold acc names))%nat.
Proof.
  revert acc. induction names as [| n names IH]; intros acc.
  - split; [simpl; lia | intros n []].
  - unfold joinFold. cbn [fold_left].
    match goal with
    | |- context [fold_left ?f names ?a] =>
        change (fold_left f names a) with (joinFold a names);
        destruct (IH a) as [Hacc Hin];
        assert (String.length acc <= String.length a
                /\ String.length n <= String.length a)%nat as [Ha Hn]
    end.
    { rewrite string_length_append.
      destruct (0 <? String.length acc)%nat;
        rewrite ?string_length_append; simpl; lia. }
    split; [lia |]. intros n' [<- | Hn']; [lia | now apply Hin].
Qed.

Lemma makeClass_no_integral (baseName className realArgNames catArgNames : string)
  (expression : option string) (hasIntGen : bool) :
  makeClass (Some baseName) (Some className) (Some realArgNames)
    (Some catArgNames) expression false hasIntGen None
  = Done (nullOrEmpty (Some realArgNames) && nullOrEmpty (Some catArgNames)).
Proof.
  unfold makeClass, makeClass_checkArgs.
  destruct (nullOrEmpty (Some realArgNames) && nullOrEmpty (Some catArgNames));
    [reflexivity |].
  destruct (parseArgNames_Done (Some realArgNames) (Some catArgNames)) as (r & ->).
  reflexivity.
Qed.

(** X17: [makeAndCompilePdf] and [makeAndCompileFunction] report an error,
    without turning to the interpreter, when no argument of the list is a
    real or a category with a name; with such an argument and no integral
    specification their result is the verdict of the interpreter on
    [.L <name>.cxx+]. *)
Theorem makeAndCompile_result (classOf : string -> ArgKind)
  (interp : string -> bool) (name : string) (expression : option string)
  (vars : list string) (intExpression : option string) :
  ((forall a, In a vars -> classOf a = KOther \/ a = EmptyString) ->
   makeAndCompileFunction classOf interp name expression vars intExpression
   = Done true
   /\ makeAndCompilePdf classOf interp name expression vars intExpression
      = Done true)
  /\ ((exists a, In a vars /\ classOf a <> KOther /\ a <> EmptyString) ->
      intExpression = None ->
      makeAndCompileFunction classOf interp name expression vars intExpression
      = Done (interp (String.append ".L " (String.append name ".cxx+")))
      /\ makeAndCompilePdf classOf interp name expression vars intExpression
         = Done (interp (String.append ".L " (String.append name ".cxx+")))).
Proof.
  unfold makeAndCompileFunction, makeAndCompilePdf, makeFunction, makePdf.
  rewrite joinArgNames_fold. split.
  - intros Hnone.
    assert (forall keep, Forall (fun n => n = EmptyString)
                           (filter keep vars) \/ exists a, In a vars /\ keep a = true
                                                      /\ classOf a = KOther) as Hf.
    { intros keep. induction vars as [| a vars IH]; [left; constructor |].
      simpl. destruct IH as [IH | (b & Hb & Hk & Ho)].
      - intros b Hb. apply Hnone. now right.
      - destruct (keep a) eqn:Hka; [| now left].
        destruct (Hnone a (or_introl eq_refl)) as [Ho | ->].
        + right. exists a. repeat split; [now left | assumption | assumption].
        + left. now constructor.
      - right. exists b. repeat split; [now right | assumption | assumption]. }
    assert (joinFold "" (filter (isReal classOf) vars) = EmptyString) as ->.
    { destruct (Hf (isReal classOf)) as [H | (a & _ & Hk & Ho)];
        [now apply joinFold_empty |].
      unfold isReal in Hk. rewrite Ho in Hk. discriminate. }
    assert (joinFold "" (filter (isCategory classOf) vars) = EmptyString) as ->.
    { destruct (Hf (isCategory classOf)) as [H | (a & _ & Hk & Ho)];
        [now apply joinFold_empty |].
      unfold isCategory in Hk. rewrite Ho in Hk. discriminate. }
    unfold makeClass, makeClass_checkArgs. simpl. split; reflexivity.
  - intros (a & Ha & Hk & Hne) ->. cbn [isSome].
    rewrite !makeClass_no_integral.
    assert (nullOrEmpty (Some (joinFold "" (filter (isReal classOf) vars)))
            && nullOrEmpty (Some (joinFold "" (filter (isCategory classOf) vars)))
            = false) as ->; [| split; reflexivity].
    assert (forall names, In a names -> nullOrEmpty (Some (joinFold "" names)) = false)
      as Hjoin.
    { intros names Hin. destruct (joinFold_length names "") as [_ Hlen].
      specialize (Hlen a Hin). simpl.
      destruct (joinFold "" names); [| reflexivity].
      destruct a; [congruence | simpl in Hlen; lia]. }
    destruct (classOf a) eqn:Hka; [| | congruence].
    + rewrite Hjoin; [reflexivity |]. apply filter_In. split; [assumption |].
      unfold isReal. now rewrite Hka.
    + rewrite andb_comm, Hjoin; [reflexivity |]. apply filter_In.
      split; [assumption |]. unfold isCategory. now rewrite Hka.
Qed.

Lemma makeAndCompile_result_witness :
  makeAndCompileFunction classByName (fun _ => false) "MyFunc" (Some "x*y")
    ["o"] None = Done true
  /\ makeAndCompileFunction classByName (fun _ => false) "MyFunc" (Some "x*y")
       ["x"; "o"; "y"] None = Done false.
Proof.
  split.
  - apply (proj1 (makeAndCompile_result classByName (fun _ => false) "MyFunc"
                    (Some "x*y") ["o"] None)).
    intros a [<- | []]. now left.
  - apply (proj2 (makeAndCompile_result classByName (fun _ => false) "MyFunc"
                    (Some "x*y") ["x"; "o"; "y"] None)); [| reflexivity].
    exists "x". repeat split; [now left | discriminate | discriminate].
Defined.
